(** * amarajs/plugin-events: the binding, delegation and dispatch engine

    A shallow embedding of [src/index.js].  The engine's functions keep
    their JavaScript names.  The DOM platform the engine talks to (listener
    lists, attribute maps, event propagation) is modelled next to it, as
    far as the engine uses it.  User handlers are JavaScript closures; here
    they are small programs over the operations a handler can perform on
    the engine and on the DOM (dispatch an action, touch an attribute, stop
    propagation, defer a dispatch). *)

From Stdlib Require Import ZArith Ascii String List Bool Lia DecimalString.
From stdpp Require Import gmap strings list.
Import ListNotations.

(** ** JavaScript strings

    A string is a sequence of code units; the model covers the code units
    U+0000 to U+00FF, one [ascii] each. *)

Module Js.

(** ECMAScript WhiteSpace and LineTerminator below U+0100: this is the
    set that [\s] matches and that [String.prototype.trim] strips. *)
Definition isWhiteSpace (c : ascii) : bool :=
  let n := nat_of_ascii c in
  ((9 <=? n) && (n <=? 13)) || (n =? 32) || (n =? 160).

(** The code units that [.] does not match in a regular expression. *)
Definition isLineTerminator (c : ascii) : bool :=
  let n := nat_of_ascii c in (n =? 10) || (n =? 13).

Definition toLowerCaseChar (c : ascii) : ascii :=
  let n := nat_of_ascii c in
  if ((65 <=? n) && (n <=? 90)) ||
     ((192 <=? n) && (n <=? 222) && negb (n =? 215))
  then ascii_of_nat (n + 32) else c.

Fixpoint toLowerCase (s : string) : string :=
  match s with
  | EmptyString => EmptyString
  | String c r => String (toLowerCaseChar c) (toLowerCase r)
  end.

Definition isEmpty (s : string) : bool :=
  match s with EmptyString => true | _ => false end.

Fixpoint trimStart (s : string) : string :=
  match s with
  | EmptyString => EmptyString
  | String c r => if isWhiteSpace c then trimStart r else s
  end.

Fixpoint trimEnd (s : string) : string :=
  match s with
  | EmptyString => EmptyString
  | String c r =>
      let r' := trimEnd r in
      if isWhiteSpace c && isEmpty r' then EmptyString else String c r'
  end.

(** [s.split(sep)] for a separator of one code unit: never empty. *)
Fixpoint split (sep : ascii) (s : string) : list string :=
  match s with
  | EmptyString => [EmptyString]
  | String c r =>
      if Ascii.eqb c sep then EmptyString :: split sep r
      else match split sep r with
           | h :: t => String c h :: t
           | [] => [String c EmptyString]
           end
  end.

Definition startsWith (p s : string) : bool := String.prefix p s.

(** [arr.includes(x)] on an array of strings. *)
Definition includes (x : string) (arr : list string) : bool :=
  existsb (String.eqb x) arr.

(** The conversion of an integer to the type [short] of Web IDL: the
    integer modulo 2^16, taken between -2^15 and 2^15 - 1. *)
Definition toShort (z : Z) : Z := (z + 32768) mod 65536 - 32768.

(** The values the compared field of an event can hold.  The only
    number among them is a [short], which is what [MouseEvent.button]
    is: [Number z] is the [short] the platform makes of the integer [z]
    when it makes the event. *)
Inductive value :=
| Undefined
| Null
| Boolean (b : bool)
| Number (z : Z)
| Str (s : string).

(** [String(v)].  A [short] is below 10^21 in magnitude, so that its
    string is its decimal notation in full. *)
Definition String_ (v : value) : string :=
  match v with
  | Undefined => "undefined"
  | Null => "null"
  | Boolean true => "true"
  | Boolean false => "false"
  | Number z => NilZero.string_of_int (Z.to_int (toShort z))
  | Str s => s
  end.

(** Everything the engine throws or meets as an exception. *)
Inductive exn :=
| Error (message : string)
| TypeError
| RangeError
| SyntaxError.

End Js.

(** ** Parsing of the keys of an event map *)

Definition trim (s : string) : string := Js.trimEnd (Js.trimStart s).
Definition trimLower (s : string) : string := Js.toLowerCase (trim s).

Definition asMeta (value : string) : string :=
  if String.eqb value "space" then " "
  else if String.eqb value "left" then "0"
  else if String.eqb value "middle" then "1"
  else if String.eqb value "wheel" then "1"
  else if String.eqb value "right" then "2"
  else value.

Definition fixMeta (value : string) : string :=
  if String.eqb value "del" then "delete" else value.

(** [metaEventMap[type]]: the name of the field compared with the meta
    tokens; [None] is JavaScript's [undefined]. *)
Definition metaEventMap (type : string) : option string :=
  if String.eqb type "keydown" then Some "key"
  else if String.eqb type "keyup" then Some "key"
  else if String.eqb type "keypress" then Some "key"
  else if String.eqb type "mousedown" then Some "button"
  else if String.eqb type "mouseup" then Some "button"
  else None.

(** The longest prefix without white space, and what follows it. *)
Fixpoint spanNonSpace (s : string) : string * string :=
  match s with
  | EmptyString => (EmptyString, EmptyString)
  | String c r =>
      if Js.isWhiteSpace c then (EmptyString, s)
      else let (a, b) := spanNonSpace r in (String c a, b)
  end.

(** What follows the last line terminator of [s], when there is one,
    together with whether everything up to it is white space. *)
Fixpoint afterLastLineTerminator (s : string) : option (bool * string) :=
  match s with
  | EmptyString => None
  | String c r =>
      match afterLastLineTerminator r with
      | Some (ws, tail) => Some (Js.isWhiteSpace c && ws, tail)
      | None => if Js.isLineTerminator c then Some (true, r) else None
      end
  end.

(** [rxEventAndSelectors.exec(key)] for [/(^[^\s]+)\s*?(.*?)$/], giving the
    two groups.  Group 1 is the leading run without white space and must
    not be empty.  The lazy [\s*?] takes as little as lets [(.*?)$] reach
    the end of the input: nothing when no line terminator follows, and
    otherwise everything up to the last line terminator, which then has to
    be white space only. *)
Definition rxEventAndSelectors (key : string) : option (string * string) :=
  let (g1, rest) := spanNonSpace key in
  if Js.isEmpty g1 then None
  else match afterLastLineTerminator rest with
       | None => Some (g1, rest)
       | Some (true, tail) => Some (g1, tail)
       | Some (false, _) => None
       end.

(** A parsed key: the event type, the meta tokens and the selectors of
    the delegation, as [addHandlerForEvent] computes them. *)
Record ParsedSpec := {
  eventType : string;
  metaTokens : list string;
  delegationSelectors : list string
}.

Definition parseDelegates (selectors : string) : list string :=
  List.filter (fun s => negb (Js.isEmpty s)) (map trim (Js.split "," selectors)).

Definition parseEventMeta (eventMeta : string) : list string :=
  map asMeta (map trimLower (Js.split "." eventMeta)).

Definition lifecyclePrefix : string := "amara:".

(** ** Data model *)

(** A DOM node, by identity. *)
Definition node := nat.

Record Action := { a_type : string; a_payload : Js.value }.

(** The [eventInitOptions] of [dispatchActionAsEvent]. *)
Record EventInit := { bubbles : bool; cancelable : bool; composed : bool }.

(** The default value of the parameter, and the [{}] of [syncDispatch]. *)
Definition defaultInit : EventInit :=
  {| bubbles := true; cancelable := true; composed := true |}.
Definition emptyInit : EventInit :=
  {| bubbles := false; cancelable := false; composed := false |}.

(** What a user handler does with the event it receives.  [Dispatch] is
    [e.dispatch(action, options)]; [SetTimeoutDispatch] is
    [const dispatch = e.dispatch; setTimeout(() => dispatch(action))],
    a deferred call of the dispatcher the handler was given (with one
    wrapper called for the event it is [setTimeout(() =>
    e.dispatch(action))] too; with several, [e.dispatch] read when the
    timer runs is the dispatcher of the wrapper called last);
    [ThrowError] is [throw new Error(message)].  [SetAttribute] and
    [RemoveAttribute] are calls of [n.setAttribute(attr, value)] and
    [n.removeAttribute(attr)] with a name the platform accepts. *)
Inductive cmd :=
| Dispatch (action : Action) (options : option EventInit)
| SetAttribute (n : node) (attr value : string)
| RemoveAttribute (n : node) (attr : string)
| StopPropagation
| StopImmediatePropagation
| SetTimeoutDispatch (action : Action)
| ThrowError (message : string).

(** A user handler: the identity of the function and its body. *)
Record EventHandler := { h_id : nat; h_body : list cmd }.

(** An event map, as the sequence of its entries in the order of
    [Object.keys]. *)
Definition EventMap := list (string * EventHandler).

(** An event object.  [e_key] and [e_button] are [Undefined] on events
    that have no such field. *)
Record Event := {
  e_type : string;
  e_target : node;
  e_key : Js.value;
  e_button : Js.value;
  e_bubbles : bool;
  e_detail : option Action
}.

Definition withTarget (target : node) (e : Event) : Event :=
  {| e_type := e_type e; e_target := target; e_key := e_key e;
     e_button := e_button e; e_bubbles := e_bubbles e; e_detail := e_detail e |}.

(** The closure [eventHandler] that [addHandlerForEvent] creates: what it
    captures, and [w_id], the identity of the function object. *)
Record Wrapper := {
  w_id : nat;
  w_handler : EventHandler;
  w_meta : list string;
  w_delegates : list string;
  w_target : node
}.

Inductive Listener :=
| LWrapper (w : Wrapper)
| LProxy.

(** Listeners are compared by reference. *)
Definition sameListener (a b : Listener) : bool :=
  match a, b with
  | LProxy, LProxy => true
  | LWrapper x, LWrapper y => Nat.eqb (w_id x) (w_id y)
  | _, _ => false
  end.

Definition isWrapper (tl : string * Listener) : bool :=
  match snd tl with LWrapper _ => true | LProxy => false end.

(** The value of a node's [setAttribute] or [removeAttribute] property:
    the native method, or a function installed by [prePatchDisabledBug],
    which closes over [target], over the [meta] object (by identity) and
    over the property it replaced ([meta.orig], written once). *)
Inductive AttrFn :=
| Native
| Patched (target : node) (meta : nat) (orig : AttrFn).

Inductive LogEntry :=
| LogLifecycle (target : node) (type : string)
| LogInvoke (current : node) (type : string) (h : EventHandler)
| LogHost (detail : option Action)
| LogUncaught (e : Js.exn).

(** A [Map<string, EventHandler[]>], in insertion order. *)
Abbreviation WrapperMap := (list (string * list Wrapper)).

Record State := {
  root : option node;
  async : bool;
  targetHandlers : gmap node WrapperMap;
  nextId : nat;
  listeners : gmap node (list (string * Listener));
  attributes : gmap node (gmap string string);
  setAttributeOf : gmap node AttrFn;
  removeAttributeOf : gmap node AttrFn;
  metaDisabled : gmap nat bool;
  timers : list (node * Action);
  log : list LogEntry
}.

Definition initialState : State :=
  {| root := None; async := true; targetHandlers := ∅; nextId := 0;
     listeners := ∅; attributes := ∅; setAttributeOf := ∅;
     removeAttributeOf := ∅; metaDisabled := ∅; timers := []; log := [] |}.

Definition set_root v st :=
  {| root := v; async := async st; targetHandlers := targetHandlers st;
     nextId := nextId st; listeners := listeners st;
     attributes := attributes st; setAttributeOf := setAttributeOf st;
     removeAttributeOf := removeAttributeOf st;
     metaDisabled := metaDisabled st; timers := timers st; log := log st |}.
Definition set_async v st :=
  {| root := root st; async := v; targetHandlers := targetHandlers st;
     nextId := nextId st; listeners := listeners st;
     attributes := attributes st; setAttributeOf := setAttributeOf st;
     removeAttributeOf := removeAttributeOf st;
     metaDisabled := metaDisabled st; timers := timers st; log := log st |}.
Definition set_targetHandlers v st :=
  {| root := root st; async := async st; targetHandlers := v;
     nextId := nextId st; listeners := listeners st;
     attributes := attributes st; setAttributeOf := setAttributeOf st;
     removeAttributeOf := removeAttributeOf st;
     metaDisabled := metaDisabled st; timers := timers st; log := log st |}.
Definition set_nextId v st :=
  {| root := root st; async := async st; targetHandlers := targetHandlers st;
     nextId := v; listeners := listeners st;
     attributes := attributes st; setAttributeOf := setAttributeOf st;
     removeAttributeOf := removeAttributeOf st;
     metaDisabled := metaDisabled st; timers := timers st; log := log st |}.
Definition set_listeners v st :=
  {| root := root st; async := async st; targetHandlers := targetHandlers st;
     nextId := nextId st; listeners := v;
     attributes := attributes st; setAttributeOf := setAttributeOf st;
     removeAttributeOf := removeAttributeOf st;
     metaDisabled := metaDisabled st; timers := timers st; log := log st |}.
Definition set_attributes v st :=
  {| root := root st; async := async st; targetHandlers := targetHandlers st;
     nextId := nextId st; listeners := listeners st;
     attributes := v; setAttributeOf := setAttributeOf st;
     removeAttributeOf := removeAttributeOf st;
     metaDisabled := metaDisabled st; timers := timers st; log := log st |}.
Definition set_setAttributeOf v st :=
  {| root := root st; async := async st; targetHandlers := targetHandlers st;
     nextId := nextId st; listeners := listeners st;
     attributes := attributes st; setAttributeOf := v;
     removeAttributeOf := removeAttributeOf st;
     metaDisabled := metaDisabled st; timers := timers st; log := log st |}.
Definition set_removeAttributeOf v st :=
  {| root := root st; async := async st; targetHandlers := targetHandlers st;
     nextId := nextId st; listeners := listeners st;
     attributes := attributes st; setAttributeOf := setAttributeOf st;
     removeAttributeOf := v;
     metaDisabled := metaDisabled st; timers := timers st; log := log st |}.
Definition set_metaDisabled v st :=
  {| root := root st; async := async st; targetHandlers := targetHandlers st;
     nextId := nextId st; listeners := listeners st;
     attributes := attributes st; setAttributeOf := setAttributeOf st;
     removeAttributeOf := removeAttributeOf st;
     metaDisabled := v; timers := timers st; log := log st |}.
Definition set_timers v st :=
  {| root := root st; async := async st; targetHandlers := targetHandlers st;
     nextId := nextId st; listeners := listeners st;
     attributes := attributes st; setAttributeOf := setAttributeOf st;
     removeAttributeOf := removeAttributeOf st;
     metaDisabled := metaDisabled st; timers := v; log := log st |}.
Definition set_log v st :=
  {| root := root st; async := async st; targetHandlers := targetHandlers st;
     nextId := nextId st; listeners := listeners st;
     attributes := attributes st; setAttributeOf := setAttributeOf st;
     removeAttributeOf := removeAttributeOf st;
     metaDisabled := metaDisabled st; timers := timers st; log := v |}.

Definition logEntry (x : LogEntry) (st : State) : State :=
  set_log (log st ++ [x]) st.

(** ** Computations that change the state and may throw *)

Inductive Completion (A : Type) :=
| Normal (a : A)
| Throw (e : Js.exn).
Arguments Normal {A} a.
Arguments Throw {A} e.

Definition M (A : Type) : Type := State -> State * Completion A.

Definition ret {A} (a : A) : M A := fun st => (st, Normal a).
Definition throwError {A} (message : string) : M A :=
  fun st => (st, Throw (Js.Error message)).
Definition throw {A} (e : Js.exn) : M A := fun st => (st, Throw e).
Definition bind {A B} (c : M A) (k : A -> M B) : M B :=
  fun st => match c st with
            | (st', Normal a) => k a st'
            | (st', Throw e) => (st', Throw e)
            end.
Definition lift (f : State -> State) : M unit := fun st => (f st, Normal tt).

Notation "'let*' x := c 'in' k" := (bind c (fun x => k))
  (at level 10, x name, c at level 100, k at level 200).
Notation "c ;;; k" := (bind c (fun _ => k))
  (at level 100, k at level 200, right associativity).

(** [arr.forEach(f)]: stops at the first exception. *)
Fixpoint forEach {A} (f : A -> M unit) (arr : list A) : M unit :=
  match arr with
  | [] => ret tt
  | x :: rest => f x ;;; forEach f rest
  end.

(** ** The DOM platform *)

Module Dom.

Definition listenersOf (st : State) (n : node) : list (string * Listener) :=
  default [] (listeners st !! n).

Definition isEntry (type : string) (l : Listener) (tl : string * Listener) : bool :=
  String.eqb (fst tl) type && sameListener (snd tl) l.

(** [n.addEventListener(type, l)]: no effect when [l] is already there
    for [type], appended otherwise. *)
Definition addEventListener (n : node) (type : string) (l : Listener)
    (st : State) : State :=
  let ls := listenersOf st n in
  if existsb (isEntry type l) ls then st
  else set_listeners (<[n := ls ++ [(type, l)]]> (listeners st)) st.

(** [n.removeEventListener(type, l)]; the list holds [l] at most once
    for [type]. *)
Definition removeEventListener (n : node) (type : string) (l : Listener)
    (st : State) : State :=
  set_listeners
    (<[n := List.filter (fun tl => negb (isEntry type l tl)) (listenersOf st n)]>
       (listeners st)) st.

(** The attributes of a node, by name.  The nodes are HTML elements:
    [hasAttribute], [setAttribute] and [removeAttribute] put the name
    they are given in ASCII lower case first, and the names in the map
    are in lower case. *)
Definition attributesOf (st : State) (n : node) : gmap string string :=
  default ∅ (attributes st !! n).

Definition asciiLowerCaseChar (c : ascii) : ascii :=
  let k := nat_of_ascii c in
  if (65 <=? k) && (k <=? 90) then ascii_of_nat (k + 32) else c.

Fixpoint asciiLowerCase (s : string) : string :=
  match s with
  | EmptyString => EmptyString
  | String c r => String (asciiLowerCaseChar c) (asciiLowerCase r)
  end.

Definition hasAttribute (n : node) (attr : string) (st : State) : bool :=
  bool_decide (is_Some (attributesOf st n !! asciiLowerCase attr)).

Definition nativeSetAttribute (n : node) (attr value : string)
    (st : State) : State :=
  set_attributes
    (<[n := <[asciiLowerCase attr := value]> (attributesOf st n)]> (attributes st)) st.

Definition nativeRemoveAttribute (n : node) (attr : string)
    (st : State) : State :=
  set_attributes
    (<[n := delete (asciiLowerCase attr) (attributesOf st n)]> (attributes st)) st.

End Dom.

(** ** The engine *)

(** The flags of an event object that [stopPropagation] and
    [stopImmediatePropagation] set. *)
Record Flags := { stopped : bool; stoppedImmediate : bool }.
Definition noFlags : Flags := {| stopped := false; stoppedImmediate := false |}.

(** A call of a user handler by the platform: the node whose listener ran
    and the listener. *)
Definition Invocation : Type := node * Wrapper.

(** What a call of [eventHandler] did: returned early, threw before it
    reached the user handler, or called the user handler, which returned
    or threw. *)
Inductive Outcome :=
| Skipped
| Threw (x : Js.exn)
| Invoked (fl : Flags) (thrown : option Js.exn).

Definition syncDispatchMessage : string :=
  "Event actions must be dispatched synchronously.".
Definition delegationMessage : string :=
  "amara:* events must not be delegated".

(** The two errors of the engine, under the names the specification
    gives them. *)
Definition SynchronousDispatchRequired : Js.exn := Js.Error syncDispatchMessage.
Definition DelegationNotAllowed : Js.exn := Js.Error delegationMessage.

Definition slotOf (m : gmap node AttrFn) (n : node) : AttrFn :=
  default Native (m !! n).

(** A call [f.call(this, attr, value)] of a value of the [setAttribute]
    property. *)
Fixpoint callSetAttribute (f : AttrFn) (this : node) (attr value : string)
    (st : State) : State :=
  match f with
  | Native => Dom.nativeSetAttribute this attr value st
  | Patched target meta orig =>
      if negb (String.eqb attr "disabled")
      then callSetAttribute orig target attr value st
      else set_metaDisabled (<[meta := true]> (metaDisabled st)) st
  end.

Fixpoint callRemoveAttribute (f : AttrFn) (this : node) (attr : string)
    (st : State) : State :=
  match f with
  | Native => Dom.nativeRemoveAttribute this attr st
  | Patched target meta orig =>
      if negb (String.eqb attr "disabled")
      then callRemoveAttribute orig target attr st
      else set_metaDisabled (<[meta := false]> (metaDisabled st)) st
  end.

(** [n.setAttribute(attr, value)] and [n.removeAttribute(attr)]: a call
    of whatever the property holds. *)
Definition setAttribute (n : node) (attr value : string) (st : State) : State :=
  callSetAttribute (slotOf (setAttributeOf st) n) n attr value st.
Definition removeAttribute (n : node) (attr : string) (st : State) : State :=
  callRemoveAttribute (slotOf (removeAttributeOf st) n) n attr st.

(** [meta.orig], and the identity of the [meta] object. *)
Record Meta := { m_id : nat; m_origSet : AttrFn; m_origRemove : AttrFn }.

Definition freshMeta (st : State) : nat :=
  S (map_fold (fun k _ acc => Nat.max k acc) 0 (metaDisabled st)).

Definition prePatchDisabledBug (target : node) (st : State) : State * Meta :=
  let meta := {| m_id := freshMeta st;
                 m_origSet := slotOf (setAttributeOf st) target;
                 m_origRemove := slotOf (removeAttributeOf st) target |} in
  let st := set_metaDisabled
              (<[m_id meta := Dom.hasAttribute target "disabled" st]> (metaDisabled st)) st in
  let st := removeAttribute target "disabled" st in
  let st := set_setAttributeOf
              (<[target := Patched target (m_id meta) (m_origSet meta)]> (setAttributeOf st)) st in
  let st := set_removeAttributeOf
              (<[target := Patched target (m_id meta) (m_origRemove meta)]> (removeAttributeOf st)) st in
  (st, meta).

Definition postPatchDisabledBug (target : node) (meta : Meta) (st : State) : State :=
  let st := set_setAttributeOf (<[target := m_origSet meta]> (setAttributeOf st)) st in
  let st := set_removeAttributeOf (<[target := m_origRemove meta]> (removeAttributeOf st)) st in
  if default false (metaDisabled st !! m_id meta)
  then setAttribute target "disabled" EmptyString st
  else removeAttribute target "disabled" st.

Definition proxyToAmara (e : Event) (st : State) : State :=
  if negb (Js.startsWith lifecyclePrefix (e_type e))
  then logEntry (LogHost (e_detail e)) st
  else st.

(** [e[metaEventMap[e.type]]]: the field named by the table, [undefined]
    when the table has no entry for the type. *)
Definition comparisonField (e : Event) : Js.value :=
  match metaEventMap (e_type e) with
  | Some field =>
      if String.eqb field "key" then e_key e
      else if String.eqb field "button" then e_button e
      else Js.Undefined
  | None => Js.Undefined
  end.

(** The [metaValue] of [eventHandler]. *)
Definition metaValue (e : Event) : string :=
  fixMeta (Js.toLowerCase (Js.String_ (comparisonField e))).

Section Engine.

(** [el.matches(selector)], and the chain of the proper ancestors of a
    node, nearest first: both belong to the platform.  [el.matches]
    throws a [SyntaxError] on a string that is not a valid selector,
    which is [None] here. *)
Variable elementMatches : node -> string -> option bool.
Variable ancestors : node -> list node.

Definition matches (this : node) (selector : string) : Js.exn + bool :=
  match elementMatches this selector with
  | Some b => inr b
  | None => inl Js.SyntaxError
  end.

(** [delegates.some(matches, this)]: the selectors are tried in order,
    up to the first that matches or throws. *)
Fixpoint delegatesSome (delegates : list string) (this : node) : Js.exn + bool :=
  match delegates with
  | [] => inr false
  | selector :: rest =>
      match matches this selector with
      | inl x => inl x
      | inr true => inr true
      | inr false => delegatesSome rest this
      end
  end.

(** The first test of [eventHandler],
    [delegates.length && !delegates.some(matches, e.target)]: it throws,
    or tells whether the wrapper goes on. *)
Definition delegationCheck (delegates : list string) (e : Event) : Js.exn + bool :=
  if Nat.eqb (List.length delegates) 0 then inr true
  else delegatesSome delegates (e_target e).

(** The two early returns of [eventHandler]: whether the wrapper gets
    past each of them. *)
Definition delegationPasses (delegates : list string) (e : Event) : bool :=
  match delegationCheck delegates e with
  | inr true => true
  | _ => false
  end.
Definition metaPasses (meta : list string) (e : Event) : bool :=
  negb (negb (Nat.eqb (List.length meta) 0)
        && negb (Js.includes (Js.toLowerCase (metaValue e)) meta)).

(** Whether the two filters of [eventHandler] let [e] through. *)
Definition fires (e : Event) (w : Wrapper) : bool :=
  delegationPasses (w_delegates w) e && metaPasses (w_meta w) e.

Definition passing (e : Event) (ws : list Wrapper) : list Wrapper :=
  List.filter (fires e) ws.

Section Handlers.

(** What [e.dispatch] does when a handler calls it: the dispatcher of
    the binding's target, at the depth of the call stack reached. *)
Variable dispatch : node -> Action -> EventInit -> M (list Invocation).

(** The body of a user handler bound on [target], statement by
    statement; an exception ends it. *)
Fixpoint runBody (target : node) (body : list cmd) (fl : Flags)
    (st : State) : State * (Flags * option Js.exn) :=
  match body with
  | [] => (st, (fl, None))
  | c :: rest =>
      match c with
      | Dispatch action options =>
          match dispatch target action (default defaultInit options) st with
          | (st', Normal _) => runBody target rest fl st'
          | (st', Throw e) => (st', (fl, Some e))
          end
      | SetAttribute n attr value =>
          runBody target rest fl (setAttribute n attr value st)
      | RemoveAttribute n attr =>
          runBody target rest fl (removeAttribute n attr st)
      | StopPropagation =>
          runBody target rest
            {| stopped := true; stoppedImmediate := stoppedImmediate fl |} st
      | StopImmediatePropagation =>
          runBody target rest
            {| stopped := true; stoppedImmediate := true |} st
      | SetTimeoutDispatch action =>
          runBody target rest fl (set_timers (timers st ++ [(target, action)]) st)
      | ThrowError message => (st, (fl, Some (Js.Error message)))
      end
  end.

(** The closure [eventHandler], called by the platform with [this]
    the node [current]. *)
Definition eventHandler (w : Wrapper) (current : node) (e : Event)
    (fl : Flags) (st : State) : State * Outcome :=
  match delegationCheck (w_delegates w) e with
  | inl x => (st, Threw x)
  | inr false => (st, Skipped)
  | inr true =>
      if negb (metaPasses (w_meta w) e) then (st, Skipped)
      else
        let st := set_async false st in
        let st := logEntry (LogInvoke current (e_type e) (w_handler w)) st in
        match runBody (w_target w) (h_body (w_handler w)) fl st with
        | (st, (fl', None)) => (set_async true st, Invoked fl' None)
        | (st, (fl', Some x)) => (st, Invoked fl' (Some x))
        end
  end.

(** The platform reports an exception of a listener and goes on. *)
Definition report (thrown : option Js.exn) (st : State) : State :=
  match thrown with
  | Some x => logEntry (LogUncaught x) st
  | None => st
  end.

(** The listeners of one node, from the copy of its list taken when
    the event arrived; a listener removed meanwhile is not called. *)
Fixpoint invokeListeners (current : node) (e : Event)
    (snapshot : list Listener) (fl : Flags) (st : State)
    : State * (Flags * list Invocation) :=
  match snapshot with
  | [] => (st, (fl, []))
  | l :: rest =>
      if stoppedImmediate fl then (st, (fl, []))
      else if negb (existsb (Dom.isEntry (e_type e) l) (Dom.listenersOf st current))
      then invokeListeners current e rest fl st
      else match l with
           | LProxy => invokeListeners current e rest fl (proxyToAmara e st)
           | LWrapper w =>
               match eventHandler w current e fl st with
               | (st', Skipped) => invokeListeners current e rest fl st'
               | (st', Threw x) =>
                   invokeListeners current e rest fl (report (Some x) st')
               | (st', Invoked fl' thrown) =>
                   let '(st'', (fl'', inv)) :=
                     invokeListeners current e rest fl' (report thrown st') in
                   (st'', (fl'', (current, w) :: inv))
               end
           end
  end.

Definition listenersFor (st : State) (n : node) (type : string) : list Listener :=
  map snd (List.filter (fun tl => String.eqb (fst tl) type) (Dom.listenersOf st n)).

Fixpoint propagate (e : Event) (path : list node) (fl : Flags)
    (st : State) : State * list Invocation :=
  match path with
  | [] => (st, [])
  | n :: rest =>
      if stopped fl then (st, [])
      else
        let '(st', (fl', inv)) :=
          invokeListeners n e (listenersFor st n (e_type e)) fl st in
        let '(st'', inv') := propagate e rest fl' st' in
        (st'', inv ++ inv')
  end.

(** [target.dispatchEvent(e)]: the target, then its ancestors when
    the event bubbles.  The result lists the handlers called, in
    order. *)
Definition dispatchEvent (target : node) (e : Event) (st : State)
    : State * list Invocation :=
  propagate (withTarget target e)
    (target :: if e_bubbles e then ancestors target else []) noFlags st.

Definition customEvent (action : Action) (eventInitOptions : EventInit) : Event :=
  {| e_type := a_type action; e_target := 0;
     e_key := Js.Undefined; e_button := Js.Undefined;
     e_bubbles := bubbles eventInitOptions; e_detail := Some action |}.

(** [getTargetDispatcher(target)] *)
Definition dispatchActionAsEvent (target : node) (action : Action)
    (eventInitOptions : EventInit) : M (list Invocation) :=
  fun st =>
    if async st then throwError syncDispatchMessage st
    else
      let ce := customEvent action eventInitOptions in
      let st := match root st with
                | Some r => Dom.addEventListener r (a_type action) LProxy st
                | None => st
                end in
      let '(st, meta) := prePatchDisabledBug target st in
      let '(st, result) := dispatchEvent target ce st in
      let st := postPatchDisabledBug target meta st in
      let st := match root st with
                | Some r => Dom.removeEventListener r (a_type action) LProxy st
                | None => st
                end in
      (st, Normal result).

End Handlers.

(** The dispatcher a handler reaches with [n] frames of nesting left:
    a call that no longer fits on the stack raises [RangeError]. *)
Fixpoint dispatcherAt (n : nat) : node -> Action -> EventInit -> M (list Invocation) :=
  match n with
  | 0 => fun _ _ _ => throw Js.RangeError
  | S k => dispatchActionAsEvent (dispatcherAt k)
  end.

(** The depth of nesting the call stack allows. *)
Variable stack : nat.

Definition getTargetDispatcher (target : node) : Action -> EventInit -> M (list Invocation) :=
  dispatchActionAsEvent (dispatcherAt stack) target.

(** [syncDispatch(getTargetDispatcher(target), action)] *)
Definition syncDispatch (target : node) (action : Action) : M (list Invocation) :=
  fun st =>
    let st := logEntry (LogLifecycle target (a_type action)) st in
    let st := set_async false st in
    match getTargetDispatcher target action emptyInit st with
    | (st, Normal r) => (set_async true st, Normal r)
    | (st, Throw x) => (st, Throw x)
    end.

Definition removeListener (target : node) (type : string) (handler : Wrapper)
    (st : State) : State :=
  Dom.removeEventListener target type (LWrapper handler) st.

Definition removeListeners (this : node) (entry : string * list Wrapper)
    (st : State) : State :=
  fold_left (fun st h => removeListener this (fst entry) h st) (snd entry) st.

(** [Map.prototype.get] and the [push] that follows a [get] or a [set]
    of a new array. *)
Fixpoint mapGet (m : WrapperMap) (k : string) : option (list Wrapper) :=
  match m with
  | [] => None
  | (k', v) :: rest => if String.eqb k' k then Some v else mapGet rest k
  end.

Fixpoint mapPush (m : WrapperMap) (k : string) (w : Wrapper) : WrapperMap :=
  match m with
  | [] => [(k, [w])]
  | (k', v) :: rest =>
      if String.eqb k' k then (k', v ++ [w]) :: rest
      else (k', v) :: mapPush rest k w
  end.

(** The context object of an apply-call: [target] and [added]. *)
Record Context := { c_target : node; c_added : bool }.

Definition addHandlerForEvent (this : Context) (entry : string * EventHandler)
    : M Context :=
  let (eventAndSelectors, handler) := entry in
  match rxEventAndSelectors eventAndSelectors with
  | None => throw Js.TypeError
  | Some (eventMeta, selectors) =>
      let delegates := parseDelegates selectors in
      match parseEventMeta eventMeta with
      | [] => throw Js.TypeError
      | event :: meta =>
          if Js.startsWith lifecyclePrefix event
             && negb (Nat.eqb (List.length delegates) 0)
          then throwError delegationMessage
          else fun st =>
            let target := c_target this in
            let '(added, mapEventHandlers) :=
              match targetHandlers st !! target with
              | Some m => (c_added this, m)
              | None => (true, [])
              end in
            let eventHandler :=
              {| w_id := nextId st; w_handler := handler; w_meta := meta;
                 w_delegates := delegates; w_target := target |} in
            let st := set_nextId (S (nextId st)) st in
            let st := Dom.addEventListener target event (LWrapper eventHandler) st in
            let st := set_targetHandlers
                        (<[target := mapPush mapEventHandlers event eventHandler]>
                           (targetHandlers st)) st in
            (st, Normal {| c_target := target; c_added := added |})
      end
  end.

(** [Object.keys(map).forEach(addHandlerForEvent, this)] *)
Fixpoint applyEventMap (this : Context) (map : EventMap) : M Context :=
  match map with
  | [] => ret this
  | entry :: rest =>
      let* this := addHandlerForEvent this entry in applyEventMap this rest
  end.

Fixpoint applyEventMaps (this : Context) (results : list EventMap) : M Context :=
  match results with
  | [] => ret this
  | map :: rest =>
      let* this := applyEventMap this map in applyEventMaps this rest
  end.

(** The lifecycle events an apply-call fired, with the handlers each
    of them called. *)
Record Applied := {
  firedAdd : option (list Invocation);
  firedApply : list Invocation
}.

Definition addAction : Action := {| a_type := "amara:add"; a_payload := Js.Undefined |}.
Definition applyAction : Action := {| a_type := "amara:apply"; a_payload := Js.Undefined |}.
Definition removeAction : Action := {| a_type := "amara:remove"; a_payload := Js.Undefined |}.

Definition clearTarget (target : node) (st : State) : State :=
  match targetHandlers st !! target with
  | Some mapEventHandlers =>
      let st := fold_left (fun st entry => removeListeners target entry st)
                  mapEventHandlers st in
      set_targetHandlers (<[target := []]> (targetHandlers st)) st
  | None => st
  end.

Definition applyEventsToTarget (results : list EventMap) (target : node)
    : M Applied :=
  let context := {| c_target := target; c_added := false |} in
  lift (clearTarget target) ;;;
  let* context := applyEventMaps context results in
  let* added := (if c_added context
                 then let* r := syncDispatch target addAction in ret (Some r)
                 else ret None) in
  let* applied := syncDispatch target applyAction in
  ret {| firedAdd := added; firedApply := applied |}.

Definition removeTargetHandlers (target : node) : M (option (list Invocation)) :=
  fun st =>
    match targetHandlers st !! target with
    | Some mapHandlerWrapper =>
        match syncDispatch target removeAction st with
        | (st, Normal r) =>
            let st := set_targetHandlers (delete target (targetHandlers st)) st in
            let st := fold_left (fun st entry => removeListeners target entry st)
                        mapHandlerWrapper st in
            (st, Normal (Some r))
        | (st, Throw x) => (st, Throw x)
        end
    | None => (st, Normal None)
    end.

(** The actions of the host that the engine reacts to; any other
    action falls through the [switch]. *)
Inductive HostAction :=
| Bootstrap (target : node)
| ApplyTargetResults (events : option (list (node * list EventMap)))
| TargetsRemoved (payload : list node)
| OtherAction (type : string).

Definition handler (action : HostAction) : M unit :=
  match action with
  | Bootstrap target => lift (set_root (Some target))
  | ApplyTargetResults (Some events) =>
      forEach (fun p => applyEventsToTarget (snd p) (fst p) ;;; ret tt) events
  | ApplyTargetResults None => ret tt
  | TargetsRemoved payload =>
      forEach (fun target => removeTargetHandlers target ;;; ret tt) payload
  | OtherAction _ => ret tt
  end.

(** ** What happens to a page over time *)

(** The host hands an action to the engine, the platform fires an
    event on a node, or a timer set by a handler comes due. *)
Inductive Step :=
| Host (action : HostAction)
| Fire (target : node) (e : Event)
| Timer.

Definition fireEvent (target : node) (e : Event) (st : State)
    : State * list Invocation :=
  dispatchEvent (dispatcherAt stack) target e st.

Definition runTimer (st : State) : State :=
  match timers st with
  | [] => st
  | (target, action) :: rest =>
      let st := set_timers rest st in
      match getTargetDispatcher target action defaultInit st with
      | (st, Normal _) => st
      | (st, Throw x) => logEntry (LogUncaught x) st
      end
  end.

Definition step (s : Step) (st : State) : State :=
  match s with
  | Host action => fst (handler action st)
  | Fire target e => fst (fireEvent target e st)
  | Timer => runTimer st
  end.

Definition run (steps : list Step) (st : State) : State :=
  fold_left (fun st s => step s st) steps st.

End Engine.

(** * Vocabulary of the properties *)

(** ** The parts of the state that only the engine's own actions change *)

Definition wrappersOf (st : State) (n : node) : list (string * Listener) :=
  List.filter isWrapper (Dom.listenersOf st n).

Definition lifecycleOf (l : list LogEntry) : list (node * string) :=
  flat_map (fun x => match x with
                     | LogLifecycle target type => [(target, type)]
                     | _ => []
                     end) l.

(** [frame st st']: going from [st] to [st'] left the root, the registry,
    the wrappers listening on every node and the lifecycle events fired
    so far as they were. *)
Definition frame (st st' : State) : Prop :=
  root st' = root st /\
  targetHandlers st' = targetHandlers st /\
  nextId st' = nextId st /\
  (forall n, wrappersOf st' n = wrappersOf st n) /\
  lifecycleOf (log st') = lifecycleOf (log st).

Definition framed {A} (c : M A) : Prop := forall st, frame st (fst (c st)).

Definition wrappersIn (ls : list Listener) : list Wrapper :=
  flat_map (fun l => match l with LWrapper w => [w] | LProxy => [] end) ls.

Definition stopsImmediate (w : Wrapper) : Prop :=
  In StopImmediatePropagation (h_body (w_handler w)).

(** The handlers the platform calls out of the list [expected] of those
    whose filters let the event pass: all of them, or those up to one
    that stops immediate propagation. *)
Definition firedOf (expected fired : list Wrapper) : Prop :=
  exists post, expected = fired ++ post /\
    (post <> [] -> exists pre w, fired = pre ++ [w] /\ stopsImmediate w).

(** The wrappers that listen on [n] for [type], in the order in which the
    platform calls them. *)
Definition wrappersFor (st : State) (n : node) (type : string) : list Wrapper :=
  wrappersIn (listenersFor st n type).

(** ** Parsed keys and bindings *)

(** The parsed form of a key (the [ParsedSpec] of the data model), when
    the key has one. *)
Definition parseSpec (key : string) : option ParsedSpec :=
  match rxEventAndSelectors key with
  | None => None
  | Some (eventMeta, selectors) =>
      match parseEventMeta eventMeta with
      | [] => None
      | event :: meta =>
          Some {| eventType := event; metaTokens := meta;
                  delegationSelectors := parseDelegates selectors |}
      end
  end.

(** A lifecycle event with a selector of delegation. *)
Definition delegatedLifecycle (p : ParsedSpec) : bool :=
  Js.startsWith lifecyclePrefix (eventType p)
  && negb (Nat.eqb (List.length (delegationSelectors p)) 0).

(** A binding: a parsed key with its handler. *)
Record Binding := { b_spec : ParsedSpec; b_handler : EventHandler }.

Definition bindingOf (type : string) (w : Wrapper) : Binding :=
  {| b_spec := {| eventType := type; metaTokens := w_meta w;
                  delegationSelectors := w_delegates w |};
     b_handler := w_handler w |}.

(** What binding one entry of an event map comes to: an exception, or a
    binding. *)
Definition bindEntry (entry : string * EventHandler) : Js.exn + Binding :=
  match parseSpec (fst entry) with
  | None => inl Js.TypeError
  | Some p =>
      if delegatedLifecycle p then inl DelegationNotAllowed
      else inr {| b_spec := p; b_handler := snd entry |}
  end.

(** The bindings made from a sequence of entries, which ends at the first
    exception. *)
Fixpoint bindEntries (entries : list (string * EventHandler))
    : list Binding * option Js.exn :=
  match entries with
  | [] => ([], None)
  | x :: rest =>
      match bindEntry x with
      | inl e => ([], Some e)
      | inr b => let (bs, r) := bindEntries rest in (b :: bs, r)
      end
  end.

Definition forType (type : string) (bs : list Binding) : list Binding :=
  List.filter (fun b => String.eqb (eventType (b_spec b)) type) bs.

(** The registry entry of a node, and its handlers for one event type;
    empty when there is none. *)
Definition regOf (st : State) (n : node) : WrapperMap :=
  default [] (targetHandlers st !! n).
Definition regList (st : State) (n : node) (type : string) : list Wrapper :=
  default [] (mapGet (regOf st n) type).

Definition friendlyNames : list string :=
  ["space"; "left"; "middle"; "wheel"; "right"].
Definition isFriendly (s : string) : bool := existsb (String.eqb s) friendlyNames.

(** The invariant of the engine between two steps: on every node the
    wrappers that listen are those of the registry, type by type and in
    the same order; identities handed out so far are below [nextId]; and
    no wrapper listens under a friendly name. *)
Definition wf (st : State) : Prop :=
  (forall n type, wrappersFor st n type = regList st n type) /\
  (forall n type w, In (type, LWrapper w) (wrappersOf st n) ->
     w_id w < nextId st /\ isFriendly type = false).

(** Binding leaves the log and the root alone and touches one node. *)
Definition bindsOnly (target : node) (st st' : State) : Prop :=
  log st' = log st /\ root st' = root st /\ async st' = async st /\
  nextId st <= nextId st' /\
  forall n, n <> target ->
    Dom.listenersOf st' n = Dom.listenersOf st n /\
    targetHandlers st' !! n = targetHandlers st !! n.


(** Whether an apply-call that makes the bindings [bs] sets [added]. *)
Definition addedAfter (added : bool) (st : State) (target : node)
    (bs : list Binding) : bool :=
  match bs with
  | [] => added
  | _ :: _ => match targetHandlers st !! target with
              | Some _ => added
              | None => true
              end
  end.


(** [mapEventHandlers.forEach(removeListeners, target)] *)
Definition detach (target : node) (m : WrapperMap) (st : State) : State :=
  fold_left (fun st entry => removeListeners target entry st) m st.

(** Listeners of one node were removed and nothing else happened. *)
Definition detaches (target : node) (st st' : State) : Prop :=
  log st' = log st /\ root st' = root st /\ async st' = async st /\
  nextId st' = nextId st /\ targetHandlers st' = targetHandlers st /\
  (forall n, n <> target -> Dom.listenersOf st' n = Dom.listenersOf st n).


(** The event object that the engine builds for a lifecycle action and
    fires on [target]. *)
Definition lifecycleEvent (target : node) (action : Action) : Event :=
  withTarget target
    {| e_type := a_type action; e_target := 0;
       e_key := Js.Undefined; e_button := Js.Undefined;
       e_bubbles := false; e_detail := Some action |}.


(** ** The bindings of the most recent apply-call

    What the specification says the registry holds after a sequence of
    steps: for each node, the bindings made by the most recent apply-call
    for it, and none once the node is reported removed.  An apply-call
    that throws has made the bindings of the entries before the one that
    threw, and ends the host action. *)

Definition SpecRegistry : Type := node -> list Binding.

Definition specSet (reg : SpecRegistry) (n : node) (bs : list Binding) : SpecRegistry :=
  fun m => if Nat.eqb m n then bs else reg m.

Fixpoint specApply (events : list (node * list EventMap)) (reg : SpecRegistry)
    : SpecRegistry :=
  match events with
  | [] => reg
  | (target, results) :: rest =>
      let reg' := specSet reg target (fst (bindEntries (concat results))) in
      match snd (bindEntries (concat results)) with
      | Some _ => reg'
      | None => specApply rest reg'
      end
  end.

Definition specStep (s : Step) (reg : SpecRegistry) : SpecRegistry :=
  match s with
  | Host (ApplyTargetResults (Some events)) => specApply events reg
  | Host (TargetsRemoved payload) =>
      fold_left (fun reg target => specSet reg target []) payload reg
  | _ => reg
  end.

Definition currentBindings (steps : list Step) : SpecRegistry :=
  fold_left (fun reg s => specStep s reg) steps (fun _ => []).

(** The registry and the specification's view of it agree. *)
Definition agrees (reg : SpecRegistry) (st : State) : Prop :=
  forall n type, map (bindingOf type) (regList st n type) = forType type (reg n).


(** ** Strings without white space *)

Fixpoint noSpace (s : string) : bool :=
  match s with
  | EmptyString => true
  | String c r => negb (Js.isWhiteSpace c) && noSpace r
  end.


(** ** The filters in the words of the specification *)

(** The friendly names, each with the value it stands for. *)
Definition friendlyTable : list (string * string) :=
  [("space", " "); ("left", "0"); ("middle", "1"); ("wheel", "1"); ("right", "2")].

(** A declared meta token, canonicalized: lower-cased, then replaced by
    its value when it is a friendly name. *)
Definition declaredToken (token : string) : string :=
  let t := Js.toLowerCase token in
  match List.find (fun p => String.eqb (fst p) t) friendlyTable with
  | Some p => snd p
  | None => t
  end.

(** The field that is compared: [key] for the three keyboard events,
    [button] for the two mouse events, and none for any other event. *)
Definition comparedField (e : Event) : Js.value :=
  if Js.includes (e_type e) ["keydown"; "keyup"; "keypress"] then e_key e
  else if Js.includes (e_type e) ["mousedown"; "mouseup"] then e_button e
  else Js.Undefined.

(** The fix-up for browsers that name the delete key [Del]. *)
Definition fixedUp (s : string) : string :=
  if String.eqb s "del" then "delete" else s.

(** The live value in the order in which the specification lists the
    three operations: made a string, fixed up, lower-cased. *)
Definition claimedValue (v : Js.value) : string :=
  Js.toLowerCase (fixedUp (Js.String_ v)).

(** The live value with the fix-up last: made a string, lower-cased,
    fixed up. *)
Definition liveValue (v : Js.value) : string :=
  fixedUp (Js.toLowerCase (Js.String_ v)).

(** The selectors a key declares: the pieces of its selector text
    between commas, trimmed, the empty ones dropped. *)
Definition declaredSelectors (selectors : string) : list string :=
  List.filter (fun s => negb (String.eqb s EmptyString)) (map trim (Js.split "," selectors)).

(** The selector [s] decides for the node [this] with the verdict [v]:
    the platform parses every selector before it and [this] matches
    none of them, and [v] is what the platform says of [s] itself. *)
Definition decidedBy (elementMatches : node -> string -> option bool) (this : node)
    (delegates : list string) (s : string) (v : option bool) : Prop :=
  exists pre post, delegates = pre ++ s :: post /\
    (forall p, In p pre -> elementMatches this p = Some false) /\
    elementMatches this s = v.

(** ** Handlers called in order *)





(** ** A small page, for examples

    Node 0 is the body, node 1 a list in it, node 2 an item of the list. *)

(** The selectors the page can parse.  A closing parenthesis needs an
    opening one before it; a parenthesis left open at the end of the
    text is closed there, as the parser of the platform does. *)
Fixpoint parses (s : string) (depth : nat) : bool :=
  match s with
  | EmptyString => true
  | String c r =>
      if Ascii.eqb c "(" then parses r (S depth)
      else if Ascii.eqb c ")" then
        match depth with
        | 0 => false
        | S d => parses r d
        end
      else parses r depth
  end.

(** Of the selectors used in the examples, the list matches [.list] and
    the item [.item]. *)
Definition pageMatches (n : node) (selector : string) : option bool :=
  if parses selector 0
  then Some match n with
            | 1 => String.eqb selector ".list"
            | 2 => String.eqb selector ".item"
            | _ => false
            end
  else None.

Definition pageAncestors (n : node) : list node :=
  match n with
  | 1 => [0]
  | 2 => [1; 0]
  | _ => []
  end.

Definition pageStack : nat := 8.

Definition handlerOf (id : nat) (body : list cmd) : EventHandler :=
  {| h_id := id; h_body := body |}.

Definition actionOf (type : string) : Action :=
  {| a_type := type; a_payload := Js.Undefined |}.

(** An event as the platform makes it for a user's gesture. *)
Definition nativeEvent (type : string) (key button : Js.value) : Event :=
  {| e_type := type; e_target := 0; e_key := key; e_button := button;
     e_bubbles := true; e_detail := None |}.

Definition applyTo (target : node) (results : list EventMap) : Step :=
  Host (ApplyTargetResults (Some [(target, results)])).

Definition pageRun (steps : list Step) : State :=
  run pageMatches pageAncestors pageStack steps initialState.



(** ** Counting lifecycle events *)

(** How often the engine has fired the lifecycle event [type] on
    [target] so far. *)
Definition firedCount (target : node) (type : string) (st : State) : nat :=
  List.length
    (List.filter (fun x => Nat.eqb (fst x) target && String.eqb (snd x) type)
       (lifecycleOf (log st))).

Definition isHost (s : Step) : bool :=
  match s with Host _ => true | _ => false end.

(** What a step adds to the number of [amara:remove] events fired on
    [target], according to the specification: one when the host reports
    the target removed while it has a registry entry, nothing otherwise. *)
Definition removalsOf (target : node) (s : Step) (st : State) : nat :=
  match s with
  | Host (TargetsRemoved payload) =>
      if bool_decide (is_Some (targetHandlers st !! target))
         && existsb (Nat.eqb target) payload
      then 1 else 0
  | _ => 0
  end.


(** ** Scenarios on the small page *)

Definition clickEvent : Event := nativeEvent "click" Js.Undefined Js.Undefined.

(** Two maps for the same event type. *)
Definition inOrderMaps : list EventMap :=
  [[("click", handlerOf 1 [])]; [("click", handlerOf 2 [])]].


(** A selector with a comma inside parentheses, before an ordinary
    one. *)
Definition cutSelectorMaps : list EventMap :=
  [[("click :is(a, b), .item", handlerOf 1 [])]].


(** The entry of a target is created by an apply-call that throws; a
    second apply-call brings a handler for amara:add. *)
Definition unannouncedSteps : list Step :=
  [applyTo 1 [[("click", handlerOf 1 []); ("amara:add .x", handlerOf 2 [])]];
   applyTo 1 [[("amara:add", handlerOf 3 [])]]].

(** A target is bound, reported removed, and bound again. *)
Definition reboundSteps : list Step :=
  [applyTo 1 [[("click", handlerOf 1 [])]];
   Host (TargetsRemoved [1]);
   applyTo 1 [[("click", handlerOf 1 [])]]].

(** A click handler that dispatches two actions, one after the other;
    both actions have a handler on the same target. *)
Definition twoDispatchMaps : list EventMap :=
  [[("click", handlerOf 1 [Dispatch (actionOf "a") None; Dispatch (actionOf "b") None]);
    ("a", handlerOf 2 []);
    ("b", handlerOf 3 [])]].

(** A click handler that defers a dispatch and then throws; the
    deferred action has a handler on the same target. *)
Definition throwingMaps : list EventMap :=
  [[("click", handlerOf 1 [SetTimeoutDispatch (actionOf "late"); ThrowError "boom"]);
    ("late", handlerOf 2 [])]].

(** The same handler without the throw. *)
Definition deferringMaps : list EventMap :=
  [[("click", handlerOf 1 [SetTimeoutDispatch (actionOf "late")]);
    ("late", handlerOf 2 [])]].

(** A page whose node 1 is a disabled form element. *)
Definition disabledPage : State :=
  Dom.nativeSetAttribute 1 "disabled" EmptyString initialState.

(** An [amara:apply] handler with the given body. *)
Definition onApplyMaps (body : list cmd) : list EventMap :=
  [[("amara:apply", handlerOf 1 body)]].

Definition keyContext : Context := {| c_target := 1; c_added := false |}.

(** A lifecycle key with a selector, between two ordinary keys. *)
Definition delegatedAddMaps : list EventMap :=
  [[("click", handlerOf 1 []); ("amara:add .item", handlerOf 2 []); ("keydown", handlerOf 3 [])]].


(** The handlers an event fired on [origin] calls, each with the node
    whose listener ran. *)
Definition fireOn (st : State) (origin : node) (e : Event) : list (node * nat) :=
  map (fun i => (fst i, h_id (w_handler (snd i))))
    (snd (fireEvent pageMatches pageAncestors pageStack origin e st)).

Definition keyEvent (type key : string) : Event :=
  nativeEvent type (Js.Str key) Js.Undefined.
Definition mouseEvent (type : string) (button : Z) : Event :=
  nativeEvent type Js.Undefined (Js.Number button).

(** Handlers bound on the list, direct and delegated. *)
Definition delegationMaps : list EventMap :=
  [[("click", handlerOf 1 []);
    ("click .item", handlerOf 2 []);
    ("click a, .item", handlerOf 3 []);
    ("click .list", handlerOf 4 []);
    ("click .dne", handlerOf 5 [])]].

Definition keyboardMaps : list EventMap :=
  [[("keydown", handlerOf 1 []);
    ("keydown.leftarrow", handlerOf 2 []);
    ("keydown.rightarrow.leftarrow", handlerOf 3 []);
    ("keydown.rightarrow", handlerOf 4 []);
    ("keydown.space", handlerOf 5 []);
    ("keydown.delete", handlerOf 6 []);
    ("keydown.del", handlerOf 7 [])]].

Definition mouseMaps : list EventMap :=
  [[("mousedown", handlerOf 1 []);
    ("mousedown.left", handlerOf 2 []);
    ("mousedown.right.left", handlerOf 3 []);
    ("mousedown.right", handlerOf 4 []);
    ("mousedown.wheel", handlerOf 5 [])]].


(** ** The disabled attribute across a dispatch *)

Definition attributeOf (st : State) (n : node) (attr : string) : option string :=
  Dom.attributesOf st n !! attr.

(** A handler that neither dispatches nor throws. *)
Definition noDispatch (body : list cmd) : bool :=
  forallb (fun c => match c with
                    | Dispatch _ _ | ThrowError _ => false
                    | _ => true
                    end) body.

(** The disabled state of [target] after a statement of a handler, [d]
    being the state before it, as the functions installed on [target]
    record it: they compare the name with [disabled] as it is written,
    so that a statement counts when it spells the name exactly so. *)
Definition asksDisabled (target : node) (c : cmd) (d : bool) : bool :=
  match c with
  | SetAttribute n attr _ =>
      if Nat.eqb n target && String.eqb attr "disabled" then true else d
  | RemoveAttribute n attr =>
      if Nat.eqb n target && String.eqb attr "disabled" then false else d
  | _ => d
  end.

Definition lastDisabled (target : node) (body : list cmd) (d : bool) : bool :=
  fold_left (fun d c => asksDisabled target c d) body d.

(** The statements of a handler that touch attributes, applied with the
    native methods. *)
Definition nativeCmd (c : cmd) (st : State) : State :=
  match c with
  | SetAttribute n attr value => Dom.nativeSetAttribute n attr value st
  | RemoveAttribute n attr => Dom.nativeRemoveAttribute n attr st
  | _ => st
  end.

Definition nativeRun (body : list cmd) (st : State) : State :=
  fold_left (fun st c => nativeCmd c st) body st.

(** The statements the handlers called by a dispatch have run, when
    none of them threw. *)
Definition executed (inv : list Invocation) : list cmd :=
  flat_map (fun i => h_body (w_handler (snd i))) inv.

(** The state of affairs while the dispatch of an action on [target]
    is under way and no other dispatch is: the two methods of [target]
    are the functions installed for the object [m], every other node has
    the native ones, [m] records the disabled state [d], and apart from
    the disabled attribute of [target] the attributes are those of [sh]. *)
Definition patched (target : node) (m : nat) (L : gmap node (list (string * Listener)))
    (st sh : State) (d : bool) : Prop :=
  listeners st = L /\
  (forall n, n <> target ->
     slotOf (setAttributeOf st) n = Native /\ slotOf (removeAttributeOf st) n = Native) /\
  slotOf (setAttributeOf st) target = Patched target m Native /\
  slotOf (removeAttributeOf st) target = Patched target m Native /\
  metaDisabled st !! m = Some d /\
  (forall n attr, (n = target /\ attr = "disabled") \/
                  attributeOf st n attr = attributeOf sh n attr).


(** ** Vocabulary of the further properties *)

(** ** Shapes of strings *)

Fixpoint allSpace (s : string) : bool :=
  match s with
  | EmptyString => true
  | String c r => Js.isWhiteSpace c && allSpace r
  end.

Fixpoint noLineTerminator (s : string) : bool :=
  match s with
  | EmptyString => true
  | String c r => negb (Js.isLineTerminator c) && noLineTerminator r
  end.

(** Whether a string starts with white space. *)
Definition startsWithSpace (s : string) : bool :=
  match s with
  | EmptyString => false
  | String c _ => Js.isWhiteSpace c
  end.

(** A string of blanks and commas only. *)
Fixpoint blankOrComma (s : string) : bool :=
  match s with
  | EmptyString => true
  | String c r => (Js.isWhiteSpace c || Ascii.eqb c ",") && blankOrComma r
  end.

(** ** Dispatching *)

(** Every call of a dispatcher is refused in [st]. *)
Definition rejectsDispatch (elementMatches : node -> string -> option bool)
    (ancestors : node -> list node) (st : State) : Prop :=
  forall dispatch target action options,
    dispatchActionAsEvent elementMatches ancestors dispatch target action options st
    = (st, Throw SynchronousDispatchRequired).

(** The nodes an event made from [options] visits when it is fired on
    [target]. *)
Definition pathOf (ancestors : node -> list node) (target : node)
    (options : EventInit) : list node :=
  target :: if bubbles options then ancestors target else [].

(** ** The proxy and the host *)

(** No node has the proxy among its listeners. *)
Definition noProxy (st : State) : Prop :=
  forall n type, ~ In (type, LProxy) (Dom.listenersOf st n).

(** Going from [st] to [st'] has registered the proxy nowhere. *)
Definition fewerProxies (st st' : State) : Prop :=
  forall n type, In (type, LProxy) (Dom.listenersOf st' n) ->
                 In (type, LProxy) (Dom.listenersOf st n).

(** What the host has been handed so far. *)
Definition hostLog (l : list LogEntry) : list (option Action) :=
  flat_map (fun x => match x with LogHost d => [d] | _ => [] end) l.

(** The detail of an event made from an action that is not a lifecycle
    action. *)
Definition hostable (d : option Action) : Prop :=
  exists a, d = Some a /\ Js.startsWith lifecyclePrefix (a_type a) = false.

Definition hostOK (st : State) : Prop :=
  forall d, In d (hostLog (log st)) -> hostable d.

(** An event made by a dispatcher: its detail is the action, its type
    the type of the action. *)
Definition custom (e : Event) : Prop :=
  exists a, e_detail e = Some a /\ a_type a = e_type e.

(** [quiet st st']: the proxy was registered nowhere, and the host was
    handed nothing but actions that are not lifecycle actions. *)
Definition quiet (st st' : State) : Prop :=
  fewerProxies st st' /\ (hostOK st -> hostOK st').

(** A handler that neither dispatches nor stops the propagation of the
    event. *)
Definition calm (body : list cmd) : bool :=
  forallb (fun c => match c with
                    | Dispatch _ _ | StopPropagation | StopImmediatePropagation => false
                    | _ => true
                    end) body.

(** Whether the root is among the nodes an event made from [options]
    visits when it is fired on [target]. *)
Definition reachesRoot (ancestors : node -> list node) (st : State) (target : node)
    (options : EventInit) : bool :=
  match root st with
  | Some r => existsb (Nat.eqb r) (pathOf ancestors target options)
  | None => false
  end.

(** What the host is handed when [action] is dispatched on [target]. *)
Definition forwarded (ancestors : node -> list node) (st : State) (target : node)
    (action : Action) (options : EventInit) : list (option Action) :=
  if negb (Js.startsWith lifecyclePrefix (a_type action))
     && reachesRoot ancestors st target options
  then [Some action] else [].

(** What the proxies among the listeners [ls] hand to the host when the
    event [e] arrives. *)
Definition proxied (e : Event) (ls : list Listener) : list (option Action) :=
  flat_map (fun l => match l with
                     | LProxy => if negb (Js.startsWith lifecyclePrefix (e_type e))
                                 then [e_detail e] else []
                     | LWrapper _ => []
                     end) ls.

(** A click on an item makes its handler dispatch an action, and the
    delegated handler of that action on the list dispatches the same
    action again. *)
Definition relaySteps : list Step :=
  [Host (Bootstrap 0);
   applyTo 1 [[("a .item", handlerOf 1 [Dispatch (actionOf "a") None])]];
   applyTo 2 [[("click", handlerOf 2 [Dispatch (actionOf "a") None])]];
   Fire 2 clickEvent].

(** ** Where bindings come from *)

(** Every binding the specification's registry holds was made from an
    entry of an event map. *)
Definition fromEntries (reg : SpecRegistry) : Prop :=
  forall n b, In b (reg n) -> exists entry, bindEntry entry = inr b.


(** ** Wrappers and their nodes *)

(** Every wrapper listens on the node it was bound for. *)
Definition boundWhereTheyListen (st : State) : Prop :=
  forall n type w, In (type, LWrapper w) (Dom.listenersOf st n) -> w_target w = n.


(** * Properties *)

Lemma frame_refl st : frame st st.
Proof. repeat split. Qed.

Lemma frame_trans st1 st2 st3 : frame st1 st2 -> frame st2 st3 -> frame st1 st3.
Proof.
  intros (a1 & a2 & a3 & a4 & a5) (b1 & b2 & b3 & b4 & b5).
  repeat split; congruence.
Qed.

Lemma lifecycleOf_app l1 l2 :
  lifecycleOf (l1 ++ l2) = lifecycleOf l1 ++ lifecycleOf l2.
Proof. unfold lifecycleOf. apply flat_map_app. Qed.

Lemma listenersOf_insert st n x n' :
  Dom.listenersOf (set_listeners (<[n := x]> (listeners st)) st) n'
  = if decide (n = n') then x else Dom.listenersOf st n'.
Proof.
  unfold Dom.listenersOf. simpl. rewrite lookup_insert.
  destruct (decide (n = n')); reflexivity.
Qed.

Lemma frame_set_async b st : frame st (set_async b st).
Proof. repeat split. Qed.

Lemma frame_set_timers t st : frame st (set_timers t st).
Proof. repeat split. Qed.

Lemma frame_set_metaDisabled m st : frame st (set_metaDisabled m st).
Proof. repeat split. Qed.

Lemma frame_set_attributes m st : frame st (set_attributes m st).
Proof. repeat split. Qed.

Lemma frame_set_setAttributeOf m st : frame st (set_setAttributeOf m st).
Proof. repeat split. Qed.

Lemma frame_set_removeAttributeOf m st : frame st (set_removeAttributeOf m st).
Proof. repeat split. Qed.

Lemma frame_logEntry x st :
  (forall target type, x <> LogLifecycle target type) -> frame st (logEntry x st).
Proof.
  intros Hx. repeat split. simpl. rewrite lifecycleOf_app.
  destruct x; simpl; try apply app_nil_r. exfalso. eapply Hx. reflexivity.
Qed.

Lemma frame_callSetAttribute f this attr value st :
  frame st (callSetAttribute f this attr value st).
Proof.
  revert this. induction f as [|target meta orig IH]; intros this; simpl.
  - apply frame_set_attributes.
  - destruct (negb _); [apply IH | apply frame_set_metaDisabled].
Qed.

Lemma frame_callRemoveAttribute f this attr st :
  frame st (callRemoveAttribute f this attr st).
Proof.
  revert this. induction f as [|target meta orig IH]; intros this; simpl.
  - apply frame_set_attributes.
  - destruct (negb _); [apply IH | apply frame_set_metaDisabled].
Qed.

Lemma frame_setAttribute n attr value st : frame st (setAttribute n attr value st).
Proof. apply frame_callSetAttribute. Qed.

Lemma frame_removeAttribute n attr st : frame st (removeAttribute n attr st).
Proof. apply frame_callRemoveAttribute. Qed.

Lemma frame_prePatchDisabledBug target st :
  frame st (fst (prePatchDisabledBug target st)).
Proof.
  unfold prePatchDisabledBug. cbn [fst].
  eapply frame_trans; [|apply frame_set_removeAttributeOf].
  eapply frame_trans; [|apply frame_set_setAttributeOf].
  eapply frame_trans; [|apply frame_removeAttribute].
  apply frame_set_metaDisabled.
Qed.

Lemma frame_postPatchDisabledBug target meta st :
  frame st (postPatchDisabledBug target meta st).
Proof.
  unfold postPatchDisabledBug.
  destruct (default false _).
  - eapply frame_trans; [|apply frame_setAttribute].
    eapply frame_trans; [apply frame_set_setAttributeOf|apply frame_set_removeAttributeOf].
  - eapply frame_trans; [|apply frame_removeAttribute].
    eapply frame_trans; [apply frame_set_setAttributeOf|apply frame_set_removeAttributeOf].
Qed.

Lemma frame_proxyToAmara e st : frame st (proxyToAmara e st).
Proof.
  unfold proxyToAmara. destruct (negb _); [|apply frame_refl].
  apply frame_logEntry. discriminate.
Qed.

Lemma frame_addProxy r type st : frame st (Dom.addEventListener r type LProxy st).
Proof.
  unfold Dom.addEventListener. destruct (existsb _ _); [apply frame_refl|].
  split; [reflexivity|]. split; [reflexivity|]. split; [reflexivity|].
  split; [|reflexivity].
  intros n. unfold wrappersOf. rewrite listenersOf_insert.
  destruct (decide (r = n)) as [->|]; [|reflexivity].
  rewrite List.filter_app. simpl. apply app_nil_r.
Qed.

Lemma frame_removeProxy r type st : frame st (Dom.removeEventListener r type LProxy st).
Proof.
  unfold Dom.removeEventListener.
  split; [reflexivity|]. split; [reflexivity|]. split; [reflexivity|].
  split; [|reflexivity].
  intros n. unfold wrappersOf. rewrite listenersOf_insert.
  destruct (decide (r = n)) as [->|]; [|reflexivity].
  induction (Dom.listenersOf st n) as [|[t l] ls IH]; [reflexivity|].
  destruct l as [w|]; cbn; unfold Dom.isEntry; cbn.
  - rewrite andb_false_r. cbn. f_equal. apply IH.
  - rewrite andb_true_r. destruct (String.eqb t type); cbn; apply IH.
Qed.

Lemma registered_wrappersOf type w st n :
  existsb (Dom.isEntry type (LWrapper w)) (Dom.listenersOf st n)
  = existsb (Dom.isEntry type (LWrapper w)) (wrappersOf st n).
Proof.
  unfold wrappersOf. induction (Dom.listenersOf st n) as [|[t l] ls IH]; [reflexivity|].
  destruct l as [w'|]; cbn; unfold Dom.isEntry at 1; cbn.
  - unfold Dom.isEntry at 2. cbn. rewrite IH. reflexivity.
  - rewrite andb_false_r. cbn. apply IH.
Qed.

Section HandlerProperties.

Variable elementMatches : node -> string -> option bool.

Section WithDispatch.

Variable dispatch : node -> Action -> EventInit -> M (list Invocation).
Hypothesis dispatch_framed : forall target action options,
  framed (dispatch target action options).

Lemma runBody_spec target body : forall fl st st' fl' x,
  runBody dispatch target body fl st = (st', (fl', x)) ->
  frame st st' /\
  (stoppedImmediate fl' = true ->
   stoppedImmediate fl = true \/ In StopImmediatePropagation body).
Proof using dispatch_framed.
  induction body as [|c rest IH]; intros fl st st' fl' x H; simpl in H.
  - inversion H; subst. split; [apply frame_refl | auto].
  - destruct c as [action options|n attr value|n attr| | |action|message].
    + pose proof (dispatch_framed target action (default defaultInit options) st) as Hf.
      destruct (dispatch target action (default defaultInit options) st) as [st1 [r|x1]].
      * apply IH in H. destruct H as [H1 H2]. split.
        -- eapply frame_trans; eauto.
        -- intros Hs. destruct (H2 Hs); [left|right; right]; assumption.
      * inversion H; subst. split; [exact Hf | auto].
    + apply IH in H. destruct H as [H1 H2]. split.
      * eapply frame_trans; [apply frame_setAttribute | eassumption].
      * intros Hs. destruct (H2 Hs); [left|right; right]; assumption.
    + apply IH in H. destruct H as [H1 H2]. split.
      * eapply frame_trans; [apply frame_removeAttribute | eassumption].
      * intros Hs. destruct (H2 Hs); [left|right; right]; assumption.
    + apply IH in H. destruct H as [H1 H2]. split; [assumption|].
      intros Hs. destruct (H2 Hs); [left|right; right]; assumption.
    + apply IH in H. destruct H as [H1 H2]. split; [assumption|].
      intros Hs. right. left. reflexivity.
    + apply IH in H. destruct H as [H1 H2]. split.
      * eapply frame_trans; [apply frame_set_timers | eassumption].
      * intros Hs. destruct (H2 Hs); [left|right; right]; assumption.
    + inversion H; subst. split; [apply frame_refl | auto].
Qed.

Lemma delegationPasses_check delegates e :
  delegationPasses elementMatches delegates e = true
  <-> delegationCheck elementMatches delegates e = inr true.
Proof.
  unfold delegationPasses.
  destruct (delegationCheck elementMatches delegates e) as [x|[|]];
    split; congruence.
Qed.

(** A wrapper one of whose filters stops the event returns early, or
    throws on a selector, and leaves the state alone. *)
Lemma eventHandler_skipped w current e fl st :
  fires elementMatches e w = false ->
  eventHandler elementMatches dispatch w current e fl st = (st, Skipped) \/
  exists x, eventHandler elementMatches dispatch w current e fl st = (st, Threw x).
Proof.
  unfold fires, eventHandler, delegationPasses. intros H.
  destruct (delegationCheck elementMatches (w_delegates w) e) as [x|[|]]; simpl in *.
  - right. exists x. reflexivity.
  - rewrite H. left. reflexivity.
  - left. reflexivity.
Qed.

Lemma eventHandler_invoked w current e fl st :
  fires elementMatches e w = true ->
  exists st' fl' x,
    eventHandler elementMatches dispatch w current e fl st = (st', Invoked fl' x) /\
    frame st st' /\
    (stoppedImmediate fl' = true -> stoppedImmediate fl = true \/ stopsImmediate w).
Proof using dispatch_framed.
  unfold fires, eventHandler. intros H. apply andb_prop in H. destruct H as [H1 H2].
  apply delegationPasses_check in H1. rewrite H1, H2. simpl.
  destruct (runBody dispatch (w_target w) (h_body (w_handler w)) fl
              (logEntry (LogInvoke current (e_type e) (w_handler w)) (set_async false st)))
    as [st1 [fl1 x1]] eqn:E.
  apply runBody_spec in E. destruct E as [E1 E2].
  assert (frame st st1) as Hf.
  { eapply frame_trans; [|exact E1].
    eapply frame_trans; [apply frame_set_async|].
    apply frame_logEntry. discriminate. }
  destruct x1 as [x1|].
  - exists st1, fl1, (Some x1). split; [reflexivity|]. split; [exact Hf|exact E2].
  - exists (set_async true st1), fl1, None. split; [reflexivity|]. split; [|exact E2].
    eapply frame_trans; [exact Hf | apply frame_set_async].
Qed.

Lemma frame_report x st : frame st (report x st).
Proof.
  destruct x; [|apply frame_refl]. apply frame_logEntry. discriminate.
Qed.

Lemma invokeListeners_spec current e snapshot : forall fl st st' fl' inv,
  (forall w, In (LWrapper w) snapshot ->
     existsb (Dom.isEntry (e_type e) (LWrapper w)) (wrappersOf st current) = true) ->
  invokeListeners elementMatches dispatch current e snapshot fl st = (st', (fl', inv)) ->
  frame st st' /\
  exists fired, inv = map (pair current) fired /\
    if stoppedImmediate fl then fired = [] /\ fl' = fl
    else exists post,
           passing elementMatches e (wrappersIn snapshot) = fired ++ post /\
           (stoppedImmediate fl' = false -> post = []) /\
           (stoppedImmediate fl' = true ->
            exists pre w, fired = pre ++ [w] /\ stopsImmediate w).
Proof using dispatch_framed.
  induction snapshot as [|l rest IH]; intros fl st st' fl' inv Hreg H; simpl in H.
  - inversion H; subst. split; [apply frame_refl|]. exists []. split; [reflexivity|].
    destruct (stoppedImmediate _) eqn:Es; [auto|].
    exists []. repeat split; auto. intros; congruence.
  - destruct (stoppedImmediate fl) eqn:Es.
    { inversion H; subst. split; [apply frame_refl|]. exists []. auto. }
    assert (forall st1, frame st st1 -> forall w, In (LWrapper w) rest ->
              existsb (Dom.isEntry (e_type e) (LWrapper w)) (wrappersOf st1 current) = true)
      as Hrest.
    { intros st1 (_ & _ & _ & Hw & _) w Hin. rewrite Hw. apply Hreg. right. exact Hin. }
    destruct l as [w|].
    + rewrite registered_wrappersOf, (Hreg w (or_introl eq_refl)) in H. simpl in H.
      destruct (fires elementMatches e w) eqn:Ef.
      * destruct (eventHandler_invoked w current e fl st Ef) as (st1 & fl1 & x1 & E1 & Hf1 & Hs1).
        rewrite E1 in H.
        destruct (invokeListeners elementMatches dispatch current e rest fl1 (report x1 st1))
          as [st2 [fl2 inv2]] eqn:E2.
        inversion H; subst. clear H.
        assert (frame st (report x1 st1)) as Hf2
          by (eapply frame_trans; [exact Hf1 | apply frame_report]).
        apply IH in E2; [|apply Hrest; exact Hf2].
        destruct E2 as [Hf3 (fired & -> & Hfired)]. split.
        { eapply frame_trans; eassumption. }
        exists (w :: fired). split; [reflexivity|].
        simpl. unfold passing in *. simpl. rewrite Ef.
        destruct (stoppedImmediate fl1) eqn:Es1.
        -- destruct Hfired as [-> ->].
           exists (List.filter (fires elementMatches e) (wrappersIn rest)). repeat split.
           ++ intros; congruence.
           ++ intros _. exists [], w. split; [reflexivity|].
              destruct (Hs1 eq_refl); [congruence | assumption].
        -- destruct Hfired as (post & Hp & Hp1 & Hp2).
           exists post. rewrite Hp. repeat split; auto.
           intros Hs. destruct (Hp2 Hs) as (pre & w' & -> & Hw').
           exists (w :: pre), w'. auto.
      * destruct (eventHandler_skipped w current e fl st Ef) as [E1|[x E1]];
          rewrite E1 in H.
        -- apply IH in H; [|apply Hrest; apply frame_refl].
           destruct H as [Hf (fired & -> & Hfired)]. split; [exact Hf|].
           exists fired. split; [reflexivity|]. rewrite Es in Hfired.
           simpl. unfold passing in *. simpl. rewrite Ef. exact Hfired.
        -- apply IH in H; [|apply Hrest; apply (frame_report (Some x))].
           destruct H as [Hf (fired & -> & Hfired)]. split.
           { eapply frame_trans; [apply (frame_report (Some x)) | exact Hf]. }
           exists fired. split; [reflexivity|]. rewrite Es in Hfired.
           simpl. unfold passing in *. simpl. rewrite Ef. exact Hfired.
    + assert (forall st1, frame st st1 ->
                invokeListeners elementMatches dispatch current e rest fl st1 = (st', (fl', inv)) ->
                frame st st' /\
                exists fired, inv = map (pair current) fired /\
                  exists post,
                    passing elementMatches e (wrappersIn (LProxy :: rest)) = fired ++ post /\
                    (stoppedImmediate fl' = false -> post = []) /\
                    (stoppedImmediate fl' = true ->
                     exists pre w, fired = pre ++ [w] /\ stopsImmediate w)) as Hgo.
      { intros st1 Hf1 H1. apply IH in H1; [|apply Hrest; exact Hf1].
        destruct H1 as [Hf2 (fired & -> & Hfired)]. split.
        - eapply frame_trans; eassumption.
        - exists fired. split; [reflexivity|]. rewrite Es in Hfired. exact Hfired. }
      destruct (negb _).
      * apply (Hgo st); [apply frame_refl | exact H].
      * apply (Hgo (proxyToAmara e st)); [apply frame_proxyToAmara | exact H].
Qed.

(** Every handler that [invokeListeners] calls belongs to a listener
    of the copy of the list and passed its filters. *)
Lemma invokeListeners_sound current e snapshot : forall fl st st' fl' inv,
  invokeListeners elementMatches dispatch current e snapshot fl st = (st', (fl', inv)) ->
  forall i, In i inv ->
    fst i = current /\ In (LWrapper (snd i)) snapshot /\ fires elementMatches e (snd i) = true.
Proof.
  induction snapshot as [|l rest IH]; intros fl st st' fl' inv H i Hi; simpl in H.
  - inversion H; subst. destruct Hi.
  - destruct (stoppedImmediate fl); [inversion H; subst; destruct Hi|].
    destruct (negb _).
    { eapply IH in H; [|exact Hi]. destruct H as (? & ? & ?). simpl; tauto. }
    destruct l as [w|].
    + destruct (eventHandler elementMatches dispatch w current e fl st)
        as [st1 [|x|fl1 x1]] eqn:E1.
      { eapply IH in H; [|exact Hi]. destruct H as (? & ? & ?). simpl; tauto. }
      { eapply IH in H; [|exact Hi]. destruct H as (? & ? & ?). simpl; tauto. }
      assert (fires elementMatches e w = true) as Ef.
      { destruct (fires elementMatches e w) eqn:Ef; [reflexivity|].
        destruct (eventHandler_skipped w current e fl st Ef) as [E|[x E]];
          rewrite E in E1; discriminate. }
      destruct (invokeListeners elementMatches dispatch current e rest fl1 (report x1 st1))
        as [st2 [fl2 inv2]] eqn:E2.
      inversion H; subst. destruct Hi as [<-|Hi].
      * simpl. auto.
      * eapply IH in E2; [|exact Hi]. destruct E2 as (? & ? & ?). simpl; tauto.
    + eapply IH in H; [|exact Hi]. destruct H as (? & ? & ?). simpl; tauto.
Qed.

End WithDispatch.

End HandlerProperties.

Lemma wrappersFor_wrappersOf st n type :
  wrappersFor st n type
  = wrappersIn (map snd (List.filter (fun tl => String.eqb (fst tl) type) (wrappersOf st n))).
Proof.
  unfold wrappersFor, listenersFor, wrappersOf.
  induction (Dom.listenersOf st n) as [|[t l] ls IH]; [reflexivity|].
  destruct l as [w|]; cbn.
  - destruct (String.eqb t type); cbn; first [exact IH | f_equal; exact IH].
  - destruct (String.eqb t type); cbn; exact IH.
Qed.

Lemma wrappersFor_frame st st' n type :
  frame st st' -> wrappersFor st' n type = wrappersFor st n type.
Proof.
  intros (_ & _ & _ & Hw & _). rewrite !wrappersFor_wrappersOf, Hw. reflexivity.
Qed.

Lemma In_wrappersIn w ls : In w (wrappersIn ls) <-> In (LWrapper w) ls.
Proof.
  unfold wrappersIn. rewrite in_flat_map. split.
  - intros ([w'|] & H1 & H2); simpl in H2; [|tauto].
    destruct H2 as [->|[]]. exact H1.
  - intros H. exists (LWrapper w). simpl. auto.
Qed.

Lemma listenersFor_registered st n type w :
  In (LWrapper w) (listenersFor st n type) ->
  existsb (Dom.isEntry type (LWrapper w)) (wrappersOf st n) = true.
Proof.
  unfold listenersFor. rewrite in_map_iff. intros ([t l] & Hl & Hin). simpl in Hl. subst l.
  apply List.filter_In in Hin. destruct Hin as [Hin Ht]. simpl in Ht.
  apply existsb_exists. exists (t, LWrapper w). split.
  - unfold wrappersOf. apply List.filter_In. split; [exact Hin | reflexivity].
  - unfold Dom.isEntry. simpl. rewrite Ht, Nat.eqb_refl. reflexivity.
Qed.

Section DispatchProperties.

Variable elementMatches : node -> string -> option bool.
Variable ancestors : node -> list node.

Section WithDispatch.

Variable dispatch : node -> Action -> EventInit -> M (list Invocation).
Hypothesis dispatch_framed : forall target action options,
  framed (dispatch target action options).

Lemma propagate_spec e path : forall fl st st' inv,
  propagate elementMatches dispatch e path fl st = (st', inv) ->
  frame st st' /\
  forall i, In i inv ->
    In (fst i) path /\ In (snd i) (wrappersFor st (fst i) (e_type e)) /\
    fires elementMatches e (snd i) = true.
Proof using dispatch_framed.
  induction path as [|n rest IH]; intros fl st st' inv H; simpl in H.
  - inversion H; subst. split; [apply frame_refl|]. intros i [].
  - destruct (stopped fl).
    { inversion H; subst. split; [apply frame_refl|]. intros i []. }
    destruct (invokeListeners elementMatches dispatch n e (listenersFor st n (e_type e)) fl st)
      as [st1 [fl1 inv1]] eqn:E1.
    destruct (propagate elementMatches dispatch e rest fl1 st1) as [st2 inv2] eqn:E2.
    inversion H; subst. clear H.
    pose proof (invokeListeners_sound _ _ _ _ _ _ _ _ _ _ E1) as Hs1.
    apply invokeListeners_spec in E1;
      [|exact dispatch_framed | intros w; apply listenersFor_registered].
    destruct E1 as [Hf1 _].
    apply IH in E2. destruct E2 as [Hf2 Hs2]. split.
    + eapply frame_trans; eassumption.
    + intros i Hi. apply in_app_or in Hi. destruct Hi as [Hi|Hi].
      * destruct (Hs1 i Hi) as (Ha & Hb & Hc). rewrite Ha. simpl.
        split; [auto|]. split; [|exact Hc].
        apply In_wrappersIn. exact Hb.
      * destruct (Hs2 i Hi) as (Ha & Hb & Hc). simpl. split; [auto|].
        split; [|exact Hc]. rewrite <- (wrappersFor_frame st st1); assumption.
Qed.

Lemma propagate_head e n rest st st' inv :
  propagate elementMatches dispatch e (n :: rest) noFlags st = (st', inv) ->
  exists fired others,
    inv = map (pair n) fired ++ others /\
    firedOf (passing elementMatches e (wrappersFor st n (e_type e))) fired /\
    forall i, In i others -> In (fst i) rest.
Proof using dispatch_framed.
  intros H. simpl in H.
  destruct (invokeListeners elementMatches dispatch n e (listenersFor st n (e_type e)) noFlags st)
    as [st1 [fl1 inv1]] eqn:E1.
  destruct (propagate elementMatches dispatch e rest fl1 st1) as [st2 inv2] eqn:E2.
  inversion H; subst. clear H.
  apply invokeListeners_spec in E1;
    [|exact dispatch_framed | intros w; apply listenersFor_registered].
  destruct E1 as [_ (fired & -> & post & Hp & Hp1 & Hp2)].
  exists fired, inv2. split; [reflexivity|]. split.
  - exists post. split; [exact Hp|]. intros Hne.
    destruct (stoppedImmediate fl1) eqn:Es; [apply Hp2; reflexivity|].
    exfalso. apply Hne. apply Hp1. reflexivity.
  - intros i Hi. apply propagate_spec in E2. destruct E2 as [_ Hs]. apply Hs. exact Hi.
Qed.

Lemma dispatchEvent_frame target e st :
  frame st (fst (dispatchEvent elementMatches ancestors dispatch target e st)).
Proof using dispatch_framed.
  unfold dispatchEvent.
  destruct (propagate _ _ _ _ _ _) as [st' inv] eqn:E.
  apply propagate_spec in E. apply E.
Qed.

Lemma dispatchActionAsEvent_framed target action options :
  framed (dispatchActionAsEvent elementMatches ancestors dispatch target action options).
Proof using dispatch_framed.
  intros st. unfold dispatchActionAsEvent.
  destruct (async st); [apply frame_refl|].
  set (st1 := match root st with
              | Some r => Dom.addEventListener r (a_type action) LProxy st
              | None => st
              end).
  assert (frame st st1) as H1.
  { subst st1. destruct (root st); [apply frame_addProxy | apply frame_refl]. }
  pose proof (frame_prePatchDisabledBug target st1) as H2.
  destruct (prePatchDisabledBug target st1) as [st2 meta]. simpl in H2.
  pose proof (dispatchEvent_frame target (customEvent action options) st2) as H3.
  destruct (dispatchEvent _ _ _ _ _ _) as [st3 result]. simpl in H3.
  cbn [fst].
  eapply frame_trans; [exact H1|]. eapply frame_trans; [exact H2|].
  eapply frame_trans; [exact H3|].
  eapply frame_trans; [apply (frame_postPatchDisabledBug target meta)|].
  destruct (root (postPatchDisabledBug target meta st3));
    [apply frame_removeProxy | apply frame_refl].
Qed.

End WithDispatch.

Lemma dispatcherAt_framed n : forall target action options,
  framed (dispatcherAt elementMatches ancestors n target action options).
Proof.
  induction n as [|k IH]; intros target action options.
  - intros st. apply frame_refl.
  - simpl. apply dispatchActionAsEvent_framed. exact IH.
Qed.

Variable stack : nat.

Lemma getTargetDispatcher_framed target action options :
  framed (getTargetDispatcher elementMatches ancestors stack target action options).
Proof. apply dispatchActionAsEvent_framed. apply dispatcherAt_framed. Qed.

Lemma fireEvent_frame target e st :
  frame st (fst (fireEvent elementMatches ancestors stack target e st)).
Proof. apply dispatchEvent_frame. apply dispatcherAt_framed. Qed.

Lemma runTimer_frame st : frame st (runTimer elementMatches ancestors stack st).
Proof.
  unfold runTimer. destruct (timers st) as [|[target action] rest]; [apply frame_refl|].
  pose proof (getTargetDispatcher_framed target action defaultInit (set_timers rest st)) as H.
  destruct (getTargetDispatcher _ _ _ _ _ _ _) as [st1 [r|x]]; simpl in H.
  - eapply frame_trans; [apply frame_set_timers | exact H].
  - eapply frame_trans; [apply frame_set_timers|].
    eapply frame_trans; [exact H|]. apply frame_logEntry. discriminate.
Qed.

(** A lifecycle event: recorded once, fired on the target alone, and
    always completed. *)
Lemma syncDispatch_spec target action st :
  exists st' fired,
    syncDispatch elementMatches ancestors stack target action st
      = (st', Normal (map (pair target) fired)) /\
    frame (logEntry (LogLifecycle target (a_type action)) st) st' /\
    firedOf (passing elementMatches
               (withTarget target (customEvent action emptyInit))
               (wrappersFor st target (a_type action))) fired.
Proof.
  unfold syncDispatch, getTargetDispatcher, dispatchActionAsEvent.
  set (st0 := set_async false (logEntry (LogLifecycle target (a_type action)) st)).
  assert (frame (logEntry (LogLifecycle target (a_type action)) st) st0) as H0
    by apply frame_set_async.
  change (async st0) with false. cbv iota.
  set (st1 := match root st0 with
              | Some r => Dom.addEventListener r (a_type action) LProxy st0
              | None => st0
              end).
  assert (frame st0 st1) as H1.
  { subst st1. destruct (root st0); [apply frame_addProxy | apply frame_refl]. }
  pose proof (frame_prePatchDisabledBug target st1) as H2.
  destruct (prePatchDisabledBug target st1) as [st2 meta]. simpl in H2.
  unfold dispatchEvent. cbn [e_bubbles customEvent bubbles emptyInit].
  destruct (propagate elementMatches (dispatcherAt elementMatches ancestors stack)
              (withTarget target (customEvent action emptyInit)) [target] noFlags st2)
    as [st3 inv] eqn:E.
  pose proof (propagate_spec _ (dispatcherAt_framed stack) _ _ _ _ _ _ E) as [H3 _].
  apply propagate_head in E; [|exact (dispatcherAt_framed stack)].
  destruct E as (fired & others & -> & Hfired & Hothers).
  assert (others = []) as ->.
  { destruct others as [|i o]; [reflexivity|]. destruct (Hothers i (or_introl eq_refl)). }
  rewrite app_nil_r.
  eexists _, fired. split; [reflexivity|]. split.
  - eapply frame_trans; [exact H0|]. eapply frame_trans; [exact H1|].
    eapply frame_trans; [exact H2|]. eapply frame_trans; [exact H3|].
    eapply frame_trans; [apply (frame_postPatchDisabledBug target meta)|].
    eapply frame_trans; [|apply frame_set_async].
    destruct (root (postPatchDisabledBug target meta st3));
      [apply frame_removeProxy | apply frame_refl].
  - cbn [e_type withTarget customEvent] in Hfired.
    assert (frame (logEntry (LogLifecycle target (a_type action)) st) st2) as Hf
      by (eapply frame_trans; [exact H0|]; eapply frame_trans; eassumption).
    rewrite (wrappersFor_frame _ _ _ _ Hf) in Hfired.
    exact Hfired.
Qed.

End DispatchProperties.

(** ** The registry and the listeners *)

Lemma wf_frame st st' : wf st -> frame st st' -> wf st'.
Proof.
  intros [W1 W2] Hf. pose proof Hf as (_ & Hreg & Hid & Hw & _). split.
  - intros n type. rewrite (wrappersFor_frame _ _ _ _ Hf).
    unfold regList, regOf. rewrite Hreg. apply W1.
  - intros n type w Hin. rewrite Hw in Hin. rewrite Hid. apply W2 with (n := n). exact Hin.
Qed.

Lemma wf_initialState : wf initialState.
Proof.
  split.
  - intros n type. reflexivity.
  - intros n type w H. destruct H.
Qed.

Lemma mapGet_mapPush m k w type :
  mapGet (mapPush m k w) type
  = if String.eqb k type then Some (default [] (mapGet m k) ++ [w]) else mapGet m type.
Proof.
  induction m as [|[k' v] rest IH]; simpl.
  - destruct (String.eqb_spec k type) as [->|Hne]; [reflexivity|reflexivity].
  - destruct (String.eqb_spec k' k) as [->|Hne]; simpl.
    + destruct (String.eqb_spec k type) as [->|Hne']; [reflexivity|reflexivity].
    + rewrite IH. destruct (String.eqb_spec k type) as [->|Hne'].
      * destruct (String.eqb_spec k' type) as [->|_]; [congruence|reflexivity].
      * reflexivity.
Qed.

Lemma bindsOnly_refl target st : bindsOnly target st st.
Proof. repeat split; auto. Qed.

Lemma bindsOnly_trans target st1 st2 st3 :
  bindsOnly target st1 st2 -> bindsOnly target st2 st3 -> bindsOnly target st1 st3.
Proof.
  intros (a1 & a2 & a3 & a4 & a5) (b1 & b2 & b3 & b4 & b5).
  repeat split; try congruence; try lia.
  - destruct (a5 n H), (b5 n H). congruence.
  - destruct (a5 n H), (b5 n H). congruence.
Qed.

Lemma wrappersFor_app st st' n type t l :
  Dom.listenersOf st' n = Dom.listenersOf st n ++ [(t, l)] ->
  wrappersFor st' n type
  = wrappersFor st n type ++ (if String.eqb t type then wrappersIn [l] else []).
Proof.
  intros H. unfold wrappersFor, listenersFor. rewrite H, List.filter_app, map_app.
  unfold wrappersIn at 1. rewrite flat_map_app. f_equal.
  simpl. destruct (String.eqb t type); reflexivity.
Qed.

Lemma In_wrappersOf st n type w :
  In (type, LWrapper w) (wrappersOf st n) <-> In (type, LWrapper w) (Dom.listenersOf st n).
Proof.
  unfold wrappersOf. rewrite List.filter_In. unfold isWrapper. simpl. tauto.
Qed.

Lemma addHandlerForEvent_throw this entry st x :
  bindEntry entry = inl x -> addHandlerForEvent this entry st = (st, Throw x).
Proof.
  destruct entry as [key h]. unfold bindEntry, parseSpec, addHandlerForEvent. simpl.
  destruct (rxEventAndSelectors key) as [[eventMeta selectors]|]; [|intros [= <-]; reflexivity].
  destruct (parseEventMeta eventMeta) as [|event meta]; [intros [= <-]; reflexivity|].
  unfold delegatedLifecycle. simpl.
  destruct (Js.startsWith lifecyclePrefix event && _); [|discriminate].
  intros [= <-]. reflexivity.
Qed.

Lemma addHandlerForEvent_normal this entry st b :
  bindEntry entry = inr b -> wf st ->
  exists st' w,
    addHandlerForEvent this entry st
    = (st', Normal {| c_target := c_target this;
                      c_added := match targetHandlers st !! c_target this with
                                 | Some _ => c_added this
                                 | None => true
                                 end |}) /\
    bindingOf (eventType (b_spec b)) w = b /\
    w_id w = nextId st /\
    Dom.listenersOf st' (c_target this)
    = Dom.listenersOf st (c_target this) ++ [(eventType (b_spec b), LWrapper w)] /\
    targetHandlers st'
    = <[c_target this := mapPush (regOf st (c_target this)) (eventType (b_spec b)) w]>
        (targetHandlers st) /\
    nextId st' = S (nextId st) /\
    bindsOnly (c_target this) st st'.
Proof.
  destruct entry as [key h]. unfold bindEntry, parseSpec, addHandlerForEvent. simpl.
  destruct (rxEventAndSelectors key) as [[eventMeta selectors]|]; [|discriminate].
  destruct (parseEventMeta eventMeta) as [|event meta]; [discriminate|].
  unfold delegatedLifecycle. simpl.
  destruct (Js.startsWith lifecyclePrefix event && _); [discriminate|].
  intros [= <-] [W1 W2]. simpl.
  set (w := {| w_id := nextId st; w_handler := h; w_meta := meta;
               w_delegates := parseDelegates selectors; w_target := c_target this |}).
  assert (existsb (Dom.isEntry event (LWrapper w)) (Dom.listenersOf st (c_target this)) = false)
    as Hfresh.
  { apply not_true_is_false. intros Hex. apply existsb_exists in Hex.
    destruct Hex as ([t l] & Hin & He). unfold Dom.isEntry in He. simpl in He.
    apply andb_prop in He. destruct He as [_ He]. destruct l as [w'|]; [|discriminate].
    simpl in He. apply Nat.eqb_eq in He.
    apply In_wrappersOf in Hin. apply W2 in Hin. simpl in He. lia. }
  assert (Dom.listenersOf (set_nextId (S (nextId st)) st) (c_target this)
          = Dom.listenersOf st (c_target this)) as Hl by reflexivity.
  unfold Dom.addEventListener. rewrite Hl, Hfresh.
  destruct (targetHandlers st !! c_target this) as [m|] eqn:Em.
  - eexists _, w. split; [reflexivity|]. split; [reflexivity|]. split; [reflexivity|].
    split; [|split; [|split; [reflexivity|]]].
    + unfold Dom.listenersOf at 1. simpl. rewrite lookup_insert_eq. reflexivity.
    + simpl. unfold regOf. rewrite Em. reflexivity.
    + repeat split; simpl; auto.
      * unfold Dom.listenersOf at 1. simpl. rewrite lookup_insert_ne by auto. reflexivity.
      * rewrite lookup_insert_ne by auto. reflexivity.
  - eexists _, w. split; [reflexivity|]. split; [reflexivity|]. split; [reflexivity|].
    split; [|split; [|split; [reflexivity|]]].
    + unfold Dom.listenersOf at 1. simpl. rewrite lookup_insert_eq. reflexivity.
    + simpl. unfold regOf. rewrite Em. reflexivity.
    + repeat split; simpl; auto.
      * unfold Dom.listenersOf at 1. simpl. rewrite lookup_insert_ne by auto. reflexivity.
      * rewrite lookup_insert_ne by auto. reflexivity.
Qed.

Lemma isFriendly_asMeta x : isFriendly (asMeta x) = false.
Proof.
  unfold asMeta.
  destruct (String.eqb x "space") eqn:E1; [reflexivity|].
  destruct (String.eqb x "left") eqn:E2; [reflexivity|].
  destruct (String.eqb x "middle") eqn:E3; [reflexivity|].
  destruct (String.eqb x "wheel") eqn:E4; [reflexivity|].
  destruct (String.eqb x "right") eqn:E5; [reflexivity|].
  unfold isFriendly, friendlyNames. simpl. rewrite E1, E2, E3, E4, E5. reflexivity.
Qed.

Lemma bindEntry_not_friendly entry b :
  bindEntry entry = inr b -> isFriendly (eventType (b_spec b)) = false.
Proof.
  unfold bindEntry, parseSpec.
  destruct (rxEventAndSelectors (fst entry)) as [[eventMeta selectors]|]; [|discriminate].
  unfold parseEventMeta.
  destruct (map trimLower (Js.split "." eventMeta)) as [|x xs]; [discriminate|]. simpl.
  destruct (delegatedLifecycle _); [discriminate|].
  intros [= <-]. simpl. apply isFriendly_asMeta.
Qed.

Lemma wrappersFor_ext st st' n type :
  Dom.listenersOf st' n = Dom.listenersOf st n ->
  wrappersFor st' n type = wrappersFor st n type.
Proof. intros H. unfold wrappersFor, listenersFor. rewrite H. reflexivity. Qed.

Lemma wrappersOf_ext st st' n :
  Dom.listenersOf st' n = Dom.listenersOf st n -> wrappersOf st' n = wrappersOf st n.
Proof. intros H. unfold wrappersOf. rewrite H. reflexivity. Qed.

Lemma regList_ext st st' n type :
  targetHandlers st' !! n = targetHandlers st !! n ->
  regList st' n type = regList st n type.
Proof. intros H. unfold regList, regOf. rewrite H. reflexivity. Qed.

Lemma addHandlerForEvent_effect this entry st b :
  bindEntry entry = inr b -> wf st ->
  exists st' w,
    addHandlerForEvent this entry st
    = (st', Normal {| c_target := c_target this;
                      c_added := match targetHandlers st !! c_target this with
                                 | Some _ => c_added this
                                 | None => true
                                 end |}) /\
    wf st' /\
    bindsOnly (c_target this) st st' /\
    bindingOf (eventType (b_spec b)) w = b /\
    (forall type,
       regList st' (c_target this) type
       = regList st (c_target this) type
         ++ (if String.eqb (eventType (b_spec b)) type then [w] else [])) /\
    is_Some (targetHandlers st' !! c_target this) /\
    w_id w = nextId st.
Proof.
  intros Hb Hwf.
  destruct (addHandlerForEvent_normal this entry st b Hb Hwf)
    as (st' & w & Heq & Hw & Hid & Hl & Hreg & Hnext & Hbo).
  exists st', w. split; [exact Heq|].
  assert (forall type,
            regList st' (c_target this) type
            = regList st (c_target this) type
              ++ (if String.eqb (eventType (b_spec b)) type then [w] else [])) as Hrl.
  { intros type. unfold regList at 1. unfold regOf at 1.
    rewrite Hreg, lookup_insert_eq. simpl. rewrite mapGet_mapPush.
    destruct (String.eqb_spec (eventType (b_spec b)) type) as [->|Hne].
    - reflexivity.
    - rewrite app_nil_r. reflexivity. }
  split; [|split; [exact Hbo|split; [exact Hw|split; [exact Hrl|]]]].
  - destruct Hwf as [W1 W2]. destruct Hbo as (_ & _ & _ & _ & Hother). split.
    + intros n type. destruct (decide (n = c_target this)) as [->|Hne].
      * rewrite (wrappersFor_app _ _ _ _ _ _ Hl), Hrl, W1. reflexivity.
      * destruct (Hother n Hne) as [H1 H2].
        rewrite (wrappersFor_ext _ _ _ _ H1), (regList_ext _ _ _ _ H2). apply W1.
    + intros n type w' Hin. rewrite Hnext. apply In_wrappersOf in Hin.
      destruct (decide (n = c_target this)) as [->|Hne].
      * rewrite Hl in Hin. apply in_app_or in Hin. destruct Hin as [Hin|[Hin|[]]].
        -- apply In_wrappersOf, W2 in Hin. destruct Hin. split; [lia|assumption].
        -- inversion Hin; subst. split; [lia|].
           eapply bindEntry_not_friendly; eassumption.
      * destruct (Hother n Hne) as [H1 _]. rewrite H1 in Hin.
        apply In_wrappersOf, W2 in Hin. destruct Hin. split; [lia|assumption].
  - split; [|exact Hid]. rewrite Hreg, lookup_insert_eq. eexists. reflexivity.
Qed.

Lemma forType_cons type b bs :
  forType type (b :: bs)
  = (if String.eqb (eventType (b_spec b)) type then [b] else []) ++ forType type bs.
Proof. unfold forType. simpl. destruct (String.eqb _ _); reflexivity. Qed.

(** The loop over the entries: the bindings of [bindEntries], appended to
    the registry and to the listeners of the target in order. *)
Lemma applyEventMap_spec entries : forall this st,
  wf st ->
  exists st' r,
    applyEventMap this entries st = (st', r) /\
    wf st' /\
    bindsOnly (c_target this) st st' /\
    (forall type,
       map (bindingOf type) (regList st' (c_target this) type)
       = map (bindingOf type) (regList st (c_target this) type)
         ++ forType type (fst (bindEntries entries))) /\
    (targetHandlers st' !! c_target this = None <->
     targetHandlers st !! c_target this = None /\ fst (bindEntries entries) = []) /\
    (forall type w, In w (regList st' (c_target this) type) ->
       In w (regList st (c_target this) type) \/ nextId st <= w_id w) /\
    r = match snd (bindEntries entries) with
        | Some x => Throw x
        | None => Normal {| c_target := c_target this;
                            c_added := addedAfter (c_added this) st (c_target this)
                                         (fst (bindEntries entries)) |}
        end.
Proof.
  induction entries as [|entry rest IH]; intros this st Hwf.
  - exists st, (Normal this). simpl. split; [reflexivity|]. split; [exact Hwf|].
    split; [apply bindsOnly_refl|]. split; [intros; rewrite app_nil_r; reflexivity|].
    split; [tauto|]. split; [auto|]. destruct this; reflexivity.
  - simpl. unfold bind. destruct (bindEntry entry) as [x|b] eqn:Eb.
    + rewrite (addHandlerForEvent_throw this entry st x Eb).
      exists st, (Throw x). simpl. split; [reflexivity|]. split; [exact Hwf|].
      split; [apply bindsOnly_refl|]. split; [intros; rewrite app_nil_r; reflexivity|].
      split; [tauto|]. split; [auto|reflexivity].
    + destruct (addHandlerForEvent_effect this entry st b Eb Hwf)
        as (st1 & w & Heq & Hwf1 & Hbo1 & Hw & Hrl & Hsome & Hwid).
      rewrite Heq.
      set (this1 := {| c_target := c_target this;
                       c_added := match targetHandlers st !! c_target this with
                                  | Some _ => c_added this
                                  | None => true
                                  end |}).
      destruct (IH this1 st1 Hwf1)
        as (st2 & r & Heq2 & Hwf2 & Hbo2 & Hrl2 & Hnone2 & Hfresh2 & Hr).
      exists st2, r. split; [exact Heq2|]. split; [exact Hwf2|].
      split; [eapply bindsOnly_trans; eassumption|].
      destruct (bindEntries rest) as [bs err] eqn:Ebs. simpl in *.
      split; [|split; [|split]].
      * intros type. rewrite Hrl2, Hrl, map_app, <- app_assoc. f_equal.
        destruct (String.eqb_spec (eventType (b_spec b)) type) as [<-|]; [|reflexivity].
        simpl. rewrite Hw. reflexivity.
      * split.
        -- intros Hn. apply Hnone2 in Hn. destruct Hn as [Hn _].
           destruct Hsome as [m Hm]. congruence.
        -- intros [_ Hn]. discriminate.
      * intros type w' Hin. apply Hfresh2 in Hin. simpl in Hin.
        destruct Hbo1 as (_ & _ & _ & Hle & _).
        destruct Hin as [Hin|Hin]; [|right; lia].
        rewrite Hrl in Hin. apply in_app_or in Hin. destruct Hin as [Hin|Hin]; [left; exact Hin|].
        right. destruct (String.eqb _ _); [|destruct Hin].
        destruct Hin as [<-|[]]. lia.
      * rewrite Hr. destruct err; [reflexivity|]. f_equal. f_equal.
        destruct Hsome as [m Hm]. unfold addedAfter. rewrite Hm.
        destruct bs; reflexivity.
Qed.

Lemma applyEventMap_cons this entry rest st :
  applyEventMap this (entry :: rest) st
  = match addHandlerForEvent this entry st with
    | (st', Normal this') => applyEventMap this' rest st'
    | (st', Throw x) => (st', Throw x)
    end.
Proof. reflexivity. Qed.

Lemma applyEventMap_app l1 : forall l2 this st,
  applyEventMap this (l1 ++ l2) st
  = match applyEventMap this l1 st with
    | (st', Normal this') => applyEventMap this' l2 st'
    | (st', Throw x) => (st', Throw x)
    end.
Proof.
  induction l1 as [|entry rest IH]; intros l2 this st; simpl.
  - reflexivity.
  - unfold bind. destruct (addHandlerForEvent this entry st) as [st1 [this1|x]].
    + apply IH.
    + reflexivity.
Qed.

Lemma applyEventMaps_concat results : forall this st,
  applyEventMaps this results st = applyEventMap this (concat results) st.
Proof.
  induction results as [|m rest IH]; intros this st; simpl.
  - reflexivity.
  - rewrite applyEventMap_app. unfold bind.
    destruct (applyEventMap this m st) as [st1 [this1|x]]; [apply IH | reflexivity].
Qed.

Lemma fold_removeListener target type ws : forall st,
  let st' := fold_left (fun st h => removeListener target type h st) ws st in
  detaches target st st' /\
  forall x, In x (Dom.listenersOf st' target) <->
            In x (Dom.listenersOf st target) /\
            forall w, In w ws -> Dom.isEntry type (LWrapper w) x = false.
Proof.
  induction ws as [|h rest IH]; intros st; simpl.
  - split; [repeat split; auto|]. intros x. split; [intros H; split; [exact H|intros w []]|tauto].
  - destruct (IH (removeListener target type h st)) as [(a1 & a2 & a3 & a4 & a5 & a6) Hin].
    split.
    + repeat split; auto. intros n Hn. rewrite (a6 n Hn).
      unfold removeListener, Dom.removeEventListener. rewrite listenersOf_insert.
      destruct (decide (target = n)); [congruence|reflexivity].
    + intros x. rewrite Hin.
      unfold removeListener at 1, Dom.removeEventListener. rewrite listenersOf_insert.
      destruct (decide (target = target)); [|congruence].
      rewrite List.filter_In, negb_true_iff. split.
      * intros [[H1 H2] H3]. split; [exact H1|]. intros w [<-|Hw]; auto.
      * intros [H1 H2]. split; [split|]; auto.
Qed.

Lemma detach_spec target m : forall st,
  detaches target st (detach target m st) /\
  forall x, In x (Dom.listenersOf (detach target m st) target) <->
            In x (Dom.listenersOf st target) /\
            forall type ws w, In (type, ws) m -> In w ws ->
                              Dom.isEntry type (LWrapper w) x = false.
Proof.
  unfold detach. induction m as [|[type ws] rest IH]; intros st; simpl.
  - split; [repeat split; auto|]. intros x. split; [intros H; split; [exact H|intros ? ? ? []]|tauto].
  - destruct (IH (removeListeners target (type, ws) st)) as [(a1 & a2 & a3 & a4 & a5 & a6) Hin].
    destruct (fold_removeListener target type ws st) as [(b1 & b2 & b3 & b4 & b5 & b6) Hin'].
    unfold removeListeners in *. simpl in *.
    split.
    + repeat split; try congruence. intros n Hn. rewrite (a6 n Hn). apply b6. exact Hn.
    + intros x. rewrite Hin, Hin'. split.
      * intros [[H1 H2] H3]. split; [exact H1|].
        intros type' ws' w [Heq|Hm] Hw.
        -- inversion Heq; subst. apply H2. exact Hw.
        -- eapply H3; eassumption.
      * intros [H1 H2]. split; [split; [exact H1|]|].
        -- intros w Hw. eapply H2; [left; reflexivity | exact Hw].
        -- intros type' ws' w Hm Hw. eapply H2; [right; exact Hm | exact Hw].
Qed.

Lemma mapGet_In m type ws : mapGet m type = Some ws -> In (type, ws) m.
Proof.
  induction m as [|[k v] rest IH]; simpl; [discriminate|].
  destruct (String.eqb_spec k type) as [->|Hne].
  - intros [= ->]. left. reflexivity.
  - intros H. right. apply IH. exact H.
Qed.

Lemma In_wrappersFor st n type w :
  In w (wrappersFor st n type) <-> In (type, LWrapper w) (Dom.listenersOf st n).
Proof.
  unfold wrappersFor. rewrite In_wrappersIn. unfold listenersFor. rewrite in_map_iff. split.
  - intros ([t l] & Hl & Hin). simpl in Hl. subst l.
    apply List.filter_In in Hin. destruct Hin as [Hin Ht]. simpl in Ht.
    apply String.eqb_eq in Ht. subst t. exact Hin.
  - intros Hin. exists (type, LWrapper w). split; [reflexivity|].
    apply List.filter_In. split; [exact Hin|]. simpl. apply String.eqb_refl.
Qed.

(** Detaching the listeners of the registry entry leaves no wrapper on
    the node. *)
Lemma detach_wrappers target m st :
  (forall type, wrappersFor st target type = default [] (mapGet m type)) ->
  wrappersOf (detach target m st) target = [].
Proof.
  intros W1.
  destruct (wrappersOf (detach target m st) target) as [|[type l] rest] eqn:E; [reflexivity|].
  exfalso.
  assert (In (type, l) (wrappersOf (detach target m st) target)) as Hin
    by (rewrite E; left; reflexivity).
  unfold wrappersOf in Hin. apply List.filter_In in Hin. destruct Hin as [Hin Hw].
  destruct l as [w|]; [|discriminate].
  apply detach_spec in Hin. destruct Hin as [Hin Hrm].
  apply In_wrappersFor in Hin. rewrite W1 in Hin.
  destruct (mapGet m type) as [ws|] eqn:Em; [|destruct Hin].
  simpl in Hin. apply mapGet_In in Em.
  specialize (Hrm type ws w Em Hin). unfold Dom.isEntry in Hrm. simpl in Hrm.
  rewrite String.eqb_refl, Nat.eqb_refl in Hrm. discriminate.
Qed.

Lemma wrappersFor_nil st n type : wrappersOf st n = [] -> wrappersFor st n type = [].
Proof. intros H. rewrite wrappersFor_wrappersOf, H. reflexivity. Qed.

Lemma detach_wf_listeners target m st n type w :
  In (type, LWrapper w) (wrappersOf (detach target m st) n) ->
  In (type, LWrapper w) (wrappersOf st n).
Proof.
  rewrite !In_wrappersOf. destruct (detach_spec target m st) as [(_ & _ & _ & _ & _ & Ho) Hin].
  destruct (decide (n = target)) as [->|Hne].
  - intros H. apply Hin in H. apply H.
  - rewrite (Ho n Hne). auto.
Qed.

Lemma clearTarget_spec target st :
  wf st ->
  wf (clearTarget target st) /\
  bindsOnly target st (clearTarget target st) /\
  nextId (clearTarget target st) = nextId st /\
  (forall type, regList (clearTarget target st) target type = []) /\
  (targetHandlers (clearTarget target st) !! target = None <->
   targetHandlers st !! target = None).
Proof.
  intros [W1 W2]. unfold clearTarget.
  destruct (targetHandlers st !! target) as [m|] eqn:Em.
  - destruct (detach_spec target m st) as [(a1 & a2 & a3 & a4 & a5 & a6) Hin].
    fold (detach target m st).
    assert (wrappersOf (detach target m st) target = []) as Hnil.
    { apply detach_wrappers. intros type. rewrite W1. unfold regList, regOf. rewrite Em. reflexivity. }
    split; [split|split; [|split; [|split]]].
    + intros n type. destruct (decide (n = target)) as [->|Hne].
      * unfold regList, regOf. simpl. rewrite lookup_insert_eq. simpl.
        apply wrappersFor_nil. exact Hnil.
      * unfold regList, regOf. simpl. rewrite lookup_insert_ne by auto.
        rewrite (wrappersFor_ext st) by (apply a6; exact Hne). rewrite a5. apply W1.
    + intros n type w H. simpl. rewrite a4.
      apply (W2 n). eapply detach_wf_listeners. exact H.
    + repeat split; simpl; try assumption; try lia.
      * apply a6. assumption.
      * rewrite lookup_insert_ne by auto. rewrite a5. reflexivity.
    + simpl. exact a4.
    + intros type. unfold regList, regOf. simpl. rewrite lookup_insert_eq. reflexivity.
    + simpl. rewrite lookup_insert_eq. split; discriminate.
  - split; [split; assumption|]. split; [apply bindsOnly_refl|]. split; [reflexivity|].
    split; [|tauto]. intros type. unfold regList, regOf. rewrite Em. reflexivity.
Qed.

(** ** Lifecycle events and apply-calls *)

Section LifecycleProperties.

Variable elementMatches : node -> string -> option bool.
Variable ancestors : node -> list node.
Variable stack : nat.

Lemma syncDispatch_effect target action st :
  wf st ->
  exists st' fired,
    syncDispatch elementMatches ancestors stack target action st
      = (st', Normal (map (pair target) fired)) /\
    wf st' /\
    root st' = root st /\
    targetHandlers st' = targetHandlers st /\
    nextId st' = nextId st /\
    (forall n, wrappersOf st' n = wrappersOf st n) /\
    lifecycleOf (log st') = lifecycleOf (log st) ++ [(target, a_type action)] /\
    firedOf (passing elementMatches (lifecycleEvent target action)
               (regList st target (a_type action))) fired.
Proof.
  intros Hwf.
  destruct (syncDispatch_spec elementMatches ancestors stack target action st)
    as (st' & fired & Heq & Hf & Hfired).
  exists st', fired. split; [exact Heq|].
  assert (wf (logEntry (LogLifecycle target (a_type action)) st)) as Hwf' by exact Hwf.
  split; [eapply wf_frame; eassumption|].
  destruct Hf as (f1 & f2 & f3 & f4 & f5). simpl in *.
  repeat split; try assumption.
  - rewrite f5, lifecycleOf_app. reflexivity.
  - destruct Hwf as [W1 _]. rewrite <- W1. exact Hfired.
Qed.

Lemma regList_same st st' n type :
  targetHandlers st' = targetHandlers st -> regList st' n type = regList st n type.
Proof. intros H. unfold regList, regOf. rewrite H. reflexivity. Qed.

(** What an apply-call does, in terms of the bindings its entries make. *)
Lemma applyEventsToTarget_spec results target st :
  wf st ->
  exists st' r,
    applyEventsToTarget elementMatches ancestors stack results target st = (st', r) /\
    wf st' /\
    root st' = root st /\
    (forall type,
       map (bindingOf type) (regList st' target type)
       = forType type (fst (bindEntries (concat results)))) /\
    (forall n, n <> target ->
       wrappersOf st' n = wrappersOf st n /\
       targetHandlers st' !! n = targetHandlers st !! n) /\
    (targetHandlers st' !! target = None <->
     targetHandlers st !! target = None /\ fst (bindEntries (concat results)) = []) /\
    (forall type w, In w (regList st' target type) -> nextId st <= w_id w) /\
    match snd (bindEntries (concat results)) with
    | Some x => r = Throw x /\ log st' = log st
    | None =>
        let created := addedAfter false st target (fst (bindEntries (concat results))) in
        exists fadd fapply,
          r = Normal {| firedAdd := if created then Some (map (pair target) fadd) else None;
                        firedApply := map (pair target) fapply |} /\
          lifecycleOf (log st')
          = lifecycleOf (log st)
            ++ (if created then [(target, "amara:add")] else [])
            ++ [(target, "amara:apply")] /\
          (created = true ->
           firedOf (passing elementMatches (lifecycleEvent target addAction)
                      (regList st' target "amara:add")) fadd) /\
          firedOf (passing elementMatches (lifecycleEvent target applyAction)
                     (regList st' target "amara:apply")) fapply
    end.
Proof.
  intros Hwf.
  destruct (clearTarget_spec target st Hwf) as (Hwf0 & Hbo0 & Hid0 & Hnil0 & Hnone0).
  set (st0 := clearTarget target st) in *.
  set (this := {| c_target := target; c_added := false |}).
  destruct (applyEventMap_spec (concat results) this st0 Hwf0)
    as (st1 & r1 & Heq1 & Hwf1 & Hbo1 & Hrl1 & Hnone1 & Hfresh1 & Hr1).
  simpl in Hbo1, Hrl1, Hnone1, Hfresh1, Hr1.
  assert (forall type w, In w (regList st1 target type) -> nextId st <= w_id w) as Hfresh.
  { intros type w Hin. apply Hfresh1 in Hin. rewrite Hnil0 in Hin.
    destruct Hin as [[]|Hin]. subst st0. lia. }
  assert (forall type,
            map (bindingOf type) (regList st1 target type)
            = forType type (fst (bindEntries (concat results)))) as Hrl.
  { intros type. rewrite Hrl1, Hnil0. reflexivity. }
  assert (bindsOnly target st st1) as Hbo by (eapply bindsOnly_trans; eassumption).
  assert (forall n, n <> target ->
            wrappersOf st1 n = wrappersOf st n /\
            targetHandlers st1 !! n = targetHandlers st !! n) as Hother.
  { intros n Hn. destruct Hbo as (_ & _ & _ & _ & Ho). destruct (Ho n Hn) as [H1 H2].
    split; [apply wrappersOf_ext; exact H1 | exact H2]. }
  assert (targetHandlers st1 !! target = None <->
          targetHandlers st !! target = None /\ fst (bindEntries (concat results)) = [])
    as Hnone by (rewrite Hnone1, Hnone0; reflexivity).
  assert (addedAfter false st0 target (fst (bindEntries (concat results)))
          = addedAfter false st target (fst (bindEntries (concat results)))) as Hadded.
  { unfold addedAfter. destruct (fst (bindEntries (concat results))); [reflexivity|].
    destruct Hnone0 as [H1 H2].
    destruct (targetHandlers st0 !! target), (targetHandlers st !! target);
      try reflexivity.
    - specialize (H2 eq_refl). discriminate.
    - specialize (H1 eq_refl). discriminate. }
  unfold applyEventsToTarget, bind, lift. fold st0. fold this.
  rewrite applyEventMaps_concat, Heq1, Hr1.
  destruct (snd (bindEntries (concat results))) as [x|].
  - exists st1, (Throw x). split; [reflexivity|]. split; [exact Hwf1|].
    split; [apply Hbo|]. split; [exact Hrl|]. split; [exact Hother|]. split; [exact Hnone|].
    split; [exact Hfresh|].
    split; [reflexivity | apply Hbo].
  - cbn [c_added]. rewrite Hadded.
    set (created := addedAfter false st target (fst (bindEntries (concat results)))).
    assert (exists st2 fadd,
              (if created
               then bind (syncDispatch elementMatches ancestors stack target addAction)
                      (fun r => ret (Some r))
               else ret None) st1
              = (st2, Normal (if created then Some (map (pair target) fadd) else None)) /\
              wf st2 /\ root st2 = root st1 /\ targetHandlers st2 = targetHandlers st1 /\
              (forall n, wrappersOf st2 n = wrappersOf st1 n) /\
              lifecycleOf (log st2)
              = lifecycleOf (log st1) ++ (if created then [(target, "amara:add")] else []) /\
              (created = true ->
               firedOf (passing elementMatches (lifecycleEvent target addAction)
                          (regList st1 target "amara:add")) fadd)) as Hadd.
    { destruct created.
      - destruct (syncDispatch_effect target addAction st1 Hwf1)
          as (st2 & fadd & Heq2 & Hwf2 & a1 & a2 & a3 & a4 & a5 & a6).
        exists st2, fadd. unfold bind. rewrite Heq2.
        split; [reflexivity|]. split; [exact Hwf2|]. split; [exact a1|].
        split; [exact a2|]. split; [exact a4|]. split; [exact a5|]. intros _. exact a6.
      - exists st1, []. unfold ret.
        split; [reflexivity|]. split; [exact Hwf1|]. split; [reflexivity|].
        split; [reflexivity|]. split; [reflexivity|].
        split; [rewrite app_nil_r; reflexivity | discriminate]. }
    destruct Hadd as (st2 & fadd & Heq2 & Hwf2 & b1 & b2 & b4 & b5 & b6).
    unfold bind in Heq2. unfold bind. rewrite Heq2.
    destruct (syncDispatch_effect target applyAction st2 Hwf2)
      as (st3 & fapply & Heq3 & Hwf3 & c1 & c2 & c3 & c4 & c5 & c6).
    rewrite Heq3. unfold ret.
    exists st3, (Normal {| firedAdd := if created then Some (map (pair target) fadd) else None;
                           firedApply := map (pair target) fapply |}).
    split; [reflexivity|]. split; [exact Hwf3|].
    assert (targetHandlers st3 = targetHandlers st1) as Hreg by congruence.
    split; [destruct Hbo as (_ & Hroot & _); congruence|].
    split; [intros type; rewrite (regList_same st1 st3 _ _ Hreg); apply Hrl|].
    split.
    { intros n Hn. destruct (Hother n Hn) as [H1 H2]. rewrite c4, b4, Hreg. auto. }
    split; [rewrite Hreg; exact Hnone|].
    split; [intros type w; rewrite (regList_same st1 st3 _ _ Hreg); apply Hfresh|].
    exists fadd, fapply. split; [reflexivity|]. split.
    { rewrite c5, b5. destruct Hbo as (Hlog & _). rewrite Hlog, <- app_assoc. reflexivity. }
    split.
    + intros Hc. rewrite (regList_same st1 st3 _ _ Hreg). apply b6. exact Hc.
    + rewrite (regList_same st2 st3 _ _ c2). exact c6.
Qed.

End LifecycleProperties.

(** ** Removal, and the invariant along a run *)

Section RunProperties.

Variable elementMatches : node -> string -> option bool.
Variable ancestors : node -> list node.
Variable stack : nat.

Lemma removeTargetHandlers_none target st :
  targetHandlers st !! target = None ->
  removeTargetHandlers elementMatches ancestors stack target st = (st, Normal None).
Proof. intros H. unfold removeTargetHandlers. rewrite H. reflexivity. Qed.

Lemma removeTargetHandlers_some target st :
  wf st -> is_Some (targetHandlers st !! target) ->
  exists st' fired,
    removeTargetHandlers elementMatches ancestors stack target st
      = (st', Normal (Some (map (pair target) fired))) /\
    wf st' /\
    root st' = root st /\
    targetHandlers st' = delete target (targetHandlers st) /\
    wrappersOf st' target = [] /\
    (forall n, n <> target -> wrappersOf st' n = wrappersOf st n) /\
    lifecycleOf (log st') = lifecycleOf (log st) ++ [(target, "amara:remove")] /\
    firedOf (passing elementMatches (lifecycleEvent target removeAction)
               (regList st target "amara:remove")) fired.
Proof.
  intros Hwf [m Hm]. unfold removeTargetHandlers. rewrite Hm.
  destruct (syncDispatch_effect elementMatches ancestors stack target removeAction st Hwf)
    as (st1 & fired & Heq & Hwf1 & a1 & a2 & a3 & a4 & a5 & a6).
  rewrite Heq.
  set (st2 := set_targetHandlers (delete target (targetHandlers st1)) st1).
  fold (detach target m st2).
  destruct (detach_spec target m st2) as [(b1 & b2 & b3 & b4 & b5 & b6) Hin].
  assert (wrappersOf (detach target m st2) target = []) as Hnil.
  { apply detach_wrappers. intros type.
    destruct Hwf1 as [W1 _].
    change (wrappersFor st2 target type) with (wrappersFor st1 target type).
    rewrite W1. unfold regList, regOf. rewrite a2, Hm. reflexivity. }
  exists (detach target m st2), fired. split; [reflexivity|].
  assert (forall n, n <> target ->
            wrappersOf (detach target m st2) n = wrappersOf st n) as Hother.
  { intros n Hn. rewrite <- a4. apply wrappersOf_ext. apply b6. exact Hn. }
  split; [|split; [|split; [|split; [|split; [|split]]]]].
  - destruct Hwf1 as [W1 W2]. split.
    + intros n type. unfold regList, regOf. rewrite b5. simpl.
      destruct (decide (n = target)) as [->|Hne].
      * rewrite lookup_delete_eq. simpl. apply wrappersFor_nil. exact Hnil.
      * rewrite lookup_delete_ne by auto.
        rewrite (wrappersFor_ext st1) by (apply b6; exact Hne). apply W1.
    + intros n type w H. rewrite b4. simpl.
      apply (W2 n). change (wrappersOf st1 n) with (wrappersOf st2 n).
      eapply detach_wf_listeners. exact H.
  - rewrite b2. simpl. exact a1.
  - rewrite b5. simpl. rewrite a2. reflexivity.
  - exact Hnil.
  - exact Hother.
  - rewrite b1. simpl. exact a5.
  - exact a6.
Qed.

Lemma wf_fireEvent target e st :
  wf st -> wf (fst (fireEvent elementMatches ancestors stack target e st)).
Proof. intros H. eapply wf_frame; [exact H | apply fireEvent_frame]. Qed.

Lemma wf_runTimer st : wf st -> wf (runTimer elementMatches ancestors stack st).
Proof. intros H. eapply wf_frame; [exact H | apply runTimer_frame]. Qed.

(** The state a step leads to agrees with the bindings the
    specification expects, and the invariant holds in it. *)
Lemma step_agrees s reg st :
  wf st -> agrees reg st ->
  wf (step elementMatches ancestors stack s st) /\
  agrees (specStep s reg) (step elementMatches ancestors stack s st).
Proof.
  intros Hwf Hag. destruct s as [action|target e|]; simpl.
  - destruct action as [target|[events|]|payload|type]; simpl.
    + split; [exact Hwf | exact Hag].
    + revert reg st Hwf Hag.
      induction events as [|[target results] rest IH]; intros reg st Hwf Hag; simpl.
      * split; [exact Hwf | exact Hag].
      * unfold bind.
        destruct (applyEventsToTarget_spec elementMatches ancestors stack results target st Hwf)
          as (st1 & r & Heq & Hwf1 & _ & Hrl & Hother & _ & _ & Hr).
        rewrite Heq.
        assert (agrees (specSet reg target (fst (bindEntries (concat results)))) st1) as Hag1.
        { intros n type. unfold specSet.
          destruct (Nat.eqb_spec n target) as [->|Hne]; [apply Hrl|].
          destruct (Hother n Hne) as [_ H2].
          rewrite (regList_ext st st1 _ _ H2). apply Hag. }
        destruct (snd (bindEntries (concat results))) as [x|].
        -- destruct Hr as [-> _]. simpl. split; assumption.
        -- destruct Hr as (fadd & fapply & -> & _). simpl. apply IH; assumption.
    + split; [exact Hwf | exact Hag].
    + revert reg st Hwf Hag.
      induction payload as [|target rest IH]; intros reg st Hwf Hag; simpl.
      * split; [exact Hwf | exact Hag].
      * unfold bind.
        destruct (targetHandlers st !! target) as [m|] eqn:Em.
        -- destruct (removeTargetHandlers_some target st Hwf (ex_intro _ m Em))
             as (st1 & fired & Heq & Hwf1 & _ & Hreg & _).
           rewrite Heq. simpl. apply IH; [exact Hwf1|].
           intros n type. unfold specSet, regList, regOf. rewrite Hreg.
           destruct (Nat.eqb_spec n target) as [->|Hne].
           ++ rewrite lookup_delete_eq. reflexivity.
           ++ rewrite lookup_delete_ne by auto. apply Hag.
        -- rewrite (removeTargetHandlers_none target st Em). simpl. apply IH; [exact Hwf|].
           intros n type. unfold specSet.
           destruct (Nat.eqb_spec n target) as [->|Hne]; [|apply Hag].
           unfold regList, regOf. rewrite Em. reflexivity.
    + split; [exact Hwf | exact Hag].
  - split; [apply wf_fireEvent; exact Hwf|].
    intros n type. rewrite (regList_same st); [apply Hag|].
    apply (fireEvent_frame elementMatches ancestors stack target e st).
  - split; [apply wf_runTimer; exact Hwf|].
    intros n type. rewrite (regList_same st); [apply Hag|].
    apply (runTimer_frame elementMatches ancestors stack st).
Qed.

Lemma run_agrees steps : forall reg st,
  wf st -> agrees reg st ->
  wf (run elementMatches ancestors stack steps st) /\
  agrees (fold_left (fun reg s => specStep s reg) steps reg)
         (run elementMatches ancestors stack steps st).
Proof.
  unfold run. induction steps as [|s rest IH]; intros reg st Hwf Hag; simpl.
  - split; assumption.
  - destruct (step_agrees s reg st Hwf Hag) as [H1 H2]. apply IH; assumption.
Qed.

Lemma reachable_wf steps : wf (run elementMatches ancestors stack steps initialState).
Proof.
  apply (run_agrees steps (fun _ => [])); [apply wf_initialState|].
  intros n type. reflexivity.
Qed.

End RunProperties.

(** ** Strings and parsed keys *)

Lemma toLowerCaseChar_idem c :
  Js.toLowerCaseChar (Js.toLowerCaseChar c) = Js.toLowerCaseChar c.
Proof.
  destruct c as [[] [] [] [] [] [] [] []]; vm_compute; reflexivity.
Qed.

Lemma toLowerCase_idem s : Js.toLowerCase (Js.toLowerCase s) = Js.toLowerCase s.
Proof.
  induction s as [|c r IH]; simpl; [reflexivity|].
  rewrite toLowerCaseChar_idem, IH. reflexivity.
Qed.

Lemma toLowerCase_fixMeta s :
  Js.toLowerCase (fixMeta (Js.toLowerCase s)) = fixMeta (Js.toLowerCase s).
Proof.
  unfold fixMeta. destruct (String.eqb _ _); [reflexivity | apply toLowerCase_idem].
Qed.

(** The second lower-casing in [eventHandler] changes nothing. *)
Lemma toLowerCase_metaValue e : Js.toLowerCase (metaValue e) = metaValue e.
Proof. unfold metaValue. apply toLowerCase_fixMeta. Qed.

Lemma spanNonSpace_noSpace s : noSpace (fst (spanNonSpace s)) = true.
Proof.
  induction s as [|c r IH]; simpl; [reflexivity|].
  destruct (Js.isWhiteSpace c) eqn:E; [reflexivity|].
  destruct (spanNonSpace r) as [a b]. simpl in *. rewrite E, IH. reflexivity.
Qed.

Lemma rxEventAndSelectors_noSpace key eventMeta selectors :
  rxEventAndSelectors key = Some (eventMeta, selectors) -> noSpace eventMeta = true.
Proof.
  unfold rxEventAndSelectors. pose proof (spanNonSpace_noSpace key) as H.
  destruct (spanNonSpace key) as [g1 rest]. simpl in H.
  destruct (Js.isEmpty g1); [discriminate|].
  destruct (afterLastLineTerminator rest) as [[[] tail]|]; intros [= <- _] || discriminate;
    exact H.
Qed.

Lemma split_noSpace sep s :
  noSpace s = true -> Forall (fun t => noSpace t = true) (Js.split sep s).
Proof.
  induction s as [|c r IH]; simpl; intros H.
  - repeat constructor.
  - apply andb_prop in H. destruct H as [Hc Hr]. specialize (IH Hr).
    destruct (Ascii.eqb c sep).
    + constructor; [reflexivity | exact IH].
    + destruct (Js.split sep r) as [|h t].
      * repeat constructor. simpl. rewrite Hc. reflexivity.
      * inversion IH; subst. constructor; [|assumption]. simpl. rewrite Hc. assumption.
Qed.

Lemma trimEnd_noSpace s : noSpace s = true -> Js.trimEnd s = s.
Proof.
  induction s as [|c r IH]; simpl; intros H; [reflexivity|].
  apply andb_prop in H. destruct H as [Hc Hr]. rewrite (IH Hr).
  apply negb_true_iff in Hc. rewrite Hc. reflexivity.
Qed.

Lemma trim_noSpace s : noSpace s = true -> trim s = s.
Proof.
  intros H. unfold trim.
  assert (Js.trimStart s = s) as ->.
  { destruct s as [|c r]; [reflexivity|]. simpl in *.
    apply andb_prop in H. destruct H as [Hc _]. apply negb_true_iff in Hc.
    rewrite Hc. reflexivity. }
  apply trimEnd_noSpace. exact H.
Qed.

(** The tokens of the first group are lower-cased and mapped through the
    table; trimming them changes nothing, since the group has no white
    space. *)
Lemma parseEventMeta_tokens eventMeta :
  noSpace eventMeta = true ->
  parseEventMeta eventMeta
  = map (fun t => asMeta (Js.toLowerCase t)) (Js.split "." eventMeta).
Proof.
  intros H. unfold parseEventMeta. rewrite map_map.
  apply split_noSpace with (sep := "."%char) in H.
  induction H as [|t ts Ht _ IH]; simpl; [reflexivity|].
  unfold trimLower at 1. rewrite (trim_noSpace t Ht), IH. reflexivity.
Qed.

Lemma split_not_nil sep s : Js.split sep s <> [].
Proof.
  destruct s as [|c r]; simpl; [discriminate|].
  destruct (Ascii.eqb c sep); [discriminate|].
  destruct (Js.split sep r); discriminate.
Qed.

Lemma mapGet_mapPush_last m k w :
  mapGet (mapPush m k w) k = Some (default [] (mapGet m k) ++ [w]).
Proof. rewrite mapGet_mapPush, String.eqb_refl. reflexivity. Qed.

(** What [addHandlerForEvent] binds when it returns: the wrapper closes
    over the parsed key and is the last of the registry's list for its
    event type. *)
Lemma addHandlerForEvent_binding this key h st st' c :
  addHandlerForEvent this (key, h) st = (st', Normal c) ->
  exists eventMeta selectors event meta w,
    rxEventAndSelectors key = Some (eventMeta, selectors) /\
    parseEventMeta eventMeta = event :: meta /\
    mapGet (regOf st' (c_target this)) event
    = Some (regList st (c_target this) event ++ [w]) /\
    w_handler w = h /\ w_meta w = meta /\
    w_delegates w = parseDelegates selectors /\ w_target w = c_target this.
Proof.
  unfold addHandlerForEvent.
  destruct (rxEventAndSelectors key) as [[eventMeta selectors]|]; [|discriminate].
  destruct (parseEventMeta eventMeta) as [|event meta] eqn:Ep; [discriminate|].
  destruct (Js.startsWith lifecyclePrefix event && _); [discriminate|].
  intros H. exists eventMeta, selectors, event, meta.
  destruct (targetHandlers st !! c_target this) as [m|] eqn:Em;
    inversion H; subst; clear H.
  - eexists. split; [reflexivity|]. split; [exact Ep|]. split.
    + unfold regList, regOf. simpl. rewrite lookup_insert_eq, Em. simpl.
      apply mapGet_mapPush_last.
    + repeat split.
  - eexists. split; [reflexivity|]. split; [exact Ep|]. split.
    + unfold regList, regOf. simpl. rewrite lookup_insert_eq, Em. simpl.
      rewrite String.eqb_refl. reflexivity.
    + repeat split.
Qed.

(** ** The two filters of a bound handler *)

Lemma includes_In x arr : Js.includes x arr = true <-> In x arr.
Proof.
  unfold Js.includes. rewrite existsb_exists. split.
  - intros (y & Hy & He). apply String.eqb_eq in He. subst. exact Hy.
  - intros H. exists x. split; [exact H | apply String.eqb_refl].
Qed.

Lemma metaPasses_iff meta e :
  metaPasses meta e = true <-> meta = [] \/ In (metaValue e) meta.
Proof.
  unfold metaPasses. rewrite toLowerCase_metaValue.
  destruct meta as [|t ts]; cbn [List.length Nat.eqb negb andb].
  - split; [left; reflexivity | reflexivity].
  - destruct (Js.includes (metaValue e) (t :: ts)) eqn:E; cbn [negb andb].
    + split; [intros _; right; apply includes_In; exact E | reflexivity].
    + split; [discriminate|].
      intros [H|H]; [discriminate | apply includes_In in H; congruence].
Qed.

(** What [delegates.some(matches, this)] comes to: the first selector
    that does not simply fail to match decides. *)
Lemma delegatesSome_spec elementMatches delegates this :
  match delegatesSome elementMatches delegates this with
  | inr false => forall s, In s delegates -> elementMatches this s = Some false
  | inr true =>
      exists pre s post, delegates = pre ++ s :: post /\
        (forall p, In p pre -> elementMatches this p = Some false) /\
        elementMatches this s = Some true
  | inl x =>
      x = Js.SyntaxError /\
      exists pre s post, delegates = pre ++ s :: post /\
        (forall p, In p pre -> elementMatches this p = Some false) /\
        elementMatches this s = None
  end.
Proof.
  induction delegates as [|d ds IH]; simpl; [intros s []|].
  unfold matches. destruct (elementMatches this d) as [[|]|] eqn:Ed.
  - exists [], d, ds. split; [reflexivity|]. split; [intros p []|exact Ed].
  - destruct (delegatesSome elementMatches ds this) as [x|[|]].
    + destruct IH as (-> & pre & s & post & -> & Hpre & Hs). split; [reflexivity|].
      exists (d :: pre), s, post. split; [reflexivity|]. split; [|exact Hs].
      intros p [<-|Hp]; [exact Ed | apply Hpre; exact Hp].
    + destruct IH as (pre & s & post & -> & Hpre & Hs).
      exists (d :: pre), s, post. split; [reflexivity|]. split; [|exact Hs].
      intros p [<-|Hp]; [exact Ed | apply Hpre; exact Hp].
    + intros s [<-|Hs]; [exact Ed | apply IH; exact Hs].
  - split; [reflexivity|]. exists [], d, ds.
    split; [reflexivity|]. split; [intros p []|exact Ed].
Qed.

(** The first selector of [delegates] that does not simply fail to
    match the node, with what the platform says of it. *)
Lemma first_decides (f : string -> option bool) pre s post pre' s' post' :
  pre ++ s :: post = pre' ++ s' :: post' ->
  (forall p, In p pre -> f p = Some false) -> f s <> Some false ->
  (forall p, In p pre' -> f p = Some false) -> f s' <> Some false ->
  pre = pre' /\ s = s'.
Proof.
  revert pre'. induction pre as [|a pre IH]; intros [|a' pre'] Heq Hp Hs Hp' Hs'.
  - inversion Heq. auto.
  - inversion Heq; subst. exfalso. apply Hs. apply Hp'. left. reflexivity.
  - inversion Heq; subst. exfalso. apply Hs'. apply Hp. left. reflexivity.
  - inversion Heq; subst.
    destruct (IH pre' H1) as [-> ->]; auto.
    + intros p H. apply Hp. right. exact H.
    + intros p H. apply Hp'. right. exact H.
Qed.

Lemma delegationPasses_iff elementMatches delegates e :
  delegationPasses elementMatches delegates e = true <->
  delegates = [] \/
  exists pre s post, delegates = pre ++ s :: post /\
    (forall p, In p pre -> elementMatches (e_target e) p = Some false) /\
    elementMatches (e_target e) s = Some true.
Proof.
  rewrite delegationPasses_check. unfold delegationCheck.
  destruct delegates as [|d ds]; [split; [left; reflexivity | reflexivity]|].
  cbn [List.length Nat.eqb].
  pose proof (delegatesSome_spec elementMatches (d :: ds) (e_target e)) as H.
  destruct (delegatesSome elementMatches (d :: ds) (e_target e)) as [x|[|]].
  - split; [discriminate|]. intros [Hnil|(pre & s & post & Heq & Hpre & Hs)]; [discriminate|].
    destruct H as (_ & pre' & s' & post' & Heq' & Hpre' & Hs').
    rewrite Heq in Heq'.
    assert (pre = pre' /\ s = s') as [_ <-]; [|congruence].
    apply (first_decides (elementMatches (e_target e)) _ _ _ _ _ _ Heq' Hpre);
      [congruence | exact Hpre' | congruence].
  - split; [intros _; right; exact H | reflexivity].
  - split; [discriminate|]. intros [Hnil|(pre & s & post & Heq & Hpre & Hs)]; [discriminate|].
    rewrite (H s) in Hs; [discriminate|]. rewrite Heq. apply in_or_app. right. left. reflexivity.
Qed.

(** A wrapper calls its handler if and only if both its filters let
    the event pass. *)
Lemma eventHandler_fires_iff elementMatches dispatch w current e fl st :
  (exists fl' x, snd (eventHandler elementMatches dispatch w current e fl st) = Invoked fl' x)
  <-> fires elementMatches e w = true.
Proof.
  unfold eventHandler, fires, delegationPasses.
  destruct (delegationCheck elementMatches (w_delegates w) e) as [x|[|]]; simpl.
  - split; [intros (fl' & x0 & H); discriminate | discriminate].
  - destruct (metaPasses (w_meta w) e); simpl.
    + destruct (runBody _ _ _ _ _) as [st1 [fl1 [x|]]]; simpl;
        (split; [reflexivity | intros _; eexists _, _; reflexivity]).
    + split; [intros (fl' & x & H); discriminate | discriminate].
  - split; [intros (fl' & x0 & H); discriminate | discriminate].
Qed.

(** When the selectors let the event pass, the wrapper returns early
    or calls the handler, as the meta filter decides. *)
Lemma eventHandler_not_skipped elementMatches dispatch w current e fl st :
  delegationPasses elementMatches (w_delegates w) e = true ->
  (snd (eventHandler elementMatches dispatch w current e fl st) <> Skipped
   <-> metaPasses (w_meta w) e = true).
Proof.
  intros Hd. apply delegationPasses_check in Hd. unfold eventHandler. rewrite Hd.
  destruct (metaPasses (w_meta w) e); simpl.
  - destruct (runBody _ _ _ _ _) as [st1 [fl1 [x|]]]; simpl; split; auto; discriminate.
  - split; [intros H; exfalso; apply H; reflexivity | discriminate].
Qed.

Lemma comparisonField_key e :
  In (e_type e) ["keydown"; "keyup"; "keypress"] -> comparisonField e = e_key e.
Proof.
  unfold comparisonField. intros [<-|[<-|[<-|[]]]]; reflexivity.
Qed.

Lemma comparisonField_button e :
  In (e_type e) ["mousedown"; "mouseup"] -> comparisonField e = e_button e.
Proof.
  unfold comparisonField. intros [<-|[<-|[]]]; reflexivity.
Qed.


(** ** Bindings of several maps *)



Lemma forType_app type l1 l2 : forType type (l1 ++ l2) = forType type l1 ++ forType type l2.
Proof. unfold forType. apply List.filter_app. Qed.

Lemma forType_flat_map {A} type (f : A -> list Binding) l :
  forType type (flat_map f l) = flat_map (fun x => forType type (f x)) l.
Proof.
  induction l as [|x rest IH]; simpl; [reflexivity|].
  rewrite forType_app, IH. reflexivity.
Qed.

Lemma In_forType b type bs : In b (forType type bs) -> In b bs.
Proof. unfold forType. rewrite List.filter_In. tauto. Qed.


(** ** Counting *)

Lemma firedCount_app target type st st' extra :
  lifecycleOf (log st') = lifecycleOf (log st) ++ extra ->
  firedCount target type st'
  = firedCount target type st
    + List.length (List.filter (fun x => Nat.eqb (fst x) target && String.eqb (snd x) type) extra).
Proof.
  intros H. unfold firedCount. rewrite H, List.filter_app, length_app. reflexivity.
Qed.

Lemma firedCount_same target type st st' :
  lifecycleOf (log st') = lifecycleOf (log st) ->
  firedCount target type st' = firedCount target type st.
Proof. intros H. unfold firedCount. rewrite H. reflexivity. Qed.

Section CountProperties.

Variable elementMatches : node -> string -> option bool.
Variable ancestors : node -> list node.
Variable stack : nat.

Lemma later_frame later : forall st,
  forallb (fun s => negb (isHost s)) later = true ->
  frame st (run elementMatches ancestors stack later st).
Proof.
  unfold run. induction later as [|s rest IH]; intros st H; simpl.
  - apply frame_refl.
  - simpl in H. apply andb_prop in H. destruct H as [Hs Hrest].
    eapply frame_trans; [|apply IH; exact Hrest].
    destruct s as [action|target e|]; [discriminate| |].
    + apply fireEvent_frame.
    + apply runTimer_frame.
Qed.

Lemma apply_no_remove target events : forall st,
  wf st ->
  firedCount target "amara:remove"
    (fst (handler elementMatches ancestors stack (ApplyTargetResults (Some events)) st))
  = firedCount target "amara:remove" st.
Proof.
  induction events as [|[t results] rest IH]; intros st Hwf; simpl; [reflexivity|].
  unfold bind.
  destruct (applyEventsToTarget_spec elementMatches ancestors stack results t st Hwf)
    as (st1 & r & Heq & Hwf1 & _ & _ & _ & _ & _ & Hr).
  rewrite Heq.
  destruct (snd (bindEntries (concat results))) as [x|].
  - destruct Hr as [-> Hlog]. simpl. apply firedCount_same. rewrite Hlog. reflexivity.
  - destruct Hr as (fadd & fapply & -> & Hlog & _). simpl.
    etransitivity; [exact (IH st1 Hwf1)|].
    rewrite (firedCount_app _ _ _ _ _ Hlog).
    destruct (addedAfter _ _ _ _); simpl; rewrite ?andb_false_r; simpl; lia.
Qed.

Lemma removed_count target payload : forall st,
  wf st ->
  firedCount target "amara:remove"
    (fst (handler elementMatches ancestors stack (TargetsRemoved payload) st))
  = firedCount target "amara:remove" st
    + removalsOf target (Host (TargetsRemoved payload)) st.
Proof.
  unfold removalsOf.
  induction payload as [|t rest IH]; intros st Hwf; simpl.
  - rewrite andb_false_r. lia.
  - unfold bind. destruct (targetHandlers st !! t) as [m|] eqn:Em.
    + destruct (removeTargetHandlers_some elementMatches ancestors stack t st Hwf
                  (ex_intro _ m Em))
        as (st1 & fired & Heq & Hwf1 & _ & Hreg & _ & _ & Hlog & _).
      rewrite Heq. simpl. etransitivity; [exact (IH st1 Hwf1)|].
      rewrite (firedCount_app _ _ _ _ _ Hlog). simpl. rewrite Hreg.
      destruct (Nat.eqb_spec target t) as [->|Hne].
      * rewrite lookup_delete_eq, Em, Nat.eqb_refl.
        rewrite bool_decide_eq_false_2 by (intros [? ?]; discriminate).
        rewrite bool_decide_eq_true_2 by (eexists; reflexivity). simpl. lia.
      * rewrite lookup_delete_ne by auto.
        destruct (Nat.eqb_spec t target) as [->|_]; [congruence|]. simpl. lia.
    + rewrite (removeTargetHandlers_none elementMatches ancestors stack t st Em). simpl.
      etransitivity; [exact (IH st Hwf)|]. f_equal.
      destruct (Nat.eqb_spec target t) as [->|Hne]; [|reflexivity].
      rewrite Em. rewrite bool_decide_eq_false_2 by (intros [? ?]; discriminate).
      reflexivity.
Qed.

Lemma step_removals target s st :
  wf st ->
  firedCount target "amara:remove" (step elementMatches ancestors stack s st)
  = firedCount target "amara:remove" st + removalsOf target s st.
Proof.
  intros Hwf. destruct s as [action|t e|]; simpl.
  - destruct action as [t|[events|]|payload|type].
    + unfold firedCount. simpl. lia.
    + rewrite apply_no_remove by exact Hwf. simpl. lia.
    + unfold firedCount. simpl. lia.
    + apply removed_count. exact Hwf.
    + unfold firedCount. simpl. lia.
  - rewrite Nat.add_0_r. apply firedCount_same.
    apply (fireEvent_frame elementMatches ancestors stack t e st).
  - rewrite Nat.add_0_r. apply firedCount_same.
    apply (runTimer_frame elementMatches ancestors stack st).
Qed.

End CountProperties.


(** ** Keys that throw, and keys under a friendly name *)

Lemma bindEntry_delegated key h p :
  parseSpec key = Some p ->
  Js.startsWith lifecyclePrefix (eventType p) = true ->
  delegationSelectors p <> [] ->
  bindEntry (key, h) = inl DelegationNotAllowed.
Proof.
  intros Hp Hs Hd. unfold bindEntry. simpl. rewrite Hp.
  unfold delegatedLifecycle. rewrite Hs.
  destruct (delegationSelectors p); [congruence | reflexivity].
Qed.

Lemma parseEventMeta_hd eventMeta :
  exists meta,
    parseEventMeta eventMeta
    = asMeta (trimLower (hd EmptyString (Js.split "." eventMeta))) :: meta.
Proof.
  unfold parseEventMeta. pose proof (split_not_nil "." eventMeta) as H.
  destruct (Js.split "." eventMeta) as [|t ts]; [congruence|].
  simpl. eexists. reflexivity.
Qed.

Lemma friendly_canonical s :
  isFriendly s = true ->
  (s = "space" /\ asMeta s = " ") \/ (s = "left" /\ asMeta s = "0") \/
  (s = "middle" /\ asMeta s = "1") \/ (s = "wheel" /\ asMeta s = "1") \/
  (s = "right" /\ asMeta s = "2").
Proof.
  unfold isFriendly, friendlyNames. simpl. rewrite !orb_true_iff, !String.eqb_eq.
  intros [H|[H|[H|[H|[H|H]]]]]; subst; try discriminate; vm_compute; tauto.
Qed.


(** ** The flag of synchronous dispatch *)

(** The dispatcher throws exactly when it finds the flag set. *)
Lemma dispatchActionAsEvent_throws_iff elementMatches ancestors dispatch target action
    options st :
  (exists x, snd (dispatchActionAsEvent elementMatches ancestors dispatch target action
                    options st) = Throw x)
  <-> async st = true.
Proof.
  unfold dispatchActionAsEvent. destruct (async st).
  - simpl. split; [reflexivity | intros _; eexists; reflexivity].
  - match goal with
    | |- context [prePatchDisabledBug ?a ?b] =>
        destruct (prePatchDisabledBug a b) as [st1 meta]
    end.
    match goal with
    | |- context [dispatchEvent ?a ?b ?c ?d ?f ?g] =>
        destruct (dispatchEvent a b c d f g) as [st2 result]
    end.
    simpl. split; [intros [x Hx]; discriminate | discriminate].
Qed.

(** A wrapper whose handler returns leaves the flag set, whatever it
    was when the wrapper was called. *)
Lemma eventHandler_leaves_async elementMatches dispatch w current e fl st st' fl' :
  eventHandler elementMatches dispatch w current e fl st = (st', Invoked fl' None) ->
  async st' = true.
Proof.
  unfold eventHandler.
  destruct (delegationCheck elementMatches (w_delegates w) e) as [x|[|]];
    [discriminate| |discriminate].
  destruct (negb (metaPasses (w_meta w) e)); [discriminate|].
  destruct (runBody _ _ _ _ _) as [st1 [fl1 [x|]]]; intros [= <- <-]; reflexivity.
Qed.


(** ** The workaround for disabled elements, without nesting *)

Lemma attributeOf_nativeSet n attr value st n' attr' :
  attributeOf (Dom.nativeSetAttribute n attr value st) n' attr'
  = if decide (n = n' /\ Dom.asciiLowerCase attr = attr')
    then Some value else attributeOf st n' attr'.
Proof.
  unfold attributeOf, Dom.nativeSetAttribute, Dom.attributesOf. simpl.
  rewrite lookup_insert. destruct (decide (n = n')) as [->|Hn]; simpl.
  - rewrite lookup_insert. destruct (decide (Dom.asciiLowerCase attr = attr')) as [<-|Ha].
    + rewrite decide_True by auto. reflexivity.
    + rewrite decide_False by tauto. reflexivity.
  - rewrite decide_False by tauto. reflexivity.
Qed.

Lemma attributeOf_nativeRemove n attr st n' attr' :
  attributeOf (Dom.nativeRemoveAttribute n attr st) n' attr'
  = if decide (n = n' /\ Dom.asciiLowerCase attr = attr')
    then None else attributeOf st n' attr'.
Proof.
  unfold attributeOf, Dom.nativeRemoveAttribute, Dom.attributesOf. simpl.
  rewrite lookup_insert. destruct (decide (n = n')) as [->|Hn]; simpl.
  - rewrite lookup_delete. destruct (decide (Dom.asciiLowerCase attr = attr')) as [<-|Ha].
    + rewrite decide_True by auto. reflexivity.
    + rewrite decide_False by tauto. reflexivity.
  - rewrite decide_False by tauto. reflexivity.
Qed.

Lemma hasAttribute_attributeOf n attr st :
  Dom.hasAttribute n attr st
  = bool_decide (is_Some (attributeOf st n (Dom.asciiLowerCase attr))).
Proof. reflexivity. Qed.

Lemma eqb_disabled_pair n target attr :
  Nat.eqb n target && String.eqb attr "disabled" = true <-> n = target /\ attr = "disabled".
Proof. rewrite andb_true_iff, Nat.eqb_eq, String.eqb_eq. reflexivity. Qed.

Lemma patched_setAttribute target m L st sh d n attr value :
  patched target m L st sh d ->
  patched target m L (setAttribute n attr value st)
    (Dom.nativeSetAttribute n attr value sh)
    (asksDisabled target (SetAttribute n attr value) d).
Proof.
  intros (HL & Hother & Hs & Hr & Hm & Hattr). unfold setAttribute, asksDisabled.
  destruct (Nat.eqb_spec n target) as [->|Hn]; simpl.
  - rewrite Hs. simpl. destruct (String.eqb_spec attr "disabled") as [->|Ha]; simpl.
    + repeat split; try assumption; try (apply Hother; assumption).
      * simpl. apply lookup_insert_eq.
      * intros n attr.
        destruct (decide (target = n /\ "disabled" = attr)) as [[<- <-]|Hne]; [left; auto|].
        destruct (Hattr n attr) as [H|H]; [left; exact H|].
        right. rewrite attributeOf_nativeSet, decide_False by exact Hne. exact H.
    + repeat split; try assumption; try (apply Hother; assumption).
      intros n attr'. destruct (Hattr n attr') as [H|H]; [left; exact H|].
      right. rewrite !attributeOf_nativeSet. destruct (decide _); [reflexivity | exact H].
  - destruct (Hother n Hn) as [Hsn _]. rewrite Hsn. simpl.
    repeat split; try assumption; try (apply Hother; assumption).
    intros n' attr'. destruct (Hattr n' attr') as [H|H]; [left; exact H|].
    right. rewrite !attributeOf_nativeSet. destruct (decide _); [reflexivity | exact H].
Qed.

Lemma patched_removeAttribute target m L st sh d n attr :
  patched target m L st sh d ->
  patched target m L (removeAttribute n attr st)
    (Dom.nativeRemoveAttribute n attr sh)
    (asksDisabled target (RemoveAttribute n attr) d).
Proof.
  intros (HL & Hother & Hs & Hr & Hm & Hattr). unfold removeAttribute, asksDisabled.
  destruct (Nat.eqb_spec n target) as [->|Hn]; simpl.
  - rewrite Hr. simpl. destruct (String.eqb_spec attr "disabled") as [->|Ha]; simpl.
    + repeat split; try assumption; try (apply Hother; assumption).
      * simpl. apply lookup_insert_eq.
      * intros n attr.
        destruct (decide (target = n /\ "disabled" = attr)) as [[<- <-]|Hne]; [left; auto|].
        destruct (Hattr n attr) as [H|H]; [left; exact H|].
        right. rewrite attributeOf_nativeRemove, decide_False by exact Hne. exact H.
    + repeat split; try assumption; try (apply Hother; assumption).
      intros n attr'. destruct (Hattr n attr') as [H|H]; [left; exact H|].
      right. rewrite !attributeOf_nativeRemove. destruct (decide _); [reflexivity | exact H].
  - destruct (Hother n Hn) as [_ Hrn]. rewrite Hrn. simpl.
    repeat split; try assumption; try (apply Hother; assumption).
    intros n' attr'. destruct (Hattr n' attr') as [H|H]; [left; exact H|].
    right. rewrite !attributeOf_nativeRemove. destruct (decide _); [reflexivity | exact H].
Qed.

Lemma executed_app a b : executed (a ++ b) = executed a ++ executed b.
Proof. unfold executed. apply flat_map_app. Qed.

Lemma nativeRun_app a b st : nativeRun (a ++ b) st = nativeRun b (nativeRun a st).
Proof. unfold nativeRun. apply fold_left_app. Qed.

Lemma lastDisabled_app target a b d :
  lastDisabled target (a ++ b) d = lastDisabled target b (lastDisabled target a d).
Proof. unfold lastDisabled. apply fold_left_app. Qed.

Section Unnested.

Variable elementMatches : node -> string -> option bool.
Variable ancestors : node -> list node.
Variable dispatch : node -> Action -> EventInit -> M (list Invocation).
Variable target : node.
Variable m : nat.
Variable L : gmap node (list (string * Listener)).

Lemma patched_runBody bound body : forall fl st sh d,
  noDispatch body = true ->
  patched target m L st sh d ->
  exists st' fl',
    runBody dispatch bound body fl st = (st', (fl', None)) /\
    patched target m L st' (nativeRun body sh) (lastDisabled target body d).
Proof.
  induction body as [|c rest IH]; intros fl st sh d Hnd H.
  - exists st, fl. split; [reflexivity | exact H].
  - simpl in Hnd. apply andb_prop in Hnd. destruct Hnd as [Hc Hrest].
    destruct c as [action options|n attr value|n attr| | |action|message];
      try discriminate; simpl.
    + apply IH; [exact Hrest|]. apply patched_setAttribute. exact H.
    + apply IH; [exact Hrest|]. apply patched_removeAttribute. exact H.
    + apply IH; [exact Hrest | exact H].
    + apply IH; [exact Hrest | exact H].
    + apply IH; [exact Hrest | exact H].
Qed.

Lemma patched_invokeListeners current e snapshot : forall fl st sh d,
  (forall w, In (LWrapper w) snapshot -> noDispatch (h_body (w_handler w)) = true) ->
  patched target m L st sh d ->
  exists st' fl' inv,
    invokeListeners elementMatches dispatch current e snapshot fl st = (st', (fl', inv)) /\
    patched target m L st' (nativeRun (executed inv) sh)
      (lastDisabled target (executed inv) d).
Proof.
  induction snapshot as [|l rest IH]; intros fl st sh d Hnd H; simpl.
  - exists st, fl, []. split; [reflexivity | exact H].
  - destruct (stoppedImmediate fl); [exists st, fl, []; split; [reflexivity | exact H]|].
    assert (forall w, In (LWrapper w) rest -> noDispatch (h_body (w_handler w)) = true)
      as Hrest by (intros w Hw; apply Hnd; right; exact Hw).
    destruct (negb _); [apply IH; assumption|].
    destruct l as [w|].
    + unfold eventHandler.
      destruct (delegationCheck elementMatches (w_delegates w) e) as [x|[|]];
        [apply IH; [assumption | exact H] | | apply IH; assumption].
      destruct (negb (metaPasses (w_meta w) e)); [apply IH; assumption|].
      destruct (patched_runBody (w_target w) (h_body (w_handler w)) fl
                  (logEntry (LogInvoke current (e_type e) (w_handler w)) (set_async false st))
                  sh d (Hnd w (or_introl eq_refl)) H)
        as (st1 & fl1 & Heq & H1).
      rewrite Heq.
      destruct (IH fl1 (set_async true st1) _ _ Hrest H1) as (st2 & fl2 & inv & Heq2 & H2).
      simpl. rewrite Heq2.
      exists st2, fl2, ((current, w) :: inv). split; [reflexivity|].
      change (executed ((current, w) :: inv))
        with (h_body (w_handler w) ++ executed inv).
      rewrite nativeRun_app, lastDisabled_app. exact H2.
    + unfold proxyToAmara. destruct (negb _); apply IH; assumption.
Qed.

Hypothesis listeners_noDispatch : forall n type w,
  In (type, LWrapper w) (default [] (L !! n)) -> noDispatch (h_body (w_handler w)) = true.

Lemma patched_propagate e path : forall fl st sh d,
  patched target m L st sh d ->
  exists st' inv,
    propagate elementMatches dispatch e path fl st = (st', inv) /\
    patched target m L st' (nativeRun (executed inv) sh)
      (lastDisabled target (executed inv) d).
Proof using listeners_noDispatch.
  induction path as [|n rest IH]; intros fl st sh d H; simpl.
  - exists st, []. split; [reflexivity | exact H].
  - destruct (stopped fl); [exists st, []; split; [reflexivity | exact H]|].
    destruct (patched_invokeListeners n e (listenersFor st n (e_type e)) fl st sh d)
      as (st1 & fl1 & inv1 & Heq1 & H1); [|exact H|].
    { intros w Hw. unfold listenersFor in Hw. apply in_map_iff in Hw.
      destruct Hw as ([t l] & Hl & Hin). simpl in Hl. subst l.
      apply List.filter_In in Hin. destruct Hin as [Hin _].
      unfold Dom.listenersOf in Hin. destruct H as [HL _]. rewrite HL in Hin.
      eapply listeners_noDispatch. exact Hin. }
    rewrite Heq1.
    destruct (IH fl1 st1 _ _ H1) as (st2 & inv2 & Heq2 & H2). rewrite Heq2.
    exists st2, (inv1 ++ inv2). split; [reflexivity|].
    rewrite executed_app, nativeRun_app, lastDisabled_app. exact H2.
Qed.

End Unnested.


Lemma prePatch_patched target st :
  (forall n, slotOf (setAttributeOf st) n = Native /\
             slotOf (removeAttributeOf st) n = Native) ->
  patched target (m_id (snd (prePatchDisabledBug target st))) (listeners st)
    (fst (prePatchDisabledBug target st)) st (Dom.hasAttribute target "disabled" st) /\
  m_origSet (snd (prePatchDisabledBug target st)) = Native /\
  m_origRemove (snd (prePatchDisabledBug target st)) = Native.
Proof.
  intros Hnative. destruct (Hnative target) as [Hs Hr].
  unfold prePatchDisabledBug. cbn [fst snd m_id m_origSet m_origRemove].
  split; [|split; assumption].
  unfold removeAttribute. cbn [removeAttributeOf set_metaDisabled].
  rewrite Hr. cbn [callRemoveAttribute].
  unfold patched. cbn.
  split; [reflexivity|]. split; [|split; [|split; [|split]]].
  - intros n Hn. unfold slotOf. rewrite !lookup_insert_ne by auto. apply Hnative.
  - unfold slotOf in *. rewrite lookup_insert_eq. simpl. rewrite ?Hs. reflexivity.
  - unfold slotOf in *. rewrite lookup_insert_eq. simpl. rewrite ?Hr. reflexivity.
  - apply lookup_insert_eq.
  - intros n attr.
    destruct (decide (target = n /\ "disabled" = attr)) as [[<- <-]|Hne]; [left; auto|].
    right.
    change (attributeOf (Dom.nativeRemoveAttribute target "disabled" st) n attr
            = attributeOf st n attr).
    rewrite attributeOf_nativeRemove, decide_False by exact Hne. reflexivity.
Qed.

Lemma postPatch_native target meta L st sh d :
  patched target (m_id meta) L st sh d ->
  m_origSet meta = Native -> m_origRemove meta = Native ->
  (forall n, slotOf (setAttributeOf (postPatchDisabledBug target meta st)) n = Native /\
             slotOf (removeAttributeOf (postPatchDisabledBug target meta st)) n = Native) /\
  Dom.hasAttribute target "disabled" (postPatchDisabledBug target meta st) = d /\
  forall n attr, (n = target /\ attr = "disabled") \/
                 attributeOf (postPatchDisabledBug target meta st) n attr
                 = attributeOf sh n attr.
Proof.
  intros (HL & Hother & Hs & Hr & Hm & Hattr) Hos Hor.
  unfold postPatchDisabledBug. cbn [metaDisabled set_removeAttributeOf set_setAttributeOf].
  rewrite Hm, Hos, Hor. change (default false (Some d)) with d.
  set (st4 := set_removeAttributeOf _ _).
  assert (forall n, slotOf (setAttributeOf st4) n = Native /\
                    slotOf (removeAttributeOf st4) n = Native) as Hnat4.
  { intros n. subst st4. cbn. unfold slotOf.
    destruct (decide (n = target)) as [->|Hn].
    - rewrite !lookup_insert_eq. auto.
    - rewrite !lookup_insert_ne by auto. apply Hother. exact Hn. }
  assert (forall n attr, attributeOf st4 n attr = attributeOf st n attr) as Hattr4
    by reflexivity.
  destruct (Hnat4 target) as [Hs4 Hr4]. destruct d.
  - unfold setAttribute. rewrite Hs4. cbn [callSetAttribute].
    split; [exact Hnat4|]. split.
    + rewrite hasAttribute_attributeOf, attributeOf_nativeSet, decide_True by auto.
      reflexivity.
    + intros n attr.
      destruct (decide (target = n /\ "disabled" = attr)) as [[<- <-]|Hne]; [left; auto|].
      destruct (Hattr n attr) as [H|H]; [left; exact H|].
      right. rewrite attributeOf_nativeSet, decide_False by exact Hne.
      rewrite Hattr4. exact H.
  - unfold removeAttribute. rewrite Hr4. cbn [callRemoveAttribute].
    split; [exact Hnat4|]. split.
    + rewrite hasAttribute_attributeOf, attributeOf_nativeRemove, decide_True by auto.
      reflexivity.
    + intros n attr.
      destruct (decide (target = n /\ "disabled" = attr)) as [[<- <-]|Hne]; [left; auto|].
      destruct (Hattr n attr) as [H|H]; [left; exact H|].
      right. rewrite attributeOf_nativeRemove, decide_False by exact Hne.
      rewrite Hattr4. exact H.
Qed.

Lemma nativeRun_attributes body : forall st1 st,
  attributes st1 = attributes st ->
  attributes (nativeRun body st1) = attributes (nativeRun body st).
Proof.
  unfold nativeRun. induction body as [|c rest IH]; intros st1 st H; simpl; [exact H|].
  apply IH. destruct c; simpl; try exact H.
  - unfold Dom.attributesOf. rewrite H. reflexivity.
  - unfold Dom.attributesOf. rewrite H. reflexivity.
Qed.

(** Adding or removing a listener touches the listeners only. *)
Lemma addEventListener_attributes n type l st :
  setAttributeOf (Dom.addEventListener n type l st) = setAttributeOf st /\
  removeAttributeOf (Dom.addEventListener n type l st) = removeAttributeOf st /\
  attributes (Dom.addEventListener n type l st) = attributes st.
Proof. unfold Dom.addEventListener. destruct (existsb _ _); auto. Qed.

(** Where no dispatch is nested in another, the workaround does what it
    is meant to do.  In a state where every node has its native methods,
    a dispatch whose handlers neither dispatch nor throw leaves every
    node with its native methods; the target is disabled afterwards if
    and only if the last statement that names its attribute [disabled],
    so spelled, set it, or there was none and it was disabled before;
    and every other attribute is as the statements of the handlers,
    applied natively, leave it. *)
Theorem disabled_restored_without_nesting elementMatches ancestors dispatch
    target action options st st' inv :
  (forall n, slotOf (setAttributeOf st) n = Native /\
             slotOf (removeAttributeOf st) n = Native) ->
  (forall n type w, In (type, LWrapper w) (Dom.listenersOf st n) ->
                    noDispatch (h_body (w_handler w)) = true) ->
  dispatchActionAsEvent elementMatches ancestors dispatch target action options st
  = (st', Normal inv) ->
  (forall n, slotOf (setAttributeOf st') n = Native /\
             slotOf (removeAttributeOf st') n = Native) /\
  Dom.hasAttribute target "disabled" st'
  = lastDisabled target (executed inv) (Dom.hasAttribute target "disabled" st) /\
  forall n attr, (n = target /\ attr = "disabled") \/
                 attributeOf st' n attr = attributeOf (nativeRun (executed inv) st) n attr.
Proof.
  intros Hnative Hnd. unfold dispatchActionAsEvent.
  destruct (async st); [discriminate|].
  set (st1 := match root st with
              | Some r => Dom.addEventListener r (a_type action) LProxy st
              | None => st
              end).
  assert (setAttributeOf st1 = setAttributeOf st /\
          removeAttributeOf st1 = removeAttributeOf st /\
          attributes st1 = attributes st) as (e1 & e2 & e4).
  { subst st1. destruct (root st) as [r|]; [apply addEventListener_attributes | auto]. }
  assert (forall n type w, In (type, LWrapper w) (default [] (listeners st1 !! n)) ->
                           noDispatch (h_body (w_handler w)) = true) as Hnd1.
  { intros n type w Hin. apply (Hnd n type).
    change (In (type, LWrapper w) (Dom.listenersOf st1 n)) in Hin.
    apply In_wrappersOf in Hin. apply In_wrappersOf.
    subst st1. destruct (root st) as [r|]; [|exact Hin].
    destruct (frame_addProxy r (a_type action) st) as (_ & _ & _ & Hw & _).
    rewrite Hw in Hin. exact Hin. }
  assert (forall n, slotOf (setAttributeOf st1) n = Native /\
                    slotOf (removeAttributeOf st1) n = Native) as Hnative1
    by (intros n; rewrite e1, e2; apply Hnative).
  destruct (prePatch_patched target st1 Hnative1) as (Hp & Hos & Hor).
  destruct (prePatchDisabledBug target st1) as [st2 meta]. cbn [fst snd] in Hp, Hos, Hor.
  unfold dispatchEvent.
  destruct (patched_propagate elementMatches dispatch target (m_id meta) (listeners st1) Hnd1
              (withTarget target (customEvent action options))
              (target :: (if e_bubbles (customEvent action options)
                          then ancestors target else []))
              noFlags st2 st1 _ Hp)
    as (st3 & inv3 & Heq3 & Hp3).
  rewrite Heq3.
  destruct (postPatch_native target meta _ st3 _ _ Hp3 Hos Hor) as (P1 & P2 & P3).
  assert (forall n attr, attributeOf (nativeRun (executed inv3) st1) n attr
                         = attributeOf (nativeRun (executed inv3) st) n attr) as Hsh.
  { intros n attr. unfold attributeOf, Dom.attributesOf.
    rewrite (nativeRun_attributes (executed inv3) st1 st e4). reflexivity. }
  assert (Dom.hasAttribute target "disabled" st1 = Dom.hasAttribute target "disabled" st)
    as Hhas by (unfold Dom.hasAttribute, Dom.attributesOf; rewrite e4; reflexivity).
  rewrite Hhas in P2.
  assert (forall st5,
            setAttributeOf st5 = setAttributeOf (postPatchDisabledBug target meta st3) ->
            removeAttributeOf st5 = removeAttributeOf (postPatchDisabledBug target meta st3) ->
            attributes st5 = attributes (postPatchDisabledBug target meta st3) ->
            (st5, Normal inv3) = (st', Normal inv) ->
            (forall n, slotOf (setAttributeOf st') n = Native /\
                       slotOf (removeAttributeOf st') n = Native) /\
            Dom.hasAttribute target "disabled" st'
            = lastDisabled target (executed inv) (Dom.hasAttribute target "disabled" st) /\
            forall n attr, (n = target /\ attr = "disabled") \/
                           attributeOf st' n attr
                           = attributeOf (nativeRun (executed inv) st) n attr) as Hend.
  { intros st5 a1 a2 a3 Heq. inversion Heq; subst st5 inv3. clear Heq.
    split; [intros n; rewrite a1, a2; apply P1|]. split.
    - unfold Dom.hasAttribute, Dom.attributesOf. rewrite a3. exact P2.
    - intros n attr. destruct (P3 n attr) as [H|H]; [left; exact H|]. right.
      unfold attributeOf, Dom.attributesOf. rewrite a3.
      etransitivity; [exact H | apply Hsh]. }
  destruct (root (postPatchDisabledBug target meta st3)) as [r|]; intros Heq.
  - apply (Hend (Dom.removeEventListener r (a_type action) LProxy
                   (postPatchDisabledBug target meta st3))
             eq_refl eq_refl eq_refl Heq).
  - apply (Hend (postPatchDisabledBug target meta st3) eq_refl eq_refl eq_refl Heq).
Qed.

(** ** The filters, in the words of the specification *)

Lemma asMeta_declaredToken t : asMeta (Js.toLowerCase t) = declaredToken t.
Proof.
  unfold asMeta, declaredToken, friendlyTable. cbn [List.find fst snd].
  rewrite !(String.eqb_sym _ (Js.toLowerCase t)).
  repeat (destruct (String.eqb (Js.toLowerCase t) _); [reflexivity|]).
  reflexivity.
Qed.

Lemma comparisonField_compared e : comparisonField e = comparedField e.
Proof.
  unfold comparisonField, metaEventMap, comparedField, Js.includes.
  cbn [existsb]. rewrite !orb_false_r.
  repeat (destruct (String.eqb (e_type e) _); [reflexivity|]).
  reflexivity.
Qed.

Lemma metaValue_liveValue e : metaValue e = liveValue (comparedField e).
Proof. unfold metaValue. rewrite comparisonField_compared. reflexivity. Qed.

Lemma parseDelegates_declared selectors : parseDelegates selectors = declaredSelectors selectors.
Proof.
  unfold parseDelegates, declaredSelectors. apply List.filter_ext.
  intros [|c r]; reflexivity.
Qed.

Lemma delegationPasses_decided elementMatches delegates e :
  delegationPasses elementMatches delegates e = true <->
  delegates = [] \/
  exists selector, decidedBy elementMatches (e_target e) delegates selector (Some true).
Proof.
  rewrite delegationPasses_iff. unfold decidedBy. split.
  - intros [H|(pre & s & post & H1 & H2 & H3)]; [left; exact H|].
    right. exists s, pre, post. auto.
  - intros [H|(s & pre & post & H1 & H2 & H3)]; [left; exact H|].
    right. exists pre, s, post. auto.
Qed.

(** The wrapper throws where a selector that the platform cannot parse
    is reached, and nowhere else before it has called the handler. *)
Lemma eventHandler_threw_iff elementMatches dispatch w current e fl st :
  (exists x, snd (eventHandler elementMatches dispatch w current e fl st) = Threw x)
  <-> exists selector,
        decidedBy elementMatches (e_target e) (w_delegates w) selector None.
Proof.
  unfold eventHandler, delegationCheck, decidedBy.
  destruct (w_delegates w) as [|d ds] eqn:Ed.
  { cbn [List.length Nat.eqb]. split.
    - destruct (negb _); [|destruct (runBody _ _ _ _ _) as [st1 [fl1 [x1|]]]];
        intros [x0 Hx]; discriminate.
    - intros (s & pre & post & H & _). destruct pre; discriminate. }
  cbn [List.length Nat.eqb].
  pose proof (delegatesSome_spec elementMatches (d :: ds) (e_target e)) as H.
  destruct (delegatesSome elementMatches (d :: ds) (e_target e)) as [x|[|]].
  - destruct H as (_ & pre & s & post & H1 & H2 & H3). split.
    + intros _. exists s, pre, post. auto.
    + intros _. exists x. reflexivity.
  - split.
    + destruct (negb _); [|destruct (runBody _ _ _ _ _) as [st1 [fl1 [x1|]]]];
        intros [x0 Hx]; discriminate.
    + intros (s & pre & post & H1 & H2 & H3).
      destruct H as (pre' & s' & post' & H1' & H2' & H3'). rewrite H1 in H1'.
      assert (pre = pre' /\ s = s') as [_ <-]; [|congruence].
      apply (first_decides (elementMatches (e_target e)) _ _ _ _ _ _ H1' H2);
        [congruence | exact H2' | congruence].
  - split; [intros [x0 Hx]; discriminate|].
    intros (s & pre & post & H1 & H2 & H3).
    rewrite (H s) in H3; [discriminate|]. rewrite H1. apply in_or_app. right. left. reflexivity.
Qed.

Lemma eventHandler_threw elementMatches dispatch w current e fl st :
  (exists x, snd (eventHandler elementMatches dispatch w current e fl st) = Threw x) ->
  eventHandler elementMatches dispatch w current e fl st = (st, Threw Js.SyntaxError).
Proof.
  unfold eventHandler, delegationCheck.
  destruct (Nat.eqb (List.length (w_delegates w)) 0).
  { destruct (negb _); [|destruct (runBody _ _ _ _ _) as [st1 [fl1 [x1|]]]];
      intros [x0 Hx]; discriminate. }
  pose proof (delegatesSome_spec elementMatches (w_delegates w) (e_target e)) as H.
  destruct (delegatesSome elementMatches (w_delegates w) (e_target e)) as [x|[|]].
  - destruct H as [-> _]. reflexivity.
  - destruct (negb _); [|destruct (runBody _ _ _ _ _) as [st1 [fl1 [x1|]]]];
      intros [x0 Hx]; discriminate.
  - intros [x0 Hx]; discriminate.
Qed.


(** * The claims *)

Section Claims.

Variable elementMatches : node -> string -> option bool.
Variable ancestors : node -> list node.
Variable stack : nat.

(** C5, amended.  A handler bound from a key keeps the meta tokens of
    the key, each lower-cased and replaced by its value when it is one
    of the five friendly names.  With no token it passes the meta filter
    whatever the compared field holds; with tokens it is called (the
    selectors let the event through) if and only if one of them equals
    the live value: the [key] field of a keydown, keyup or keypress
    event, the [button] field of a mousedown or mouseup event, made a
    string, lower-cased and then fixed up (del to delete).  The fix-up
    comes last, not before the lower-casing. *)
Theorem C5_meta_filter (key : string) (h : EventHandler) (this : Context)
    (st st' : State) (c : Context) :
  addHandlerForEvent this (key, h) st = (st', Normal c) ->
  exists eventMeta selectors event w,
    rxEventAndSelectors key = Some (eventMeta, selectors) /\
    mapGet (regOf st' (c_target this)) event
    = Some (regList st (c_target this) event ++ [w]) /\
    w_handler w = h /\
    w_meta w = map declaredToken (tl (Js.split "." eventMeta)) /\
    forall dispatch current e fl s,
      (exists fl' x,
         snd (eventHandler elementMatches dispatch w current e fl s) = Invoked fl' x)
      <-> delegationPasses elementMatches (w_delegates w) e = true /\
          (tl (Js.split "." eventMeta) = [] \/
           In (liveValue (comparedField e)) (w_meta w)).
Proof using Type.
  intros H.
  destruct (addHandlerForEvent_binding this key h st st' c H)
    as (eventMeta & selectors & event & meta & w & Hrx & Hp & Hreg & Hh & Hm & Hd & _).
  exists eventMeta, selectors, event, w.
  assert (w_meta w = map declaredToken (tl (Js.split "." eventMeta))) as Hmeta.
  { rewrite Hm. rewrite parseEventMeta_tokens in Hp
      by (eapply rxEventAndSelectors_noSpace; eassumption).
    destruct (Js.split "." eventMeta) as [|t ts]; [discriminate|].
    simpl in Hp. inversion Hp. apply map_ext. exact asMeta_declaredToken. }
  split; [exact Hrx|]. split; [exact Hreg|]. split; [exact Hh|]. split; [exact Hmeta|].
  intros dispatch current e fl s.
  rewrite eventHandler_fires_iff. unfold fires.
  rewrite andb_true_iff, metaPasses_iff, metaValue_liveValue.
  assert (w_meta w = [] <-> tl (Js.split "." eventMeta) = []) as [Hn1 Hn2].
  { rewrite Hmeta. destruct (tl (Js.split "." eventMeta)); simpl; split; congruence. }
  split; (intros [Hdel [Hf|Hf]]; (split; [exact Hdel|])); auto.
Qed.

(** C6, amended.  A handler bound from a key keeps for selectors the
    pieces of the key's selector text between commas, trimmed, the empty
    ones dropped.  Without any, it passes the delegation filter for
    every event its listener receives.  With some, they are tried in
    order on the node the event originated on, up to the first that this
    node matches or that is not a valid selector: the handler is called
    (the meta filter let the event through) if and only if that first
    one is matched; when it is not a valid selector the wrapper throws a
    [SyntaxError] instead, the state left as it was.  The node whose
    listener is running plays no part. *)
Theorem C6_delegation_filter (key : string) (h : EventHandler) (this : Context)
    (st st' : State) (c : Context) :
  addHandlerForEvent this (key, h) st = (st', Normal c) ->
  exists eventMeta selectors event w,
    rxEventAndSelectors key = Some (eventMeta, selectors) /\
    mapGet (regOf st' (c_target this)) event
    = Some (regList st (c_target this) event ++ [w]) /\
    w_handler w = h /\
    w_delegates w = declaredSelectors selectors /\
    forall dispatch current e fl s,
      ((exists fl' x,
          snd (eventHandler elementMatches dispatch w current e fl s) = Invoked fl' x)
       <-> metaPasses (w_meta w) e = true /\
           (w_delegates w = [] \/
            exists selector,
              decidedBy elementMatches (e_target e) (w_delegates w) selector (Some true))) /\
      ((exists x, snd (eventHandler elementMatches dispatch w current e fl s) = Threw x)
       <-> exists selector,
             decidedBy elementMatches (e_target e) (w_delegates w) selector None) /\
      (forall x, snd (eventHandler elementMatches dispatch w current e fl s) = Threw x ->
                 eventHandler elementMatches dispatch w current e fl s
                 = (s, Threw Js.SyntaxError)).
Proof using Type.
  intros H.
  destruct (addHandlerForEvent_binding this key h st st' c H)
    as (eventMeta & selectors & event & meta & w & Hrx & Hp & Hreg & Hh & Hm & Hd & _).
  exists eventMeta, selectors, event, w.
  split; [exact Hrx|]. split; [exact Hreg|]. split; [exact Hh|].
  split; [rewrite Hd; apply parseDelegates_declared|].
  intros dispatch current e fl s. split; [|split].
  - rewrite eventHandler_fires_iff. unfold fires. rewrite andb_true_iff.
    rewrite delegationPasses_decided. split; intros [H1 H2]; split; assumption.
  - apply eventHandler_threw_iff.
  - intros x Hx. apply eventHandler_threw. exists x. exact Hx.
Qed.


(** C2.  After any sequence of steps, the registry entry of a node
    holds, type by type and in order, the bindings of the most recent
    apply-call for the node (none once it is reported removed), and the
    wrappers listening on the node are those of the registry.  So an
    event fired afterwards calls on the node only handlers of that call.
    An apply-call detaches every listener it finds: the listeners on the
    node after it are closures it created itself. *)
Theorem C2_bindings_replaced (steps : list Step) (n : node) :
  let st := run elementMatches ancestors stack steps initialState in
  (forall type,
     map (bindingOf type) (regList st n type) = forType type (currentBindings steps n)) /\
  (forall type, wrappersFor st n type = regList st n type) /\
  (forall origin e i,
     In i (snd (fireEvent elementMatches ancestors stack origin e st)) ->
     fst i = n ->
     In (bindingOf (e_type e) (snd i)) (currentBindings steps n)) /\
  (forall results type w,
     (In w (wrappersFor st n type) -> w_id w < nextId st) /\
     (In w (wrappersFor
              (fst (applyEventsToTarget elementMatches ancestors stack results n st))
              n type) ->
      nextId st <= w_id w)).
Proof.
  intros st.
  destruct (run_agrees elementMatches ancestors stack steps (fun _ => []) initialState
              wf_initialState) as [Hwf Hag].
  { intros m type. reflexivity. }
  fold st in Hwf, Hag. fold (currentBindings steps) in Hag.
  split; [intros type; apply Hag|].
  split; [intros type; apply Hwf|].
  split.
  - intros origin e i Hi Hn.
    unfold fireEvent, dispatchEvent in Hi.
    destruct (propagate elementMatches (dispatcherAt elementMatches ancestors stack)
                (withTarget origin e)
                (origin :: (if e_bubbles e then ancestors origin else [])) noFlags st)
      as [st2 inv] eqn:E.
    apply propagate_spec in E; [|exact (dispatcherAt_framed elementMatches ancestors stack)].
    destruct E as [_ Hs]. destruct (Hs i Hi) as (_ & Hw & _).
    cbn [e_type withTarget] in Hw. rewrite Hn in Hw.
    destruct Hwf as [W1 _]. rewrite W1 in Hw.
    apply In_forType with (type := e_type e). rewrite <- Hag.
    apply in_map. exact Hw.
  - intros results type w. split.
    + intros Hw. apply In_wrappersFor, In_wrappersOf in Hw.
      destruct Hwf as [_ W2]. apply W2 in Hw. apply Hw.
    + destruct (applyEventsToTarget_spec elementMatches ancestors stack results n st Hwf)
        as (st1 & r1 & Heq & [W1 _] & _ & _ & _ & _ & Hfresh & _).
      rewrite Heq. simpl. rewrite W1. apply Hfresh.
Qed.


(** C3, amended.  An apply-call that returns fires amara:add exactly
    when the target had no registry entry before it and the call bound
    at least one key, so that the call created the entry; a call that
    finds the entry never fires it.  A call that returns fires
    amara:apply exactly once, after amara:add when both fire, and on the
    bindings the call has just made: the handlers it calls are those
    bound for amara:apply by this call.  A call that throws fires
    neither, also when it has created the entry: the entry stays, the
    apply-calls that follow find it, and amara:add is not fired for
    it. *)
Theorem C3_add_and_apply (steps : list Step) (results : list EventMap) (target : node) :
  let st := run elementMatches ancestors stack steps initialState in
  let bound := fst (bindEntries (concat results)) in
  let created := addedAfter false st target bound in
  exists st' r,
    applyEventsToTarget elementMatches ancestors stack results target st = (st', r) /\
    (created = true <->
     targetHandlers st !! target = None /\ is_Some (targetHandlers st' !! target)) /\
    (created = true <-> targetHandlers st !! target = None /\ bound <> []) /\
    (forall type, map (bindingOf type) (regList st' target type) = forType type bound) /\
    match r with
    | Throw x =>
        snd (bindEntries (concat results)) = Some x /\
        lifecycleOf (log st') = lifecycleOf (log st) /\
        (created = true -> forall later, addedAfter false st' target later = false)
    | Normal a =>
        lifecycleOf (log st')
        = lifecycleOf (log st)
          ++ (if created then [(target, "amara:add")] else [])
          ++ [(target, "amara:apply")] /\
        (is_Some (firedAdd a) <-> created = true) /\
        (forall inv, firedAdd a = Some inv ->
           exists fadd, inv = map (pair target) fadd /\
             firedOf (passing elementMatches (lifecycleEvent target addAction)
                        (regList st' target "amara:add")) fadd) /\
        exists fapply, firedApply a = map (pair target) fapply /\
          firedOf (passing elementMatches (lifecycleEvent target applyAction)
                     (regList st' target "amara:apply")) fapply
    end.
Proof.
  intros st bound created.
  pose proof (reachable_wf elementMatches ancestors stack steps) as Hwf. fold st in Hwf.
  destruct (applyEventsToTarget_spec elementMatches ancestors stack results target st Hwf)
    as (st' & r & Heq & Hwf' & _ & Hrl & _ & Hnone & _ & Hr).
  fold bound in Hrl, Hnone, Hr. fold created in Hr.
  assert (created = true <->
          targetHandlers st !! target = None /\ is_Some (targetHandlers st' !! target))
    as Hcreated.
  { unfold created, addedAfter. destruct bound as [|b bs].
    + split; [discriminate|]. intros [H1 [m H2]].
      assert (targetHandlers st' !! target = None) as H3 by (apply Hnone; auto).
      congruence.
    + destruct (targetHandlers st !! target) as [m|] eqn:Em.
      * split; [discriminate|]. intros [H1 _]. discriminate.
      * split; [|reflexivity]. intros _. split; [reflexivity|].
        destruct (targetHandlers st' !! target) as [m|]; [eexists; reflexivity|].
        destruct Hnone as [H1 _]. destruct (H1 eq_refl) as [_ Hb]. discriminate. }
  exists st', r. split; [exact Heq|]. split; [exact Hcreated|].
  split; [|split; [exact Hrl|]].
  - unfold created, addedAfter. destruct bound as [|b bs].
    + split; [discriminate | intros [_ H]; congruence].
    + destruct (targetHandlers st !! target) as [m|].
      * split; [discriminate | intros [H _]; discriminate].
      * split; [intros _; split; [reflexivity | discriminate] | reflexivity].
  - destruct (snd (bindEntries (concat results))) as [x|].
    + destruct Hr as [-> Hlog]. split; [reflexivity|].
      split; [rewrite Hlog; reflexivity|].
      intros Hc later. apply Hcreated in Hc. destruct Hc as [_ [m Hm]].
      unfold addedAfter. rewrite Hm. destruct later; reflexivity.
    + destruct Hr as (fadd & fapply & -> & Hlog & Hadd & Happly). simpl.
      split; [exact Hlog|]. split; [|split].
      * destruct created.
        -- split; [intros _; reflexivity | intros _; eexists; reflexivity].
        -- split; [intros [? ?]; discriminate | discriminate].
      * intros inv Hinv. destruct created; [|discriminate].
        inversion Hinv; subst. exists fadd. split; [reflexivity | apply Hadd; reflexivity].
      * exists fapply. split; [reflexivity | exact Happly].
Qed.

(** C4.  Reported removed while it has a registry entry, a target gets
    amara:remove fired once: the handlers called are those the registry
    held for amara:remove before the call, so they were still attached;
    afterwards the entry is gone, no wrapper listens on the node, and no
    event fired later calls a handler on it.  A target without an entry
    is left alone.  And over any step the number of amara:remove events
    fired on a target grows by one when the step reports the target
    removed while it has an entry, and not at all otherwise. *)
Theorem C4_remove_once (steps : list Step) (target : node) :
  let st := run elementMatches ancestors stack steps initialState in
  (is_Some (targetHandlers st !! target) ->
   exists st' fired,
     removeTargetHandlers elementMatches ancestors stack target st
     = (st', Normal (Some (map (pair target) fired))) /\
     lifecycleOf (log st') = lifecycleOf (log st) ++ [(target, "amara:remove")] /\
     firedOf (passing elementMatches (lifecycleEvent target removeAction)
                (regList st target "amara:remove")) fired /\
     (forall type, wrappersFor st target type = regList st target type) /\
     targetHandlers st' !! target = None /\
     wrappersOf st' target = [] /\
     forall later origin e i,
       forallb (fun s => negb (isHost s)) later = true ->
       In i (snd (fireEvent elementMatches ancestors stack origin e
                    (run elementMatches ancestors stack later st'))) ->
       fst i <> target) /\
  (targetHandlers st !! target = None ->
   removeTargetHandlers elementMatches ancestors stack target st = (st, Normal None)) /\
  (forall s,
     firedCount target "amara:remove" (step elementMatches ancestors stack s st)
     = firedCount target "amara:remove" st + removalsOf target s st).
Proof.
  intros st.
  pose proof (reachable_wf elementMatches ancestors stack steps) as Hwf. fold st in Hwf.
  split; [|split].
  - intros Hsome.
    destruct (removeTargetHandlers_some elementMatches ancestors stack target st Hwf Hsome)
      as (st' & fired & Heq & Hwf' & _ & Hreg & Hnil & _ & Hlog & Hfired).
    exists st', fired. split; [exact Heq|]. split; [exact Hlog|]. split; [exact Hfired|].
    split; [apply Hwf|]. split; [rewrite Hreg; apply lookup_delete_eq|].
    split; [exact Hnil|].
    intros later origin e i Hlater Hi Hn.
    pose proof (later_frame elementMatches ancestors stack later st' Hlater) as Hf.
    unfold fireEvent, dispatchEvent in Hi.
    destruct (propagate elementMatches (dispatcherAt elementMatches ancestors stack)
                (withTarget origin e)
                (origin :: (if e_bubbles e then ancestors origin else [])) noFlags
                (run elementMatches ancestors stack later st'))
      as [st2 inv] eqn:E.
    apply propagate_spec in E; [|exact (dispatcherAt_framed elementMatches ancestors stack)].
    destruct E as [_ Hs]. destruct (Hs i Hi) as (_ & Hw & _).
    rewrite Hn, (wrappersFor_frame _ _ _ _ Hf), (wrappersFor_nil _ _ _ Hnil) in Hw.
    destruct Hw.
  - apply removeTargetHandlers_none.
  - intros s. apply step_removals. exact Hwf.
Qed.


(** C8.  When the entries of an apply-call reach a key whose event type
    starts with the lifecycle prefix and that declares a selector, the
    call throws [DelegationNotAllowed] there and then.  The state it
    leaves is the one reached by clearing the target and binding the
    entries before that key: the registry and the listeners of the
    target hold those bindings and no other, and no lifecycle event has
    been fired. *)
Theorem C8_delegated_lifecycle_throws (steps : list Step) (results : list EventMap)
    (target : node) (pre post : list (string * EventHandler))
    (key : string) (h : EventHandler) (p : ParsedSpec) :
  concat results = pre ++ (key, h) :: post ->
  snd (bindEntries pre) = None ->
  parseSpec key = Some p ->
  Js.startsWith lifecyclePrefix (eventType p) = true ->
  delegationSelectors p <> [] ->
  let st := run elementMatches ancestors stack steps initialState in
  let st' := fst (applyEventMap {| c_target := target; c_added := false |} pre
                    (clearTarget target st)) in
  applyEventsToTarget elementMatches ancestors stack results target st
  = (st', Throw DelegationNotAllowed) /\
  (forall type,
     map (bindingOf type) (regList st' target type) = forType type (fst (bindEntries pre))) /\
  (forall type, wrappersFor st' target type = regList st' target type) /\
  log st' = log st.
Proof.
  intros Hc Hpre Hp Hs Hd st st'.
  pose proof (reachable_wf elementMatches ancestors stack steps) as Hwf. fold st in Hwf.
  destruct (clearTarget_spec target st Hwf) as (Hwf0 & Hbo0 & _ & Hnil0 & _).
  destruct (applyEventMap_spec pre {| c_target := target; c_added := false |}
              (clearTarget target st) Hwf0)
    as (st1 & r1 & Heq1 & Hwf1 & Hbo1 & Hrl1 & _ & _ & Hr1).
  simpl in Hbo1, Hrl1, Hr1. rewrite Hpre in Hr1.
  assert (st' = st1) as Hst by (unfold st'; rewrite Heq1; reflexivity).
  rewrite Hst. split; [|split; [|split]].
  - unfold applyEventsToTarget, bind, lift.
    rewrite applyEventMaps_concat, Hc, applyEventMap_app, Heq1, Hr1.
    rewrite applyEventMap_cons.
    rewrite (addHandlerForEvent_throw _ (key, h) st1 DelegationNotAllowed)
      by (eapply bindEntry_delegated; eassumption).
    reflexivity.
  - intros type. rewrite Hrl1, Hnil0. reflexivity.
  - apply Hwf1.
  - destruct Hbo0 as (H0 & _), Hbo1 as (H1 & _). congruence.
Qed.

(** C10.  The friendly-name table is applied to the event token too.
    A key whose first token, trimmed and lower-cased, is space, left,
    middle, wheel or right is always bound, and under the canonical
    value of the table; and in no state the engine reaches does an
    event whose type is one of the five names call any handler. *)
Theorem C10_friendly_event_type (key eventMeta selectors : string) :
  rxEventAndSelectors key = Some (eventMeta, selectors) ->
  let written := trimLower (hd EmptyString (Js.split "." eventMeta)) in
  isFriendly written = true ->
  ((written = "space" /\ asMeta written = " ") \/
   (written = "left" /\ asMeta written = "0") \/
   (written = "middle" /\ asMeta written = "1") \/
   (written = "wheel" /\ asMeta written = "1") \/
   (written = "right" /\ asMeta written = "2")) /\
  (forall this h st, exists st' c w,
      addHandlerForEvent this (key, h) st = (st', Normal c) /\
      mapGet (regOf st' (c_target this)) (asMeta written)
      = Some (regList st (c_target this) (asMeta written) ++ [w]) /\
      w_handler w = h /\
      (wf st -> In (asMeta written, LWrapper w) (Dom.listenersOf st' (c_target this)))) /\
  (forall steps origin e,
      isFriendly (e_type e) = true ->
      snd (fireEvent elementMatches ancestors stack origin e
             (run elementMatches ancestors stack steps initialState)) = []).
Proof.
  intros Hrx written Hf.
  pose proof (friendly_canonical written Hf) as Hcanon.
  split; [exact Hcanon|]. split.
  - intros this h st.
    destruct (parseEventMeta_hd eventMeta) as [meta Hp]. fold written in Hp.
    assert (Js.startsWith lifecyclePrefix (asMeta written) = false) as Hnot.
    { destruct Hcanon as [[_ ->]|[[_ ->]|[[_ ->]|[[_ ->]|[_ ->]]]]]; reflexivity. }
    assert (bindEntry (key, h)
            = inr {| b_spec := {| eventType := asMeta written; metaTokens := meta;
                                  delegationSelectors := parseDelegates selectors |};
                     b_handler := h |}) as Hb.
    { unfold bindEntry, parseSpec. simpl. rewrite Hrx, Hp.
      unfold delegatedLifecycle. simpl. rewrite Hnot. reflexivity. }
    assert (exists st' c, addHandlerForEvent this (key, h) st = (st', Normal c)) as (st' & c & Heq).
    { unfold addHandlerForEvent. rewrite Hrx, Hp, Hnot. simpl.
      destruct (targetHandlers st !! c_target this); eexists _, _; reflexivity. }
    destruct (addHandlerForEvent_binding this key h st st' c Heq)
      as (em & sel & event & meta' & w & Hrx' & Hp' & Hreg & Hh & _).
    rewrite Hrx in Hrx'. inversion Hrx'; subst em sel. rewrite Hp in Hp'.
    inversion Hp'; subst event meta'.
    exists st', c, w. split; [exact Heq|]. split; [exact Hreg|]. split; [exact Hh|].
    intros Hwf.
    destruct (addHandlerForEvent_normal this (key, h) st _ Hb Hwf)
      as (st2 & w2 & Heq2 & _ & _ & Hl & Hreg2 & _).
    rewrite Heq in Heq2. inversion Heq2; subst st2.
    assert (w2 = w) as ->.
    { unfold regOf in Hreg. rewrite Hreg2, lookup_insert_eq in Hreg. simpl in Hreg.
      rewrite mapGet_mapPush_last in Hreg. inversion Hreg as [Happ].
      apply app_inj_tail in Happ. apply Happ. }
    rewrite Hl. apply in_or_app. right. left. reflexivity.
  - intros steps origin e He.
    pose proof (reachable_wf elementMatches ancestors stack steps) as [_ W2].
    unfold fireEvent, dispatchEvent.
    destruct (propagate elementMatches (dispatcherAt elementMatches ancestors stack)
                (withTarget origin e)
                (origin :: (if e_bubbles e then ancestors origin else [])) noFlags
                (run elementMatches ancestors stack steps initialState))
      as [st2 inv] eqn:E.
    apply propagate_spec in E; [|exact (dispatcherAt_framed elementMatches ancestors stack)].
    destruct E as [_ Hs]. simpl.
    destruct inv as [|i rest]; [reflexivity|]. exfalso.
    destruct (Hs i (or_introl eq_refl)) as (_ & Hw & _).
    apply In_wrappersFor, In_wrappersOf, W2 in Hw. cbn [e_type withTarget] in Hw.
    destruct Hw as [_ Hw]. congruence.
Qed.

End Claims.

(** ** The claims on the small page *)

(** C3, as stated, fails.  amara:add is fired a second time on a target
    that was reported removed and is bound again.  And it is never fired
    on a target whose entry was created by an apply-call that threw: the
    next apply-call, which brings a handler for it, finds the entry. *)
Lemma C3_counterexample :
  (lifecycleOf (log (pageRun reboundSteps))
   = [(1, "amara:add"); (1, "amara:apply"); (1, "amara:remove");
      (1, "amara:add"); (1, "amara:apply")] /\
   firedCount 1 "amara:add" (pageRun reboundSteps) = 2 /\
   firedCount 1 "amara:add" (pageRun reboundSteps) <> 1) /\
  (lifecycleOf (log (pageRun unannouncedSteps)) = [(1, "amara:apply")] /\
   map (fun w => h_id (w_handler w)) (regList (pageRun unannouncedSteps) 1 "amara:add") = [3] /\
   firedCount 1 "amara:add" (pageRun unannouncedSteps) = 0 /\
   firedCount 1 "amara:add" (pageRun unannouncedSteps) <> 1).
Proof. vm_compute. repeat split; congruence. Qed.

Lemma C4_remove_once_witness :
  let st := pageRun [applyTo 1 [[("amara:remove", handlerOf 1 [])]]] in
  is_Some (targetHandlers st !! 1) /\
  firedCount 1 "amara:remove"
    (step pageMatches pageAncestors pageStack (Host (TargetsRemoved [1])) st)
  = firedCount 1 "amara:remove" st + 1.
Proof.
  intros st. split; [eexists; vm_compute; reflexivity|].
  exact (proj2 (proj2 (C4_remove_once pageMatches pageAncestors pageStack
                         [applyTo 1 [[("amara:remove", handlerOf 1 [])]]] 1))
               (Host (TargetsRemoved [1]))).
Defined.

Lemma C5_meta_filter_witness :
  let st' := fst (addHandlerForEvent keyContext
                    ("keydown.Enter.Space", handlerOf 1 []) initialState) in
  addHandlerForEvent keyContext ("keydown.Enter.Space", handlerOf 1 []) initialState
  = (st', Normal {| c_target := 1; c_added := true |}) /\
  exists event w,
    mapGet (regOf st' 1) event = Some [w] /\
    w_handler w = handlerOf 1 [] /\
    w_meta w = ["enter"; " "].
Proof.
  intros st'.
  assert (addHandlerForEvent keyContext ("keydown.Enter.Space", handlerOf 1 []) initialState
          = (st', Normal {| c_target := 1; c_added := true |})) as H
    by (vm_compute; reflexivity).
  split; [exact H|].
  destruct (C5_meta_filter pageMatches _ _ _ _ _ _ H)
    as (eventMeta & selectors & event & w & Hrx & Hreg & Hh & Hmeta & _).
  change (rxEventAndSelectors "keydown.Enter.Space")
    with (Some ("keydown.Enter.Space", EmptyString)) in Hrx.
  inversion Hrx; subst eventMeta selectors.
  exists event, w. split; [exact Hreg|]. split; [exact Hh | exact Hmeta].
Defined.

(** C5, as stated, fails: a browser that names the delete key [Del]
    reaches the token [delete], because the value is lower-cased before
    it is fixed up; fixed up first and lower-cased afterwards, it would
    be [del], which is not among the tokens. *)
Lemma C5_counterexample :
  let st := pageRun [applyTo 1 [[("keydown.delete", handlerOf 1 [])]]] in
  let e := keyEvent "keydown" "Del" in
  map w_meta (regList st 1 "keydown") = [["delete"]] /\
  claimedValue (comparedField e) = "del" /\
  ~ In (claimedValue (comparedField e)) ["delete"] /\
  fireOn st 1 e = [(1, 1)].
Proof.
  vm_compute. repeat split. intros [H|[]]. discriminate.
Qed.

Lemma C6_delegation_filter_witness :
  let st' := fst (addHandlerForEvent keyContext
                    ("click .item, .list", handlerOf 1 []) initialState) in
  addHandlerForEvent keyContext ("click .item, .list", handlerOf 1 []) initialState
  = (st', Normal {| c_target := 1; c_added := true |}) /\
  exists event w,
    mapGet (regOf st' 1) event = Some [w] /\
    w_handler w = handlerOf 1 [] /\
    w_delegates w = [".item"; ".list"].
Proof.
  intros st'.
  assert (addHandlerForEvent keyContext ("click .item, .list", handlerOf 1 []) initialState
          = (st', Normal {| c_target := 1; c_added := true |})) as H
    by (vm_compute; reflexivity).
  split; [exact H|].
  destruct (C6_delegation_filter pageMatches _ _ _ _ _ _ H)
    as (eventMeta & selectors & event & w & Hrx & Hreg & Hh & Hd & _).
  change (rxEventAndSelectors "click .item, .list")
    with (Some ("click", " .item, .list")) in Hrx.
  inversion Hrx; subst eventMeta selectors.
  exists event, w. split; [exact Hreg|]. split; [exact Hh | exact Hd].
Defined.

(** C6, as stated, fails: the selector text is cut at every comma, also
    inside parentheses.  Bound with the selectors [:is(a, b)] and
    [.item], a handler is not called for a click that originates on the
    item: the pieces are [:is(a], which the item does not match, then
    [b)], which is not a selector, and the wrapper throws on it before
    it tries [.item]. *)
Lemma C6_counterexample :
  let st := pageRun [applyTo 1 cutSelectorMaps] in
  map w_delegates (regList st 1 "click") = [[":is(a"; "b)"; ".item"]] /\
  pageMatches 2 ":is(a" = Some false /\
  pageMatches 2 "b)" = None /\
  pageMatches 2 ".item" = Some true /\
  map (fun w => snd (eventHandler pageMatches
                       (dispatcherAt pageMatches pageAncestors pageStack)
                       w 1 (withTarget 2 clickEvent) noFlags st))
      (regList st 1 "click")
  = [Threw Js.SyntaxError] /\
  fireOn st 2 clickEvent = [].
Proof. vm_compute. repeat split. Qed.

Lemma C8_delegated_lifecycle_throws_witness :
  (concat delegatedAddMaps
   = [("click", handlerOf 1 [])] ++ ("amara:add .item", handlerOf 2 []) :: [("keydown", handlerOf 3 [])] /\
   snd (bindEntries [("click", handlerOf 1 [])]) = None /\
   parseSpec "amara:add .item"
   = Some {| eventType := "amara:add"; metaTokens := []; delegationSelectors := [".item"] |} /\
   Js.startsWith lifecyclePrefix "amara:add" = true /\
   [".item"] <> []) /\
  snd (applyEventsToTarget pageMatches pageAncestors pageStack delegatedAddMaps 1 (pageRun []))
  = Throw DelegationNotAllowed.
Proof.
  assert (concat delegatedAddMaps
          = [("click", handlerOf 1 [])] ++ ("amara:add .item", handlerOf 2 [])
              :: [("keydown", handlerOf 3 [])]) as H1 by reflexivity.
  assert (snd (bindEntries [("click", handlerOf 1 [])]) = None) as H2 by reflexivity.
  assert (parseSpec "amara:add .item"
          = Some {| eventType := "amara:add"; metaTokens := [];
                    delegationSelectors := [".item"] |}) as H3 by reflexivity.
  assert (Js.startsWith lifecyclePrefix "amara:add" = true) as H4 by reflexivity.
  assert ([".item"] <> []) as H5 by discriminate.
  split; [repeat split; assumption|].
  pose proof (proj1 (C8_delegated_lifecycle_throws pageMatches pageAncestors pageStack
                       [] delegatedAddMaps 1 _ _ _ _ _ H1 H2 H3 H4 H5)) as H.
  unfold pageRun. rewrite H. reflexivity.
Defined.

Lemma C10_friendly_event_type_witness :
  (rxEventAndSelectors "Wheel" = Some ("Wheel", EmptyString) /\
   isFriendly (trimLower (hd EmptyString (Js.split "." "Wheel"))) = true) /\
  ((trimLower "Wheel" = "space" /\ asMeta (trimLower "Wheel") = " ") \/
   (trimLower "Wheel" = "left" /\ asMeta (trimLower "Wheel") = "0") \/
   (trimLower "Wheel" = "middle" /\ asMeta (trimLower "Wheel") = "1") \/
   (trimLower "Wheel" = "wheel" /\ asMeta (trimLower "Wheel") = "1") \/
   (trimLower "Wheel" = "right" /\ asMeta (trimLower "Wheel") = "2")).
Proof.
  assert (rxEventAndSelectors "Wheel" = Some ("Wheel", EmptyString)) as H1 by reflexivity.
  assert (isFriendly (trimLower (hd EmptyString (Js.split "." "Wheel"))) = true) as H2
    by reflexivity.
  split; [split; assumption|].
  exact (proj1 (C10_friendly_event_type pageMatches pageAncestors pageStack
                  "Wheel" "Wheel" EmptyString H1 H2)).
Defined.

(** C7 fails on the code.  A click handler dispatches the action [a],
    which runs a handler, and then the action [b], still inside the same
    call: the second dispatch throws [SynchronousDispatchRequired] and the
    handler of [b] never runs, because the wrapper of the handler of [a]
    set the flag back to [true] on its way out. *)
Theorem C7_second_dispatch_throws :
  let st := pageRun [applyTo 1 twoDispatchMaps] in
  let e := withTarget 1 clickEvent in
  exists w,
    regList st 1 "click" = [w] /\
    h_body (w_handler w) = [Dispatch (actionOf "a") None; Dispatch (actionOf "b") None] /\
    snd (eventHandler pageMatches (dispatcherAt pageMatches pageAncestors pageStack)
           w 1 e noFlags st)
    = Invoked noFlags (Some SynchronousDispatchRequired) /\
    skipn (List.length (log st))
      (log (fst (fireEvent pageMatches pageAncestors pageStack 1 clickEvent st)))
    = [LogInvoke 1 "click" (w_handler w);
       LogInvoke 1 "a" (handlerOf 2 []);
       LogUncaught SynchronousDispatchRequired].
Proof.
  eexists. split; [vm_compute; reflexivity|].
  repeat split; vm_compute; reflexivity.
Qed.

(** The flag is not restored when a handler throws either: a dispatch
    deferred by a handler that then throws is accepted when the timer
    runs, although the stack of the click has unwound.  Without the throw
    the deferred dispatch is rejected. *)
Theorem deferred_dispatch_after_throw_is_accepted :
  let late st := skipn (List.length (log st))
                   (log (run pageMatches pageAncestors pageStack
                           [Fire 1 clickEvent; Timer] st)) in
  late (pageRun [applyTo 1 throwingMaps])
  = [LogInvoke 1 "click"
       (handlerOf 1 [SetTimeoutDispatch (actionOf "late"); ThrowError "boom"]);
     LogUncaught (Js.Error "boom");
     LogInvoke 1 "late" (handlerOf 2 [])] /\
  late (pageRun [applyTo 1 deferringMaps])
  = [LogInvoke 1 "click" (handlerOf 1 [SetTimeoutDispatch (actionOf "late")]);
     LogUncaught SynchronousDispatchRequired].
Proof.
  split; vm_compute; reflexivity.
Qed.

(** C9 fails on the code.  A disabled element has an [amara:apply]
    handler that dispatches an action and never touches an attribute.
    After the apply-call the element is no longer disabled: the nested
    dispatch removed the attribute through the function the outer
    dispatch had installed, which recorded it as the handler's doing.
    With a handler that dispatches nothing the attribute is kept. *)
Theorem C9_nested_dispatch_drops_disabled :
  Dom.hasAttribute 1 "disabled" disabledPage = true /\
  Dom.hasAttribute 1 "disabled"
    (run pageMatches pageAncestors pageStack
       [applyTo 1 (onApplyMaps [Dispatch (actionOf "init") None])] disabledPage) = false /\
  Dom.hasAttribute 1 "disabled"
    (run pageMatches pageAncestors pageStack [applyTo 1 (onApplyMaps [])] disabledPage) = true /\
  slotOf (setAttributeOf
            (run pageMatches pageAncestors pageStack
               [applyTo 1 (onApplyMaps [Dispatch (actionOf "init") None])] disabledPage)) 1
  = Native.
Proof. vm_compute. repeat split. Qed.

(** ** The tests of the repository, replayed on the small page *)

Example parse_readme_key :
  rxEventAndSelectors "keydown.enter.space input[type=text], .toggle"
  = Some ("keydown.enter.space", " input[type=text], .toggle")
  /\ parseDelegates " input[type=text], .toggle" = ["input[type=text]"; ".toggle"]
  /\ parseEventMeta "keydown.enter.space" = ["keydown"; "enter"; " "].
Proof. repeat split; reflexivity. Qed.

Example parse_leading_space : rxEventAndSelectors " click" = None.
Proof. reflexivity. Qed.

Example string_of_button : Js.String_ (Js.Number 2) = "2".
Proof. reflexivity. Qed.

Example runs_in_order_applied :
  fireOn (pageRun [applyTo 1 inOrderMaps]) 1 clickEvent = [(1, 1); (1, 2)].
Proof. vm_compute. reflexivity. Qed.

Example runs_for_bubbled_and_delegated_events :
  fireOn (pageRun [applyTo 1 delegationMaps]) 2 clickEvent = [(1, 1); (1, 2); (1, 3)].
Proof. vm_compute. reflexivity. Qed.

(** The list matches [.list] and the click passes through it, but the
    click did not originate there. *)
Example bubbling_through_a_match_is_not_enough :
  pageMatches 1 ".list" = Some true /\
  ~ In (1, 4) (fireOn (pageRun [applyTo 1 delegationMaps]) 2 clickEvent) /\
  In (1, 4) (fireOn (pageRun [applyTo 1 delegationMaps]) 1 clickEvent).
Proof. vm_compute. intuition congruence. Qed.

Example does_not_run_for_stopped_bubbled_event :
  fireOn (pageRun [applyTo 2 [[("click", handlerOf 1 [StopPropagation])]];
                   applyTo 1 [[("click", handlerOf 2 [])]]]) 2 clickEvent
  = [(2, 1)].
Proof. vm_compute. reflexivity. Qed.

Example removes_previous_handlers :
  fireOn (pageRun [applyTo 1 [[("click", handlerOf 1 [])]];
                   applyTo 1 [[("click", handlerOf 2 [])]]]) 1 clickEvent
  = [(1, 2)].
Proof. vm_compute. reflexivity. Qed.

Example removes_handler_when_node_removed :
  fireOn (pageRun [applyTo 1 [[("click", handlerOf 1 [])]]; Host (TargetsRemoved [1])])
    1 clickEvent = [].
Proof. vm_compute. reflexivity. Qed.

Example keyboard_helpers :
  let st := pageRun [applyTo 1 keyboardMaps] in
  fireOn st 1 (keyEvent "keydown" "LeftArrow") = [(1, 1); (1, 2); (1, 3)] /\
  fireOn st 1 (keyEvent "keydown" " ") = [(1, 1); (1, 5)].
Proof. vm_compute. split; reflexivity. Qed.

(** The fix-up comes after the lower-casing: the value [Del] of some
    browsers reaches the token [delete]. *)
Example del_is_delete :
  fireOn (pageRun [applyTo 1 keyboardMaps]) 1 (keyEvent "keydown" "Del") = [(1, 1); (1, 6)].
Proof. vm_compute. reflexivity. Qed.

Example mouse_helpers :
  let st := pageRun [applyTo 1 mouseMaps] in
  fireOn st 1 (mouseEvent "mousedown" 0) = [(1, 1); (1, 2); (1, 3)] /\
  fireOn st 1 (mouseEvent "mousedown" 2) = [(1, 1); (1, 3); (1, 4)] /\
  fireOn st 1 (mouseEvent "mousedown" 1) = [(1, 1); (1, 5)].
Proof. vm_compute. repeat split; reflexivity. Qed.

Example proxies_bubbled_event_to_the_host :
  let st := pageRun [Host (Bootstrap 0);
                     applyTo 1 [[("click", handlerOf 1 [Dispatch (actionOf "test") None])]]] in
  In (LogHost (Some (actionOf "test")))
     (log (fst (fireEvent pageMatches pageAncestors pageStack 1 clickEvent st))).
Proof. vm_compute. tauto. Qed.

Example throws_if_invoked_asynchronously :
  last (log (pageRun [applyTo 1 [[("click", handlerOf 1 [SetTimeoutDispatch (actionOf "test")])]];
                      Fire 1 clickEvent; Timer]))
  = Some (LogUncaught SynchronousDispatchRequired).
Proof. vm_compute. reflexivity. Qed.

Example add_does_not_run_when_target_reapplied :
  lifecycleOf (log (pageRun [applyTo 1 [[("amara:add", handlerOf 1 [])]];
                             applyTo 1 [[("amara:add", handlerOf 1 [])]]]))
  = [(1, "amara:add"); (1, "amara:apply"); (1, "amara:apply")].
Proof. vm_compute. reflexivity. Qed.

Example throws_if_selector_provided :
  handler pageMatches pageAncestors pageStack
    (ApplyTargetResults (Some [(1, [[("amara:add div", handlerOf 1 [])]])])) initialState
  = (initialState, Throw DelegationNotAllowed).
Proof. vm_compute. reflexivity. Qed.

Example wheel_is_bound_as_1 :
  let st := pageRun [applyTo 1 [[("wheel", handlerOf 1 [])]]] in
  map fst (regOf st 1) = ["1"] /\
  fireOn st 1 (nativeEvent "wheel" Js.Undefined Js.Undefined) = [].
Proof. vm_compute. split; reflexivity. Qed.


(** * More of the engine *)

(** ** The regular expression of the keys *)

Lemma append_cons c a b : String c a +:+ b = String c (a +:+ b).
Proof. reflexivity. Qed.

Lemma spanNonSpace_split s :
  s = fst (spanNonSpace s) +:+ snd (spanNonSpace s) /\
  (snd (spanNonSpace s) = EmptyString \/ startsWithSpace (snd (spanNonSpace s)) = true).
Proof.
  induction s as [|c r IH]; simpl.
  - split; [reflexivity | left; reflexivity].
  - destruct (Js.isWhiteSpace c) eqn:Ec; simpl.
    + split; [reflexivity | right; exact Ec].
    + destruct (spanNonSpace r) as [a b]; simpl in *. destruct IH as [IH1 IH2].
      split; [rewrite append_cons; f_equal; exact IH1 | exact IH2].
Qed.

Lemma lineTerminator_isWhiteSpace c :
  Js.isLineTerminator c = true -> Js.isWhiteSpace c = true.
Proof.
  unfold Js.isLineTerminator, Js.isWhiteSpace.
  destruct (Nat.eqb_spec (nat_of_ascii c) 10) as [->|_]; [reflexivity|].
  destruct (Nat.eqb_spec (nat_of_ascii c) 13) as [->|_]; [reflexivity|discriminate].
Qed.

Lemma afterLastLineTerminator_none s :
  afterLastLineTerminator s = None -> noLineTerminator s = true.
Proof.
  induction s as [|c r IH]; simpl; [reflexivity|].
  destruct (afterLastLineTerminator r) as [[ws tail]|]; [discriminate|].
  destruct (Js.isLineTerminator c); [discriminate|]. intros _. simpl. apply IH. reflexivity.
Qed.

Lemma afterLastLineTerminator_some s : forall ws tail,
  afterLastLineTerminator s = Some (ws, tail) ->
  exists h c,
    s = h +:+ String c tail /\ Js.isLineTerminator c = true /\
    noLineTerminator tail = true /\ ws = allSpace h.
Proof.
  induction s as [|c r IH]; simpl; intros ws tail H; [discriminate|].
  destruct (afterLastLineTerminator r) as [[ws' tail']|] eqn:E.
  - injection H as <- <-.
    destruct (IH _ _ eq_refl) as (h & c' & -> & Hc & Ht & ->).
    exists (String c h), c'. rewrite append_cons. repeat split; assumption.
  - destruct (Js.isLineTerminator c) eqn:Ec; [|discriminate].
    injection H as <- <-. exists EmptyString, c.
    repeat split; [exact Ec | apply afterLastLineTerminator_none; exact E].
Qed.

Lemma allSpace_app a b : allSpace (a +:+ b) = allSpace a && allSpace b.
Proof.
  induction a as [|c r IH]; [reflexivity|].
  rewrite append_cons. simpl. rewrite IH. apply andb_assoc.
Qed.

Lemma append_assoc a b c : (a +:+ b) +:+ c = a +:+ (b +:+ c).
Proof.
  induction a as [|x r IH]; [reflexivity|].
  rewrite !append_cons. f_equal. exact IH.
Qed.

(** X1.  When the regular expression matches a key, its two groups and
    the white space between them make up the key again: the first group
    is the run of the key up to its first white space, and is not empty;
    what is skipped is white space and is either nothing or ends in a
    line terminator; the second group holds no line terminator.  A
    selector part therefore keeps its leading blanks, and of a key of
    several lines only the last line is read for selectors. *)
Theorem X1_key_decomposition key eventMeta selectors :
  rxEventAndSelectors key = Some (eventMeta, selectors) ->
  exists skipped,
    key = eventMeta +:+ skipped +:+ selectors /\
    eventMeta <> EmptyString /\ noSpace eventMeta = true /\
    (skipped +:+ selectors = EmptyString \/ startsWithSpace (skipped +:+ selectors) = true) /\
    allSpace skipped = true /\ noLineTerminator selectors = true /\
    (skipped = EmptyString \/
     exists h c, skipped = h +:+ String c EmptyString /\ Js.isLineTerminator c = true).
Proof.
  unfold rxEventAndSelectors.
  pose proof (spanNonSpace_split key) as [Hk Hrest].
  pose proof (spanNonSpace_noSpace key) as Hns.
  destruct (spanNonSpace key) as [g1 rest]; simpl in *.
  destruct (Js.isEmpty g1) eqn:Eg; [discriminate|].
  assert (g1 <> EmptyString) as Hne by (intros ->; discriminate).
  destruct (afterLastLineTerminator rest) as [[[|] tail]|] eqn:E.
  - intros [= <- <-].
    destruct (afterLastLineTerminator_some _ _ _ E) as (h & c & Hr & Hc & Ht & Hws).
    exists (h +:+ String c EmptyString).
    assert ((h +:+ String c EmptyString) +:+ tail = rest) as Hr'.
    { rewrite append_assoc. simpl. symmetry. exact Hr. }
    rewrite Hr'. repeat split; try assumption.
    + rewrite allSpace_app. rewrite <- Hws. simpl.
      rewrite (lineTerminator_isWhiteSpace _ Hc). reflexivity.
    + right. exists h, c. split; [reflexivity | exact Hc].
  - discriminate.
  - intros [= <- <-]. exists EmptyString. simpl.
    repeat split; try assumption.
    + apply afterLastLineTerminator_none. exact E.
    + left. reflexivity.
Qed.

Lemma X1_key_decomposition_witness :
  rxEventAndSelectors "keydown.enter input, .toggle"
  = Some ("keydown.enter", " input, .toggle") /\
  exists skipped,
    "keydown.enter input, .toggle" = "keydown.enter" +:+ skipped +:+ " input, .toggle".
Proof.
  split; [reflexivity|].
  destruct (X1_key_decomposition "keydown.enter input, .toggle"
              "keydown.enter" " input, .toggle" eq_refl) as (skipped & H & _).
  exists skipped. exact H.
Defined.

Lemma noLineTerminator_app a b :
  noLineTerminator (a +:+ b) = noLineTerminator a && noLineTerminator b.
Proof.
  induction a as [|c r IH]; [reflexivity|].
  rewrite append_cons. simpl. rewrite IH. apply andb_assoc.
Qed.

Lemma afterLastLineTerminator_single s :
  noLineTerminator s = true -> afterLastLineTerminator s = None.
Proof.
  induction s as [|c r IH]; simpl; [reflexivity|].
  intros H. apply andb_prop in H. destruct H as [Hc Hr].
  rewrite (IH Hr). apply negb_true_iff in Hc. rewrite Hc. reflexivity.
Qed.

Lemma spanNonSpace_empty s :
  Js.isEmpty (fst (spanNonSpace s)) = true <->
  s = EmptyString \/ startsWithSpace s = true.
Proof.
  destruct s as [|c r]; simpl.
  - split; [left; reflexivity | reflexivity].
  - destruct (Js.isWhiteSpace c) eqn:Ec; simpl.
    + split; [right; reflexivity | reflexivity].
    + destruct (spanNonSpace r) as [a b]; simpl.
      split; [discriminate | intros [H|H]; discriminate].
Qed.

Lemma rxEventAndSelectors_single key :
  noLineTerminator key = true ->
  (rxEventAndSelectors key = None <-> key = EmptyString \/ startsWithSpace key = true).
Proof.
  intros Hk. unfold rxEventAndSelectors.
  pose proof (spanNonSpace_split key) as [Hsplit _].
  pose proof (spanNonSpace_empty key) as He.
  destruct (spanNonSpace key) as [g1 rest]; simpl in *.
  destruct (Js.isEmpty g1).
  - split; [intros _; apply He; reflexivity | reflexivity].
  - rewrite Hsplit, noLineTerminator_app in Hk. apply andb_prop in Hk.
    rewrite (afterLastLineTerminator_single rest (proj2 Hk)).
    split; [discriminate | intros H; apply He in H; discriminate].
Qed.

Lemma rxEventAndSelectors_no_token key :
  key = EmptyString \/ startsWithSpace key = true -> rxEventAndSelectors key = None.
Proof.
  intros H. unfold rxEventAndSelectors.
  apply spanNonSpace_empty in H.
  destruct (spanNonSpace key) as [g1 rest]; simpl in *. rewrite H. reflexivity.
Qed.

Lemma parseEventMeta_not_nil eventMeta : parseEventMeta eventMeta <> [].
Proof.
  unfold parseEventMeta. pose proof (split_not_nil "." eventMeta) as H.
  destruct (Js.split "." eventMeta); [congruence | discriminate].
Qed.

(** X2.  A key with no event token, that is an empty key or one that
    starts with white space, makes [addHandlerForEvent] throw a
    [TypeError] (the regular expression does not match, and [split] is
    called on [undefined]) before anything is bound: the state is as it
    was.  For a key of one line this is the only way to a [TypeError]. *)
Theorem X2_key_without_event this key h st :
  (key = EmptyString \/ startsWithSpace key = true ->
   addHandlerForEvent this (key, h) st = (st, Throw Js.TypeError)) /\
  (noLineTerminator key = true ->
   (exists st', addHandlerForEvent this (key, h) st = (st', Throw Js.TypeError)) ->
   key = EmptyString \/ startsWithSpace key = true).
Proof.
  split.
  - intros H. unfold addHandlerForEvent.
    rewrite (rxEventAndSelectors_no_token key H). reflexivity.
  - intros Hk [st' H]. apply (rxEventAndSelectors_single key Hk).
    unfold addHandlerForEvent in H.
    destruct (rxEventAndSelectors key) as [[eventMeta selectors]|]; [|reflexivity].
    exfalso.
    pose proof (parseEventMeta_not_nil eventMeta) as Hne.
    destruct (parseEventMeta eventMeta) as [|event meta]; [congruence|].
    destruct (Js.startsWith lifecyclePrefix event
              && negb (Nat.eqb (List.length (parseDelegates selectors)) 0)).
    + unfold throwError in H. discriminate.
    + destruct (targetHandlers st !! c_target this); discriminate.
Qed.

Lemma X2_key_without_event_witness :
  startsWithSpace " click" = true /\
  addHandlerForEvent keyContext (" click", handlerOf 1 []) initialState
  = (initialState, Throw Js.TypeError).
Proof.
  split; [reflexivity|].
  apply (proj1 (X2_key_without_event keyContext " click" (handlerOf 1 []) initialState)).
  right. reflexivity.
Defined.

(** ** The selectors of a key *)

Lemma trimStart_fix s : startsWithSpace s = false -> Js.trimStart s = s.
Proof. destruct s as [|c r]; simpl; [reflexivity | intros ->; reflexivity]. Qed.

Lemma startsWithSpace_trimStart s : startsWithSpace (Js.trimStart s) = false.
Proof.
  induction s as [|c r IH]; simpl; [reflexivity|].
  destruct (Js.isWhiteSpace c) eqn:Ec; [exact IH | simpl; exact Ec].
Qed.

Lemma startsWithSpace_trimEnd s :
  startsWithSpace s = false -> startsWithSpace (Js.trimEnd s) = false.
Proof.
  destruct s as [|c r]; simpl; [reflexivity|].
  intros H. rewrite H. simpl. exact H.
Qed.

Lemma trimEnd_idem s : Js.trimEnd (Js.trimEnd s) = Js.trimEnd s.
Proof.
  induction s as [|c r IH]; simpl; [reflexivity|].
  destruct (Js.isWhiteSpace c && Js.isEmpty (Js.trimEnd r)) eqn:E; [reflexivity|].
  simpl. rewrite IH, E. reflexivity.
Qed.

Lemma trim_idem s : trim (trim s) = trim s.
Proof.
  unfold trim.
  rewrite (trimStart_fix (Js.trimEnd (Js.trimStart s))).
  - apply trimEnd_idem.
  - apply startsWithSpace_trimEnd, startsWithSpace_trimStart.
Qed.

Lemma trimStart_allSpace s : Js.isEmpty (Js.trimStart s) = allSpace s.
Proof.
  induction s as [|c r IH]; simpl; [reflexivity|].
  destruct (Js.isWhiteSpace c); [exact IH | reflexivity].
Qed.

Lemma trimEnd_isEmpty s :
  startsWithSpace s = false -> Js.isEmpty (Js.trimEnd s) = Js.isEmpty s.
Proof. destruct s as [|c r]; simpl; [reflexivity | intros ->; reflexivity]. Qed.

Lemma trim_allSpace s : Js.isEmpty (trim s) = allSpace s.
Proof.
  unfold trim. rewrite trimEnd_isEmpty by apply startsWithSpace_trimStart.
  apply trimStart_allSpace.
Qed.

Lemma split_blankOrComma s :
  forallb allSpace (Js.split "," s) = blankOrComma s.
Proof.
  induction s as [|c r IH]; [reflexivity|].
  simpl. destruct (Ascii.eqb_spec c ",") as [->|Hc].
  - simpl. rewrite IH. reflexivity.
  - pose proof (split_not_nil "," r) as Hne.
    destruct (Js.split "," r) as [|p ps]; [congruence|].
    simpl in *. rewrite <- IH. rewrite orb_false_r.
    destruct (Js.isWhiteSpace c); simpl; [|reflexivity].
    reflexivity.
Qed.

Lemma filter_nil_forallb {A} (f : A -> bool) l :
  List.filter f l = [] <-> forallb (fun x => negb (f x)) l = true.
Proof.
  induction l as [|x l IH]; simpl; [tauto|].
  destruct (f x); simpl; [split; discriminate | exact IH].
Qed.

Lemma forallb_trim_empty l :
  forallb (fun s => negb (negb (Js.isEmpty s))) (map trim l) = forallb allSpace l.
Proof.
  induction l as [|p l IH]; simpl; [reflexivity|].
  rewrite negb_involutive, trim_allSpace, IH. reflexivity.
Qed.

(** X3.  Every selector a key is bound with is non-empty and trimmed,
    and a key whose selector part holds nothing but blanks and commas is
    bound with no selector at all, that is as a direct handler. *)
Theorem X3_delegates_trimmed selectors :
  (forall d, In d (parseDelegates selectors) ->
     d <> EmptyString /\ trim d = d /\ startsWithSpace d = false) /\
  (parseDelegates selectors = [] <-> blankOrComma selectors = true).
Proof.
  unfold parseDelegates. split.
  - intros d Hd. apply List.filter_In in Hd. destruct Hd as [Hin Hne].
    apply List.in_map_iff in Hin. destruct Hin as (p & <- & _).
    split; [|split].
    + intros E. rewrite E in Hne. discriminate.
    + apply trim_idem.
    + unfold trim. apply startsWithSpace_trimEnd, startsWithSpace_trimStart.
  - rewrite filter_nil_forallb, forallb_trim_empty, split_blankOrComma. tauto.
Qed.

(** ** Letter case in keys *)

Lemma isWhiteSpace_toLowerCaseChar c :
  Js.isWhiteSpace (Js.toLowerCaseChar c) = Js.isWhiteSpace c.
Proof. destruct c as [[] [] [] [] [] [] [] []]; reflexivity. Qed.

Lemma eqb_dot_toLowerCaseChar c :
  Ascii.eqb (Js.toLowerCaseChar c) "." = Ascii.eqb c ".".
Proof. destruct c as [[] [] [] [] [] [] [] []]; reflexivity. Qed.

Lemma isEmpty_toLowerCase s : Js.isEmpty (Js.toLowerCase s) = Js.isEmpty s.
Proof. destruct s; reflexivity. Qed.

Lemma trimStart_toLowerCase s :
  Js.trimStart (Js.toLowerCase s) = Js.toLowerCase (Js.trimStart s).
Proof.
  induction s as [|c r IH]; simpl; [reflexivity|].
  rewrite isWhiteSpace_toLowerCaseChar.
  destruct (Js.isWhiteSpace c); [exact IH | reflexivity].
Qed.

Lemma trimEnd_toLowerCase s :
  Js.trimEnd (Js.toLowerCase s) = Js.toLowerCase (Js.trimEnd s).
Proof.
  induction s as [|c r IH]; simpl; [reflexivity|].
  rewrite isWhiteSpace_toLowerCaseChar, IH, isEmpty_toLowerCase.
  destruct (Js.isWhiteSpace c && Js.isEmpty (Js.trimEnd r)); reflexivity.
Qed.

Lemma trim_toLowerCase s : trim (Js.toLowerCase s) = Js.toLowerCase (trim s).
Proof. unfold trim. rewrite trimStart_toLowerCase. apply trimEnd_toLowerCase. Qed.

Lemma trimLower_toLowerCase s : trimLower (Js.toLowerCase s) = trimLower s.
Proof. unfold trimLower. rewrite trim_toLowerCase. apply toLowerCase_idem. Qed.

Lemma split_toLowerCase s :
  Js.split "." (Js.toLowerCase s) = map Js.toLowerCase (Js.split "." s).
Proof.
  induction s as [|c r IH]; simpl; [reflexivity|].
  rewrite eqb_dot_toLowerCaseChar, IH.
  destruct (Ascii.eqb c "."); [reflexivity|].
  pose proof (split_not_nil "." r) as Hne.
  destruct (Js.split "." r); [congruence | reflexivity].
Qed.

Lemma toLowerCase_asMeta s :
  Js.toLowerCase s = s -> Js.toLowerCase (asMeta s) = asMeta s.
Proof.
  intros H. unfold asMeta.
  repeat (match goal with |- context [if ?b then _ else _] => destruct b end;
          [reflexivity|]).
  exact H.
Qed.

Lemma parseEventMeta_lower eventMeta t :
  In t (parseEventMeta eventMeta) -> Js.toLowerCase t = t.
Proof.
  unfold parseEventMeta. intros Ht.
  apply List.in_map_iff in Ht. destruct Ht as (u & <- & Hu).
  apply List.in_map_iff in Hu. destruct Hu as (v & <- & _).
  apply toLowerCase_asMeta. unfold trimLower. apply toLowerCase_idem.
Qed.

(** X4.  The part of a key before the selectors is read without regard
    to letter case: a key and its lower-case form give the same event
    type and the same meta tokens, and every one of them is in lower
    case. *)
Theorem X4_key_case_insensitive eventMeta :
  parseEventMeta (Js.toLowerCase eventMeta) = parseEventMeta eventMeta /\
  forall t, In t (parseEventMeta eventMeta) -> Js.toLowerCase t = t.
Proof.
  split.
  - unfold parseEventMeta. rewrite split_toLowerCase, !map_map. apply map_ext.
    intros t. rewrite trimLower_toLowerCase. reflexivity.
  - apply parseEventMeta_lower.
Qed.

Lemma bindEntry_lower entry b :
  bindEntry entry = inr b ->
  Js.toLowerCase (eventType (b_spec b)) = eventType (b_spec b).
Proof.
  unfold bindEntry, parseSpec.
  destruct (rxEventAndSelectors (fst entry)) as [[eventMeta selectors]|]; [|discriminate].
  destruct (parseEventMeta eventMeta) as [|event meta] eqn:E; [discriminate|].
  destruct (delegatedLifecycle _); [discriminate|].
  intros [= <-]. simpl.
  apply (parseEventMeta_lower eventMeta). rewrite E. left. reflexivity.
Qed.

Lemma bindEntries_In entries : forall b,
  In b (fst (bindEntries entries)) ->
  exists entry, In entry entries /\ bindEntry entry = inr b.
Proof.
  induction entries as [|x rest IH]; simpl; intros b Hb; [destruct Hb|].
  destruct (bindEntry x) as [e|b0] eqn:E; [destruct Hb|].
  destruct (bindEntries rest) as [bs r]. simpl in *.
  destruct Hb as [<-|Hb].
  - exists x. split; [left; reflexivity | exact E].
  - destruct (IH b Hb) as (entry & Hin & He).
    exists entry. split; [right; exact Hin | exact He].
Qed.

Lemma fromEntries_specSet reg n bs :
  fromEntries reg ->
  (forall b, In b bs -> exists entry, bindEntry entry = inr b) ->
  fromEntries (specSet reg n bs).
Proof.
  intros Hreg Hbs m b. unfold specSet.
  destruct (Nat.eqb m n); [apply Hbs | apply Hreg].
Qed.

Lemma fromEntries_specApply events : forall reg,
  fromEntries reg -> fromEntries (specApply events reg).
Proof.
  induction events as [|[target results] rest IH]; intros reg Hreg; [exact Hreg|].
  simpl.
  assert (fromEntries (specSet reg target (fst (bindEntries (concat results))))) as H.
  { apply fromEntries_specSet; [exact Hreg|].
    intros b Hb. destruct (bindEntries_In _ _ Hb) as (entry & _ & He).
    exists entry. exact He. }
  destruct (snd (bindEntries (concat results))); [exact H | apply IH; exact H].
Qed.

Lemma fromEntries_removed payload : forall reg,
  fromEntries reg ->
  fromEntries (fold_left (fun reg target => specSet reg target []) payload reg).
Proof.
  induction payload as [|t rest IH]; intros reg Hreg; [exact Hreg|].
  simpl. apply IH. apply fromEntries_specSet; [exact Hreg|]. intros b [].
Qed.

Lemma fromEntries_specStep s reg : fromEntries reg -> fromEntries (specStep s reg).
Proof.
  intros Hreg. destruct s as [[target|[events|]|payload|type]|target e|]; simpl;
    try exact Hreg.
  - apply fromEntries_specApply. exact Hreg.
  - apply fromEntries_removed. exact Hreg.
Qed.

Lemma fromEntries_currentBindings steps : fromEntries (currentBindings steps).
Proof.
  unfold currentBindings.
  assert (forall reg, fromEntries reg ->
            fromEntries (fold_left (fun reg s => specStep s reg) steps reg)) as H.
  { induction steps as [|s rest IH]; intros reg Hreg; [exact Hreg|].
    simpl. apply IH, fromEntries_specStep, Hreg. }
  apply H. intros n b [].
Qed.

(** X5.  Event types are lower-cased when a key is bound and compared as
    they are when an event arrives: whatever has been applied, an event
    whose type holds an upper-case letter calls no handler.  A key such
    as [DOMContentLoaded], or an action dispatched under a type such as
    [itemSelected], never reaches a handler. *)
Theorem X5_upper_case_type_never_fires elementMatches ancestors stack steps origin e :
  Js.toLowerCase (e_type e) <> e_type e ->
  snd (fireEvent elementMatches ancestors stack origin e
         (run elementMatches ancestors stack steps initialState)) = [].
Proof.
  intros Hcase.
  destruct (run_agrees elementMatches ancestors stack steps (fun _ => []) initialState
              wf_initialState) as [[W1 _] Hag].
  { intros m type. reflexivity. }
  fold (currentBindings steps) in Hag.
  unfold fireEvent, dispatchEvent.
  destruct (propagate elementMatches (dispatcherAt elementMatches ancestors stack)
              (withTarget origin e)
              (origin :: (if e_bubbles e then ancestors origin else [])) noFlags
              (run elementMatches ancestors stack steps initialState))
    as [st2 inv] eqn:E.
  apply propagate_spec in E; [|exact (dispatcherAt_framed elementMatches ancestors stack)].
  destruct E as [_ Hs]. simpl.
  destruct inv as [|i rest]; [reflexivity|]. exfalso.
  destruct (Hs i (or_introl eq_refl)) as (_ & Hw & _).
  cbn [e_type withTarget] in Hw. rewrite W1 in Hw.
  apply (in_map (bindingOf (e_type e))) in Hw. rewrite Hag in Hw.
  unfold forType in Hw. apply List.filter_In in Hw. destruct Hw as [Hin Hty].
  destruct (fromEntries_currentBindings steps _ _ Hin) as (entry & He).
  apply bindEntry_lower in He. simpl in He. congruence.
Qed.

Lemma X5_upper_case_type_never_fires_witness :
  Js.toLowerCase "itemSelected" <> "itemSelected" /\
  snd (fireEvent pageMatches pageAncestors pageStack 1
         (nativeEvent "itemSelected" Js.Undefined Js.Undefined)
         (run pageMatches pageAncestors pageStack
            [applyTo 1 [[("itemSelected", handlerOf 1 [])]]] initialState)) = [].
Proof.
  split; [discriminate|].
  apply X5_upper_case_type_never_fires. discriminate.
Defined.

(** ** The meta filter on the events it was not made for *)

Lemma metaValue_not_del e : metaValue e <> "del".
Proof.
  unfold metaValue, fixMeta.
  destruct (String.eqb_spec (Js.toLowerCase (Js.String_ (comparisonField e))) "del") as [E|E];
    [discriminate | exact E].
Qed.

(** X6.  The fix-up of the live value turns [del] into [delete], and no
    such fix-up is made on the tokens of a key: a handler whose meta
    tokens are all [del] is never called, whatever the event.  Its
    wrapper returns early and leaves the state as it was, unless a
    selector of the key makes it throw before that. *)
Theorem X6_del_token_never_fires elementMatches dispatch w current e fl st :
  w_meta w <> [] ->
  (forall t, In t (w_meta w) -> t = "del") ->
  eventHandler elementMatches dispatch w current e fl st
  = (st, match delegationCheck elementMatches (w_delegates w) e with
         | inl x => Threw x
         | inr _ => Skipped
         end).
Proof.
  intros Hne Hall. unfold eventHandler.
  destruct (delegationCheck elementMatches (w_delegates w) e) as [x|[|]]; try reflexivity.
  destruct (metaPasses (w_meta w) e) eqn:E; [|reflexivity].
  apply metaPasses_iff in E. destruct E as [E|E]; [congruence|].
  apply Hall in E. exfalso. exact (metaValue_not_del e E).
Qed.

Lemma X6_del_token_never_fires_witness :
  let w := {| w_id := 0; w_handler := handlerOf 1 []; w_meta := tl (parseEventMeta "keydown.del");
              w_delegates := []; w_target := 1 |} in
  w_meta w = ["del"] /\
  eventHandler pageMatches (dispatcherAt pageMatches pageAncestors pageStack) w 1
    (keyEvent "keydown" "Del") noFlags initialState
  = (initialState, Skipped).
Proof.
  split; [reflexivity|].
  apply (X6_del_token_never_fires pageMatches
           (dispatcherAt pageMatches pageAncestors pageStack)
           {| w_id := 0; w_handler := handlerOf 1 []; w_meta := ["del"];
              w_delegates := []; w_target := 1 |}).
  - discriminate.
  - intros t [<-|[]]. reflexivity.
Defined.

Lemma metaValue_undefined e :
  metaEventMap (e_type e) = None -> metaValue e = "undefined".
Proof. unfold metaValue, comparisonField. intros ->. reflexivity. Qed.

(** X7.  The table of comparison fields has entries for keydown, keyup,
    keypress, mousedown and mouseup only.  On an event of any other type
    the live value is the string [undefined]: a handler bound with meta
    tokens for such a type is called (its selectors allowing) if and
    only if one of its tokens is [undefined], so that for instance
    [click.left] never runs. *)
Theorem X7_meta_on_other_events elementMatches dispatch w current e fl st :
  metaEventMap (e_type e) = None ->
  delegationPasses elementMatches (w_delegates w) e = true ->
  (snd (eventHandler elementMatches dispatch w current e fl st) <> Skipped
   <-> w_meta w = [] \/ In "undefined" (w_meta w)).
Proof.
  intros Hnone Hd.
  rewrite (eventHandler_not_skipped elementMatches dispatch w current e fl st Hd).
  rewrite metaPasses_iff, (metaValue_undefined e Hnone). reflexivity.
Qed.

Lemma X7_meta_on_other_events_witness :
  let w := {| w_id := 0; w_handler := handlerOf 1 []; w_meta := ["0"];
              w_delegates := []; w_target := 1 |} in
  (metaEventMap "click" = None /\
   delegationPasses pageMatches (w_delegates w) (mouseEvent "click" 0) = true) /\
  (snd (eventHandler pageMatches (dispatcherAt pageMatches pageAncestors pageStack) w 1
          (mouseEvent "click" 0) noFlags initialState) <> Skipped
   <-> w_meta w = [] \/ In "undefined" (w_meta w)).
Proof.
  split; [split; reflexivity|].
  apply (X7_meta_on_other_events pageMatches
           (dispatcherAt pageMatches pageAncestors pageStack)
           {| w_id := 0; w_handler := handlerOf 1 []; w_meta := ["0"];
              w_delegates := []; w_target := 1 |} 1
           (mouseEvent "click" 0) noFlags initialState); reflexivity.
Defined.

(** ** The flag of synchronous dispatch *)

Lemma async_rejects elementMatches ancestors st :
  async st = true -> rejectsDispatch elementMatches ancestors st.
Proof.
  intros H dispatch target action options.
  unfold dispatchActionAsEvent. rewrite H. reflexivity.
Qed.

Lemma async_callSetAttribute f : forall this attr value st,
  async (callSetAttribute f this attr value st) = async st.
Proof.
  induction f as [|target meta orig IH]; intros this attr value st; simpl; [reflexivity|].
  destruct (negb (String.eqb attr "disabled")); [apply IH | reflexivity].
Qed.

Lemma async_callRemoveAttribute f : forall this attr st,
  async (callRemoveAttribute f this attr st) = async st.
Proof.
  induction f as [|target meta orig IH]; intros this attr st; simpl; [reflexivity|].
  destruct (negb (String.eqb attr "disabled")); [apply IH | reflexivity].
Qed.

Lemma async_addEventListener n type l st :
  async (Dom.addEventListener n type l st) = async st.
Proof. unfold Dom.addEventListener. destruct (existsb _ _); reflexivity. Qed.

Lemma async_postPatchDisabledBug target meta st :
  async (postPatchDisabledBug target meta st) = async st.
Proof.
  unfold postPatchDisabledBug.
  destruct (default false _); unfold setAttribute, removeAttribute;
    [rewrite async_callSetAttribute | rewrite async_callRemoveAttribute]; reflexivity.
Qed.

Lemma syncDispatch_async elementMatches ancestors stack target action st :
  exists st' r,
    syncDispatch elementMatches ancestors stack target action st = (st', Normal r) /\
    async st' = true.
Proof.
  unfold syncDispatch, getTargetDispatcher, dispatchActionAsEvent.
  cbn [async set_async]. 
  match goal with
  | |- context [prePatchDisabledBug ?a ?b] =>
      destruct (prePatchDisabledBug a b) as [st1 meta]
  end.
  match goal with
  | |- context [dispatchEvent ?a ?b ?c ?d ?f ?g] =>
      destruct (dispatchEvent a b c d f g) as [st2 result]
  end.
  eexists _, _. split; reflexivity.
Qed.

Lemma async_removeListeners target entry st :
  async (removeListeners target entry st) = async st.
Proof.
  unfold removeListeners. destruct entry as [type ws]. simpl.
  revert st. induction ws as [|w ws IH]; intros st; simpl; [reflexivity|].
  rewrite IH. reflexivity.
Qed.

Lemma async_detach target m : forall st, async (detach target m st) = async st.
Proof.
  unfold detach. induction m as [|entry m IH]; intros st; simpl; [reflexivity|].
  rewrite IH. apply async_removeListeners.
Qed.

(** X8.  A lifecycle event always completes and leaves the flag of
    synchronous dispatch set, whatever the handlers it called did and
    whatever the flag was before.  So after an apply-call that returns,
    and after the removal of a target that had a registry entry, every
    dispatcher refuses to dispatch until a handler is called again. *)
Theorem X8_flag_set_after_lifecycle elementMatches ancestors stack st :
  (forall target action, exists st' r,
     syncDispatch elementMatches ancestors stack target action st = (st', Normal r) /\
     rejectsDispatch elementMatches ancestors st') /\
  (forall results target st' r,
     applyEventsToTarget elementMatches ancestors stack results target st = (st', Normal r) ->
     rejectsDispatch elementMatches ancestors st') /\
  (forall target st' r,
     removeTargetHandlers elementMatches ancestors stack target st = (st', Normal (Some r)) ->
     rejectsDispatch elementMatches ancestors st').
Proof.
  split; [|split].
  - intros target action.
    destruct (syncDispatch_async elementMatches ancestors stack target action st)
      as (st' & r & Heq & Ha).
    exists st', r. split; [exact Heq | apply async_rejects; exact Ha].
  - intros results target st' r H. apply async_rejects.
    unfold applyEventsToTarget, bind, lift, ret in H.
    destruct (applyEventMaps _ _ _) as [st1 [c|x]]; [|discriminate].
    destruct (c_added c).
    + destruct (syncDispatch_async elementMatches ancestors stack target addAction st1)
        as (st2 & r2 & Heq2 & _).
      rewrite Heq2 in H.
      destruct (syncDispatch_async elementMatches ancestors stack target applyAction st2)
        as (st3 & r3 & Heq3 & Ha).
      rewrite Heq3 in H. injection H as <- _. exact Ha.
    + destruct (syncDispatch_async elementMatches ancestors stack target applyAction st1)
        as (st3 & r3 & Heq3 & Ha).
      rewrite Heq3 in H. injection H as <- _. exact Ha.
  - intros target st' r H. apply async_rejects.
    unfold removeTargetHandlers in H.
    destruct (targetHandlers st !! target) as [m|]; [|discriminate].
    destruct (syncDispatch_async elementMatches ancestors stack target removeAction st)
      as (st2 & r2 & Heq2 & Ha).
    rewrite Heq2 in H. injection H as <- _.
    change (async (detach target m
                     (set_targetHandlers (delete target (targetHandlers st2)) st2)) = true).
    rewrite async_detach. exact Ha.
Qed.

Lemma dispatchActionAsEvent_returns elementMatches ancestors dispatch target action
    options st :
  async st = false ->
  exists st' inv,
    dispatchActionAsEvent elementMatches ancestors dispatch target action options st
    = (st', Normal inv).
Proof.
  intros H. unfold dispatchActionAsEvent. rewrite H.
  match goal with
  | |- context [prePatchDisabledBug ?a ?b] =>
      destruct (prePatchDisabledBug a b) as [st1 meta]
  end.
  match goal with
  | |- context [dispatchEvent ?a ?b ?c ?d ?f ?g] =>
      destruct (dispatchEvent a b c d f g) as [st2 result]
  end.
  eexists _, _. reflexivity.
Qed.

Lemma runBody_noDispatch dispatch target pre : forall rest fl st,
  noDispatch pre = true ->
  exists fl1 st1,
    async st1 = async st /\
    runBody dispatch target (pre ++ rest) fl st = runBody dispatch target rest fl1 st1.
Proof.
  induction pre as [|c pre IH]; intros rest fl st Hnd.
  - exists fl, st. split; reflexivity.
  - simpl in Hnd. apply andb_prop in Hnd. destruct Hnd as [Hc Hpre].
    destruct c as [action options|n attr value|n attr| | |action|message];
      try discriminate; simpl.
    + destruct (IH rest fl (setAttribute n attr value st) Hpre) as (fl1 & st1 & Ha & Heq).
      exists fl1, st1. split; [|exact Heq].
      rewrite Ha. apply async_callSetAttribute.
    + destruct (IH rest fl (removeAttribute n attr st) Hpre) as (fl1 & st1 & Ha & Heq).
      exists fl1, st1. split; [|exact Heq].
      rewrite Ha. apply async_callRemoveAttribute.
    + apply IH. exact Hpre.
    + apply IH. exact Hpre.
    + destruct (IH rest fl (set_timers (timers st ++ [(target, action)]) st) Hpre)
        as (fl1 & st1 & Ha & Heq).
      exists fl1, st1. split; [exact Ha | exact Heq].
Qed.

(** X9.  A wrapper clears the flag before it calls its handler, and
    setting attributes, stopping propagation and setting timers leave it
    cleared: the first dispatch a handler makes is accepted.  A handler
    that does not throw itself and whose only dispatch is its last
    statement completes without an exception, and the flag is set when
    its wrapper returns. *)
Theorem X9_first_dispatch_accepted elementMatches ancestors k w current e fl st
    pre action options :
  fires elementMatches e w = true ->
  h_body (w_handler w) = pre ++ [Dispatch action options] ->
  noDispatch pre = true ->
  exists st' fl',
    eventHandler elementMatches (dispatcherAt elementMatches ancestors (S k))
      w current e fl st = (st', Invoked fl' None) /\
    async st' = true.
Proof.
  intros Hf Hbody Hpre. unfold fires in Hf. apply andb_prop in Hf.
  destruct Hf as [Hd Hm]. apply delegationPasses_check in Hd.
  unfold eventHandler. rewrite Hd, Hm, Hbody. cbn [negb].
  set (st0 := logEntry (LogInvoke current (e_type e) (w_handler w)) (set_async false st)).
  destruct (runBody_noDispatch
              (dispatcherAt elementMatches ancestors (S k)) (w_target w) pre
              [Dispatch action options] fl st0 Hpre) as (fl1 & st1 & Ha & Heq).
  rewrite Heq. cbn [runBody dispatcherAt].
  destruct (dispatchActionAsEvent_returns elementMatches ancestors
              (dispatcherAt elementMatches ancestors k) (w_target w) action
              (default defaultInit options) st1) as (st2 & inv & Hret).
  { rewrite Ha. reflexivity. }
  rewrite Hret. eexists _, _. split; reflexivity.
Qed.

Lemma X9_first_dispatch_accepted_witness :
  let w := {| w_id := 0;
              w_handler := handlerOf 1 [SetAttribute 1 "class" "on";
                                        Dispatch (actionOf "changed") None];
              w_meta := []; w_delegates := []; w_target := 1 |} in
  (fires pageMatches clickEvent w = true /\
   h_body (w_handler w)
   = [SetAttribute 1 "class" "on"] ++ [Dispatch (actionOf "changed") None] /\
   noDispatch [SetAttribute 1 "class" "on"] = true) /\
  exists st' fl',
    eventHandler pageMatches (dispatcherAt pageMatches pageAncestors 1)
      w 1 clickEvent noFlags initialState = (st', Invoked fl' None) /\
    async st' = true.
Proof.
  split; [repeat split|].
  apply (X9_first_dispatch_accepted pageMatches pageAncestors 0
           {| w_id := 0;
              w_handler := handlerOf 1 [SetAttribute 1 "class" "on";
                                        Dispatch (actionOf "changed") None];
              w_meta := []; w_delegates := []; w_target := 1 |}
           1 clickEvent noFlags initialState
           [SetAttribute 1 "class" "on"] (actionOf "changed") None); reflexivity.
Defined.

(** ** Host actions *)

(** X11.  An apply-call and a removal concern one target: the registry
    entry of every other node, and the wrappers that listen on it, are
    after the call what they were before it, also when the call
    throws. *)
Theorem X11_other_targets_untouched elementMatches ancestors stack steps target n :
  n <> target ->
  let st := run elementMatches ancestors stack steps initialState in
  (forall results,
     let st' := fst (applyEventsToTarget elementMatches ancestors stack results target st) in
     targetHandlers st' !! n = targetHandlers st !! n /\
     wrappersOf st' n = wrappersOf st n) /\
  (let st' := fst (removeTargetHandlers elementMatches ancestors stack target st) in
   targetHandlers st' !! n = targetHandlers st !! n /\
   wrappersOf st' n = wrappersOf st n).
Proof.
  intros Hn st.
  pose proof (reachable_wf elementMatches ancestors stack steps) as Hwf. fold st in Hwf.
  split.
  - intros results.
    destruct (applyEventsToTarget_spec elementMatches ancestors stack results target st Hwf)
      as (st1 & r1 & Heq & _ & _ & _ & Hothers & _).
    rewrite Heq. simpl. destruct (Hothers n Hn) as [H1 H2]. split; assumption.
  - destruct (targetHandlers st !! target) as [m|] eqn:E.
    + destruct (removeTargetHandlers_some elementMatches ancestors stack target st Hwf)
        as (st1 & fired & Heq & _ & _ & Hreg & _ & Hothers & _).
      { rewrite E. eexists. reflexivity. }
      rewrite Heq. simpl. split; [|apply Hothers; exact Hn].
      rewrite Hreg. apply lookup_delete_ne. congruence.
    + rewrite (removeTargetHandlers_none elementMatches ancestors stack target st E).
      simpl. split; reflexivity.
Qed.

Lemma X11_other_targets_untouched_witness :
  2 <> 1 /\
  let st := run pageMatches pageAncestors pageStack
              [applyTo 2 [[("click", handlerOf 1 [])]]] initialState in
  wrappersOf (fst (applyEventsToTarget pageMatches pageAncestors pageStack
                     [[("click", handlerOf 2 [])]] 1 st)) 2
  = wrappersOf st 2.
Proof.
  split; [discriminate|].
  intros st.
  apply (proj1 (X11_other_targets_untouched pageMatches pageAncestors pageStack
                  [applyTo 2 [[("click", handlerOf 1 [])]]] 1 2 ltac:(discriminate))
           [[("click", handlerOf 2 [])]]).
Defined.

Lemma forEach_app {A} (f : A -> M unit) (a b : list A) : forall st,
  forEach f (a ++ b) st
  = match forEach f a st with
    | (st1, Normal _) => forEach f b st1
    | (st1, Throw x) => (st1, Throw x)
    end.
Proof.
  induction a as [|x a IH]; intros st; [reflexivity|].
  simpl. unfold bind. destruct (f x st) as [st1 [[]|e]]; [apply IH | reflexivity].
Qed.

(** X12.  The targets of one host action are handled in the order of
    the payload, and the first exception ends the action: handling a
    payload in one action comes to the same as handling its first part
    and then, unless that threw, the rest.  The targets listed after one
    whose apply-call throws are not applied. *)
Theorem X12_payloads_in_order elementMatches ancestors stack st :
  (forall a b,
     handler elementMatches ancestors stack (ApplyTargetResults (Some (a ++ b))) st
     = match handler elementMatches ancestors stack (ApplyTargetResults (Some a)) st with
       | (st1, Normal _) =>
           handler elementMatches ancestors stack (ApplyTargetResults (Some b)) st1
       | (st1, Throw x) => (st1, Throw x)
       end) /\
  (forall a b,
     handler elementMatches ancestors stack (TargetsRemoved (a ++ b)) st
     = match handler elementMatches ancestors stack (TargetsRemoved a) st with
       | (st1, Normal _) => handler elementMatches ancestors stack (TargetsRemoved b) st1
       | (st1, Throw x) => (st1, Throw x)
       end) /\
  (forall target results rest st' x,
     applyEventsToTarget elementMatches ancestors stack results target st = (st', Throw x) ->
     handler elementMatches ancestors stack
       (ApplyTargetResults (Some ((target, results) :: rest))) st = (st', Throw x)).
Proof.
  split; [|split].
  - intros a b. apply forEach_app.
  - intros a b. apply forEach_app.
  - intros target results rest st' x H. simpl. unfold bind at 1. unfold bind at 1.
    rewrite H. reflexivity.
Qed.

(** X13.  A report of removed targets never throws, whatever the
    handlers of [amara:remove] do: afterwards none of the reported
    targets has a registry entry or a wrapper listening, and the nodes
    that were not reported are as they were. *)
Theorem X13_removal_completes elementMatches ancestors stack steps payload :
  let st := run elementMatches ancestors stack steps initialState in
  exists st',
    handler elementMatches ancestors stack (TargetsRemoved payload) st = (st', Normal tt) /\
    (forall target, In target payload ->
       targetHandlers st' !! target = None /\ wrappersOf st' target = []) /\
    (forall n, ~ In n payload ->
       targetHandlers st' !! n = targetHandlers st !! n /\
       wrappersOf st' n = wrappersOf st n).
Proof.
  intros st.
  pose proof (reachable_wf elementMatches ancestors stack steps) as Hwf. fold st in Hwf.
  clearbody st. revert st Hwf.
  induction payload as [|t rest IH]; intros st Hwf.
  - exists st. split; [reflexivity|]. split; [intros target []|]. intros n _. split; reflexivity.
  - assert (exists st1 r,
              removeTargetHandlers elementMatches ancestors stack t st = (st1, Normal r) /\
              wf st1 /\
              targetHandlers st1 !! t = None /\ wrappersOf st1 t = [] /\
              (forall n, n <> t ->
                 targetHandlers st1 !! n = targetHandlers st !! n /\
                 wrappersOf st1 n = wrappersOf st n)) as (st1 & r & Heq & Hwf1 & Hr & Hw & Ho).
    { destruct (targetHandlers st !! t) as [m|] eqn:E.
      - destruct (removeTargetHandlers_some elementMatches ancestors stack t st Hwf)
          as (st1 & fired & Heq & Hwf1 & _ & Hreg & Hw & Hothers & _).
        { rewrite E. eexists. reflexivity. }
        exists st1, (Some (map (pair t) fired)). split; [exact Heq|].
        split; [exact Hwf1|]. split; [rewrite Hreg; apply lookup_delete_eq|].
        split; [exact Hw|]. intros n Hn. split; [|apply Hothers; exact Hn].
        rewrite Hreg. apply lookup_delete_ne. congruence.
      - exists st, None.
        split; [apply removeTargetHandlers_none; exact E|].
        split; [exact Hwf|]. split; [exact E|]. split.
        + destruct Hwf as [W1 W2].
          destruct (wrappersOf st t) as [|[type [w|]] l] eqn:Ew; [reflexivity| |].
          * assert (In w (regList st t type)) as Hin.
            { rewrite <- W1. apply In_wrappersFor, In_wrappersOf. rewrite Ew.
              left. reflexivity. }
            unfold regList, regOf in Hin. rewrite E in Hin. destruct Hin.
          * assert (In (type, LProxy) (wrappersOf st t)) as Hin
              by (rewrite Ew; left; reflexivity).
            unfold wrappersOf in Hin. apply List.filter_In in Hin.
            destruct Hin as [_ Hin]. discriminate.
        + intros n _. split; reflexivity. }
    destruct (IH st1 Hwf1) as (st2 & Heq2 & Hin2 & Hout2).
    exists st2. split; [|split].
    + simpl. unfold bind at 1. unfold bind at 1. rewrite Heq. unfold ret at 1.
      exact Heq2.
    + intros target [<-|Hin]; [|apply Hin2; exact Hin].
      destruct (in_dec Nat.eq_dec t rest) as [Hi|Hi]; [apply Hin2; exact Hi|].
      destruct (Hout2 t Hi) as [H1 H2]. rewrite H1, H2. split; assumption.
    + intros n Hn.
      assert (n <> t) as Hnt by (intros ->; apply Hn; left; reflexivity).
      assert (~ In n rest) as Hnr by (intros H; apply Hn; right; exact H).
      destruct (Hout2 n Hnr) as [H1 H2]. destruct (Ho n Hnt) as [H3 H4].
      rewrite H1, H2. split; assumption.
Qed.

(** ** What a dispatch calls *)



(** ** The workaround for disabled elements, what it leaves behind *)

Lemma postPatch_disabled_value target meta st :
  m_origSet meta = Native -> m_origRemove meta = Native ->
  attributeOf (postPatchDisabledBug target meta st) target "disabled" = None \/
  attributeOf (postPatchDisabledBug target meta st) target "disabled" = Some EmptyString.
Proof.
  intros Hos Hor. unfold postPatchDisabledBug.
  cbn [metaDisabled set_removeAttributeOf set_setAttributeOf].
  destruct (default false (metaDisabled st !! m_id meta)).
  - right. unfold setAttribute, slotOf. cbn [setAttributeOf set_removeAttributeOf set_setAttributeOf].
    rewrite lookup_insert_eq, Hos. cbn [default callSetAttribute].
    rewrite attributeOf_nativeSet, decide_True by auto. reflexivity.
  - left. unfold removeAttribute, slotOf.
    cbn [removeAttributeOf set_removeAttributeOf set_setAttributeOf].
    rewrite lookup_insert_eq, Hor. cbn [default callRemoveAttribute].
    rewrite attributeOf_nativeRemove, decide_True by auto. reflexivity.
Qed.

Lemma dispatch_disabled_value elementMatches ancestors dispatch target action options
    st st' inv :
  (forall n, slotOf (setAttributeOf st) n = Native /\
             slotOf (removeAttributeOf st) n = Native) ->
  dispatchActionAsEvent elementMatches ancestors dispatch target action options st
  = (st', Normal inv) ->
  attributeOf st' target "disabled" = None \/
  attributeOf st' target "disabled" = Some EmptyString.
Proof.
  intros Hnative. unfold dispatchActionAsEvent.
  destruct (async st); [discriminate|].
  set (st1 := match root st with
              | Some r => Dom.addEventListener r (a_type action) LProxy st
              | None => st
              end).
  assert (setAttributeOf st1 = setAttributeOf st /\
          removeAttributeOf st1 = removeAttributeOf st) as (e1 & e2).
  { subst st1. destruct (root st) as [r|]; [|auto].
    destruct (addEventListener_attributes r (a_type action) LProxy st) as (a & b & _).
    auto. }
  assert (m_origSet (snd (prePatchDisabledBug target st1)) = Native /\
          m_origRemove (snd (prePatchDisabledBug target st1)) = Native) as [Hos Hor].
  { unfold prePatchDisabledBug. cbn [snd m_origSet m_origRemove].
    rewrite e1, e2. apply Hnative. }
  destruct (prePatchDisabledBug target st1) as [st2 meta]. cbn [snd] in Hos, Hor.
  destruct (dispatchEvent _ _ _ _ _ _) as [st3 result].
  pose proof (postPatch_disabled_value target meta st3 Hos Hor) as Hv.
  destruct (root (postPatchDisabledBug target meta st3)) as [r|];
    intros [= <- _]; exact Hv.
Qed.

(** X15.  Where no dispatch is nested in another, the workaround for
    disabled elements does what its comment says.  In a state where every
    node has its native methods and the flag is cleared, a dispatch
    whose handlers neither dispatch nor throw returns and leaves every
    node with its native methods.  The functions it installs on the
    target meanwhile compare the name they are given with [disabled] as
    it is written: of the statements of the handlers, those count that
    name the attribute of the target in exactly that spelling.
    Afterwards the target has the disabled attribute if and only if the
    last of these set it, or there was none and the target had the
    attribute before; the attribute then has the empty string for value,
    whatever value it had or was given.  A statement that spells the
    name otherwise, say [DISABLED], goes to the element at once, where
    the platform lower-cases the name, and what it did to the disabled
    attribute is overridden when the dispatch ends.  Every other
    attribute is as the statements of the handlers, applied natively,
    leave it. *)
Theorem X15_disabled_workaround elementMatches ancestors dispatch target action
    options st :
  async st = false ->
  (forall n, slotOf (setAttributeOf st) n = Native /\
             slotOf (removeAttributeOf st) n = Native) ->
  (forall n type w, In (type, LWrapper w) (Dom.listenersOf st n) ->
                    noDispatch (h_body (w_handler w)) = true) ->
  exists st' inv,
    dispatchActionAsEvent elementMatches ancestors dispatch target action options st
    = (st', Normal inv) /\
    (forall n, slotOf (setAttributeOf st') n = Native /\
               slotOf (removeAttributeOf st') n = Native) /\
    attributeOf st' target "disabled"
    = (if lastDisabled target (executed inv) (Dom.hasAttribute target "disabled" st)
       then Some EmptyString else None) /\
    forall n attr, (n = target /\ attr = "disabled") \/
                   attributeOf st' n attr = attributeOf (nativeRun (executed inv) st) n attr.
Proof.
  intros Ha Hnative Hnd.
  destruct (dispatchActionAsEvent_returns elementMatches ancestors dispatch target action
              options st Ha) as (st' & inv & Heq).
  exists st', inv. split; [exact Heq|].
  destruct (disabled_restored_without_nesting elementMatches ancestors dispatch target
              action options st st' inv Hnative Hnd Heq) as (H1 & H2 & H3).
  split; [exact H1|]. split; [|exact H3].
  rewrite <- H2. rewrite hasAttribute_attributeOf.
  change (Dom.asciiLowerCase "disabled") with "disabled".
  destruct (dispatch_disabled_value elementMatches ancestors dispatch target action
              options st st' inv Hnative Heq) as [Hv|Hv]; rewrite Hv.
  - rewrite bool_decide_eq_false_2; [reflexivity|]. intros [x Hx]. discriminate.
  - rewrite bool_decide_eq_true_2; [reflexivity|]. eexists. reflexivity.
Qed.

Lemma X15_disabled_workaround_witness :
  let st := set_async false
              (fst (addHandlerForEvent keyContext
                      ("saved", handlerOf 1 [SetAttribute 1 "class" "done"])
                      (Dom.nativeSetAttribute 1 "disabled" "disabled" initialState))) in
  async st = false /\
  exists st' inv,
    dispatchActionAsEvent pageMatches pageAncestors
      (dispatcherAt pageMatches pageAncestors 0) 1 (actionOf "saved") defaultInit st
    = (st', Normal inv) /\
    attributeOf st' 1 "disabled"
    = (if lastDisabled 1 (executed inv) (Dom.hasAttribute 1 "disabled" st)
       then Some EmptyString else None).
Proof.
  intros st. split; [reflexivity|].
  destruct (X15_disabled_workaround pageMatches pageAncestors
              (dispatcherAt pageMatches pageAncestors 0) 1 (actionOf "saved")
              defaultInit st eq_refl) as (st' & inv & H1 & _ & H3 & _).
  - intros n. split; reflexivity.
  - intros n type w Hin.
    change (Dom.listenersOf st n)
      with (default [] ((<[1 := [("saved",
                                  LWrapper {| w_id := 0;
                                              w_handler := handlerOf 1 [SetAttribute 1 "class" "done"];
                                              w_meta := []; w_delegates := [];
                                              w_target := 1 |})]]>
                           (∅ : gmap node (list (string * Listener)))) !! n)) in Hin.
    destruct (decide (n = 1)) as [->|Hn].
    + rewrite lookup_insert_eq in Hin. destruct Hin as [Hin|[]].
      inversion Hin; subst. reflexivity.
    + rewrite lookup_insert_ne in Hin by congruence. destruct Hin.
  - exists st', inv. split; [exact H1 | exact H3].
Defined.

(** ** The proxy is taken off again, and the host is handed actions only *)

Lemma quiet_refl st : quiet st st.
Proof. split; [intros n type H; exact H | auto]. Qed.

Lemma quiet_trans st1 st2 st3 : quiet st1 st2 -> quiet st2 st3 -> quiet st1 st3.
Proof.
  intros [a1 a2] [b1 b2]. split; [|auto].
  intros n type H. apply a1, b1, H.
Qed.

Lemma quiet_same st st' :
  listeners st' = listeners st -> hostLog (log st') = hostLog (log st) -> quiet st st'.
Proof.
  intros Hl Hh. split.
  - intros n type. unfold Dom.listenersOf. rewrite Hl. auto.
  - unfold hostOK. rewrite Hh. auto.
Qed.

Lemma hostLog_app l1 l2 : hostLog (l1 ++ l2) = hostLog l1 ++ hostLog l2.
Proof. unfold hostLog. apply flat_map_app. Qed.

Lemma quiet_logEntry x st :
  (forall d, x <> LogHost d) -> quiet st (logEntry x st).
Proof.
  intros Hx. apply quiet_same; [reflexivity|].
  unfold logEntry. cbn [log set_log]. rewrite hostLog_app.
  destruct x; try (cbn; apply app_nil_r). exfalso. eapply Hx. reflexivity.
Qed.

Lemma same_callSetAttribute f : forall this attr value st,
  listeners (callSetAttribute f this attr value st) = listeners st /\
  log (callSetAttribute f this attr value st) = log st.
Proof.
  induction f as [|target meta orig IH]; intros this attr value st; simpl; [auto|].
  destruct (negb (String.eqb attr "disabled")); [apply IH | auto].
Qed.

Lemma same_callRemoveAttribute f : forall this attr st,
  listeners (callRemoveAttribute f this attr st) = listeners st /\
  log (callRemoveAttribute f this attr st) = log st.
Proof.
  induction f as [|target meta orig IH]; intros this attr st; simpl; [auto|].
  destruct (negb (String.eqb attr "disabled")); [apply IH | auto].
Qed.

Lemma same_prePatchDisabledBug target st :
  listeners (fst (prePatchDisabledBug target st)) = listeners st /\
  log (fst (prePatchDisabledBug target st)) = log st.
Proof.
  unfold prePatchDisabledBug. cbn [fst log listeners set_removeAttributeOf set_setAttributeOf].
  unfold removeAttribute.
  destruct (same_callRemoveAttribute
              (slotOf (removeAttributeOf
                 (set_metaDisabled
                    (<[freshMeta st := Dom.hasAttribute target "disabled" st]> (metaDisabled st))
                    st)) target)
              target "disabled"
              (set_metaDisabled
                 (<[freshMeta st := Dom.hasAttribute target "disabled" st]> (metaDisabled st))
                 st)) as [H1 H2].
  cbn [m_id] in *. split; [exact H1 | exact H2].
Qed.

Lemma same_postPatchDisabledBug target meta st :
  listeners (postPatchDisabledBug target meta st) = listeners st /\
  log (postPatchDisabledBug target meta st) = log st.
Proof.
  unfold postPatchDisabledBug.
  destruct (default false _); unfold setAttribute, removeAttribute.
  - match goal with
    | |- context [callSetAttribute ?f ?a ?b ?c ?d] =>
        destruct (same_callSetAttribute f a b c d) as [H1 H2]
    end.
    rewrite H1, H2. split; reflexivity.
  - match goal with
    | |- context [callRemoveAttribute ?f ?a ?b ?d] =>
        destruct (same_callRemoveAttribute f a b d) as [H1 H2]
    end.
    rewrite H1, H2. split; reflexivity.
Qed.

Lemma quiet_setAttribute n attr value st : quiet st (setAttribute n attr value st).
Proof.
  unfold setAttribute.
  destruct (same_callSetAttribute (slotOf (setAttributeOf st) n) n attr value st) as [H1 H2].
  apply quiet_same; [exact H1 | rewrite H2; reflexivity].
Qed.

Lemma quiet_removeAttribute n attr st : quiet st (removeAttribute n attr st).
Proof.
  unfold removeAttribute.
  destruct (same_callRemoveAttribute (slotOf (removeAttributeOf st) n) n attr st) as [H1 H2].
  apply quiet_same; [exact H1 | rewrite H2; reflexivity].
Qed.

Lemma registered_proxy type st n :
  existsb (Dom.isEntry type LProxy) (Dom.listenersOf st n) = true ->
  In (type, LProxy) (Dom.listenersOf st n).
Proof.
  intros H. apply existsb_exists in H. destruct H as ([t l] & Hin & He).
  unfold Dom.isEntry in He. simpl in He. apply andb_prop in He. destruct He as [Ht Hl].
  apply String.eqb_eq in Ht. subst t.
  destruct l as [w|]; [discriminate | exact Hin].
Qed.

Lemma noProxy_fewer st st' : fewerProxies st st' -> noProxy st -> noProxy st'.
Proof. intros Hf Hn n type H. apply (Hn n type), Hf, H. Qed.

Lemma quiet_proxyToAmara e st :
  custom e \/ noProxy st ->
  forall current,
    existsb (Dom.isEntry (e_type e) LProxy) (Dom.listenersOf st current) = true ->
    quiet st (proxyToAmara e st).
Proof.
  intros Hc current Hreg.
  destruct Hc as [(a & Hd & Ht)|Hn].
  - unfold proxyToAmara.
    destruct (negb (Js.startsWith lifecyclePrefix (e_type e))) eqn:E; [|apply quiet_refl].
    split; [intros n type H; exact H|].
    intros Hok d Hin. unfold logEntry in Hin. cbn [log set_log] in Hin.
    rewrite hostLog_app in Hin. apply in_app_or in Hin.
    destruct Hin as [Hin|Hin]; [apply Hok; exact Hin|].
    cbn in Hin. destruct Hin as [<-|[]].
    exists a. split; [exact Hd|]. rewrite Ht. apply negb_true_iff. exact E.
  - exfalso. apply registered_proxy in Hreg. exact (Hn _ _ Hreg).
Qed.

Section ProxyProperties.

Variable elementMatches : node -> string -> option bool.
Variable ancestors : node -> list node.

Section WithDispatch.

Variable dispatch : node -> Action -> EventInit -> M (list Invocation).
Hypothesis dispatch_framed : forall target action options,
  framed (dispatch target action options).
Hypothesis dispatch_quiet : forall target action options st,
  quiet st (fst (dispatch target action options st)).

Lemma runBody_quiet target body : forall fl st,
  quiet st (fst (runBody dispatch target body fl st)).
Proof.
  induction body as [|c rest IH]; intros fl st; [apply quiet_refl|].
  destruct c as [action options|n attr value|n attr| | |action|message]; simpl.
  - pose proof (dispatch_quiet target action (default defaultInit options) st) as Hq.
    destruct (dispatch target action (default defaultInit options) st) as [st1 [r|x]];
      simpl in Hq.
    + eapply quiet_trans; [exact Hq | apply IH].
    + exact Hq.
  - eapply quiet_trans; [apply quiet_setAttribute | apply IH].
  - eapply quiet_trans; [apply quiet_removeAttribute | apply IH].
  - apply IH.
  - apply IH.
  - eapply quiet_trans; [|apply IH]. apply quiet_same; reflexivity.
  - apply quiet_refl.
Qed.

Lemma eventHandler_quiet w current e fl st :
  quiet st (fst (eventHandler elementMatches dispatch w current e fl st)).
Proof.
  unfold eventHandler.
  destruct (delegationCheck elementMatches (w_delegates w) e) as [x|[|]];
    [apply quiet_refl| |apply quiet_refl].
  destruct (negb (metaPasses (w_meta w) e)); [apply quiet_refl|].
  set (st0 := logEntry (LogInvoke current (e_type e) (w_handler w)) (set_async false st)).
  assert (quiet st st0) as H0.
  { eapply quiet_trans; [|apply quiet_logEntry; discriminate].
    apply quiet_same; reflexivity. }
  pose proof (runBody_quiet (w_target w) (h_body (w_handler w)) fl st0) as H1.
  destruct (runBody dispatch (w_target w) (h_body (w_handler w)) fl st0)
    as [st1 [fl1 [x|]]]; simpl in *.
  - eapply quiet_trans; eassumption.
  - eapply quiet_trans; [exact H0|]. eapply quiet_trans; [exact H1|].
    apply quiet_same; reflexivity.
Qed.

Lemma quiet_report x st : quiet st (report x st).
Proof.
  destruct x as [x|]; [|apply quiet_refl]. apply quiet_logEntry. discriminate.
Qed.

Lemma invokeListeners_quiet current e snapshot : forall fl st,
  custom e \/ noProxy st ->
  quiet st (fst (invokeListeners elementMatches dispatch current e snapshot fl st)).
Proof.
  induction snapshot as [|l rest IH]; intros fl st Hc; [apply quiet_refl|].
  simpl. destruct (stoppedImmediate fl); [apply quiet_refl|].
  destruct (existsb (Dom.isEntry (e_type e) l) (Dom.listenersOf st current)) eqn:Hreg;
    cbn [negb]; [|apply IH; exact Hc].
  assert (forall st1, quiet st st1 -> custom e \/ noProxy st1) as Hnext.
  { intros st1 [Hf _]. destruct Hc as [Hc|Hc]; [left; exact Hc|].
    right. eapply noProxy_fewer; eassumption. }
  destruct l as [w|].
  - pose proof (eventHandler_quiet w current e fl st) as H1.
    destruct (eventHandler elementMatches dispatch w current e fl st)
      as [st1 [|x|fl1 thrown]]; simpl in H1.
    + eapply quiet_trans; [exact H1 | apply IH, Hnext, H1].
    + assert (quiet st (report (Some x) st1)) as H2
        by (eapply quiet_trans; [exact H1 | apply quiet_report]).
      eapply quiet_trans; [exact H2 | apply IH, Hnext, H2].
    + assert (quiet st (report thrown st1)) as H2
        by (eapply quiet_trans; [exact H1 | apply quiet_report]).
      pose proof (IH fl1 (report thrown st1) (Hnext _ H2)) as H3.
      destruct (invokeListeners elementMatches dispatch current e rest fl1
                  (report thrown st1)) as [st2 [fl2 inv]].
      simpl in *. eapply quiet_trans; eassumption.
  - assert (quiet st (proxyToAmara e st)) as H1
      by (apply (quiet_proxyToAmara e st Hc current Hreg)).
    eapply quiet_trans; [exact H1 | apply IH, Hnext, H1].
Qed.

Lemma propagate_quiet e path : forall fl st,
  custom e \/ noProxy st ->
  quiet st (fst (propagate elementMatches dispatch e path fl st)).
Proof.
  induction path as [|n rest IH]; intros fl st Hc; [apply quiet_refl|].
  simpl. destruct (stopped fl); [apply quiet_refl|].
  pose proof (invokeListeners_quiet n e (listenersFor st n (e_type e)) fl st Hc) as H1.
  destruct (invokeListeners elementMatches dispatch n e (listenersFor st n (e_type e)) fl st)
    as [st1 [fl1 inv]]. simpl in H1.
  assert (custom e \/ noProxy st1) as Hc1.
  { destruct Hc as [Hc|Hc]; [left; exact Hc|].
    right. eapply noProxy_fewer; [apply H1 | exact Hc]. }
  pose proof (IH fl1 st1 Hc1) as H2.
  destruct (propagate elementMatches dispatch e rest fl1 st1) as [st2 inv2].
  simpl in *. eapply quiet_trans; eassumption.
Qed.

Lemma dispatchEvent_quiet target e st :
  custom e \/ noProxy st ->
  quiet st (fst (dispatchEvent elementMatches ancestors dispatch target e st)).
Proof.
  intros Hc. unfold dispatchEvent. apply propagate_quiet.
  destruct Hc as [(a & Hd & Ht)|Hc]; [left; exists a; split; assumption | right; exact Hc].
Qed.

Lemma dispatchActionAsEvent_quiet target action options st :
  quiet st (fst (dispatchActionAsEvent elementMatches ancestors dispatch target action
                   options st)).
Proof.
  unfold dispatchActionAsEvent. destruct (async st); [apply quiet_refl|].
  set (st1 := match root st with
              | Some r => Dom.addEventListener r (a_type action) LProxy st
              | None => st
              end).
  assert (frame st st1) as F1.
  { subst st1. destruct (root st); [apply frame_addProxy | apply frame_refl]. }
  assert (log st1 = log st) as L1.
  { subst st1. destruct (root st) as [r|]; [|reflexivity].
    unfold Dom.addEventListener. destruct (existsb _ _); reflexivity. }
  pose proof (frame_prePatchDisabledBug target st1) as F2.
  destruct (same_prePatchDisabledBug target st1) as [S2 L2].
  destruct (prePatchDisabledBug target st1) as [st2 meta]. cbn [fst] in F2, S2, L2.
  pose proof (dispatchEvent_frame elementMatches ancestors dispatch dispatch_framed
                target (customEvent action options) st2) as F3.
  pose proof (dispatchEvent_quiet target (customEvent action options) st2) as Q3.
  destruct (dispatchEvent elementMatches ancestors dispatch target
              (customEvent action options) st2) as [st3 result].
  cbn [fst] in F3, Q3.
  destruct Q3 as [Q3 H3].
  { left. exists action. split; reflexivity. }
  pose proof (frame_postPatchDisabledBug target meta st3) as F4.
  destruct (same_postPatchDisabledBug target meta st3) as [S4 L4].
  set (st4 := postPatchDisabledBug target meta st3) in *.
  assert (root st4 = root st) as Hroot.
  { destruct F1 as [a _]. destruct F2 as [b _]. destruct F3 as [c _]. destruct F4 as [d _].
    congruence. }
  cbn [fst].
  assert (hostOK st -> hostOK st4) as Hhost.
  { intros Hok. unfold hostOK. rewrite L4. apply H3. unfold hostOK. rewrite L2, L1. exact Hok. }
  assert (forall n type, In (type, LProxy) (Dom.listenersOf st4 n) ->
                         In (type, LProxy) (Dom.listenersOf st1 n)) as Hfew.
  { intros n type H. unfold Dom.listenersOf in *. rewrite S4 in H.
    apply Q3 in H. unfold Dom.listenersOf in H. rewrite S2 in H. exact H. }
  rewrite Hroot. subst st1. destruct (root st) as [r|].
  - split.
    + intros n type H. unfold Dom.removeEventListener in H.
      rewrite listenersOf_insert in H.
      destruct (decide (r = n)) as [->|Hn].
      * apply List.filter_In in H. destruct H as [H Hne].
        apply Hfew in H. unfold Dom.addEventListener in H.
        destruct (existsb _ _); [exact H|].
        rewrite listenersOf_insert in H. destruct (decide (n = n)); [|congruence].
        apply in_app_or in H. destruct H as [H|[H|[]]]; [exact H|].
        exfalso. inversion H; subst type.
        unfold Dom.isEntry in Hne. simpl in Hne. rewrite String.eqb_refl in Hne.
        discriminate.
      * apply Hfew in H. unfold Dom.addEventListener in H.
        destruct (existsb _ _); [exact H|].
        rewrite listenersOf_insert in H. destruct (decide (r = n)); [congruence | exact H].
    + intros Hok. exact (Hhost Hok).
  - split; [|exact Hhost]. exact Hfew.
Qed.

End WithDispatch.

Lemma dispatcherAt_quiet k : forall target action options st,
  quiet st (fst (dispatcherAt elementMatches ancestors k target action options st)).
Proof.
  induction k as [|k IH]; intros target action options st; [apply quiet_refl|].
  simpl. apply dispatchActionAsEvent_quiet; [|exact IH].
  apply dispatcherAt_framed.
Qed.

Variable stack : nat.

Lemma getTargetDispatcher_quiet target action options st :
  quiet st (fst (getTargetDispatcher elementMatches ancestors stack target action options st)).
Proof.
  apply dispatchActionAsEvent_quiet; [apply dispatcherAt_framed | apply dispatcherAt_quiet].
Qed.

Lemma syncDispatch_quiet target action st :
  quiet st (fst (syncDispatch elementMatches ancestors stack target action st)).
Proof.
  unfold syncDispatch.
  set (st0 := set_async false (logEntry (LogLifecycle target (a_type action)) st)).
  assert (quiet st st0) as H0.
  { eapply quiet_trans;
      [apply (quiet_logEntry (LogLifecycle target (a_type action))); discriminate|].
    apply quiet_same; reflexivity. }
  pose proof (getTargetDispatcher_quiet target action emptyInit st0) as H1.
  destruct (getTargetDispatcher elementMatches ancestors stack target action emptyInit st0)
    as [st1 [r|x]]; simpl in *.
  - eapply quiet_trans; [exact H0|]. eapply quiet_trans; [exact H1|].
    apply quiet_same; reflexivity.
  - eapply quiet_trans; eassumption.
Qed.

Lemma quiet_detach target m st : quiet st (detach target m st).
Proof.
  destruct (detach_spec target m st) as [(Hlog & _ & _ & _ & _ & Hothers) Hin].
  split.
  - intros n type H. destruct (decide (n = target)) as [->|Hn].
    + apply Hin in H. apply H.
    + rewrite (Hothers n Hn) in H. exact H.
  - unfold hostOK. rewrite Hlog. auto.
Qed.

Lemma quiet_clearTarget target st : quiet st (clearTarget target st).
Proof.
  unfold clearTarget. destruct (targetHandlers st !! target) as [m|]; [|apply quiet_refl].
  eapply quiet_trans; [apply (quiet_detach target m st)|]. apply quiet_same; reflexivity.
Qed.

Lemma quiet_addHandlerForEvent this entry st :
  quiet st (fst (addHandlerForEvent this entry st)).
Proof.
  unfold addHandlerForEvent. destruct entry as [key h].
  destruct (rxEventAndSelectors key) as [[eventMeta selectors]|]; [|apply quiet_refl].
  destruct (parseEventMeta eventMeta) as [|event meta]; [apply quiet_refl|].
  destruct (Js.startsWith lifecyclePrefix event
            && negb (Nat.eqb (List.length (parseDelegates selectors)) 0));
    [apply quiet_refl|].
  destruct (targetHandlers st !! c_target this) as [m|]; cbn [fst];
    (split; [|unfold hostOK; cbn [log set_targetHandlers];
               unfold Dom.addEventListener; destruct (existsb _ _); auto]);
    intros n type H; cbn [Dom.listenersOf listeners set_targetHandlers] in H;
    unfold Dom.addEventListener in H;
    match type of H with
    | context [existsb ?f ?l] => destruct (existsb f l)
    end;
    try exact H;
    change (In (type, LProxy)
              (Dom.listenersOf
                 (set_listeners
                    (<[c_target this :=
                         Dom.listenersOf (set_nextId (S (nextId st)) st) (c_target this)
                         ++ [(event, LWrapper {| w_id := nextId st; w_handler := h;
                                                 w_meta := meta;
                                                 w_delegates := parseDelegates selectors;
                                                 w_target := c_target this |})]]>
                       (listeners (set_nextId (S (nextId st)) st)))
                    (set_nextId (S (nextId st)) st)) n)) in H;
    rewrite listenersOf_insert in H;
    (destruct (decide (c_target this = n)) as [->|Hn]; [|exact H]);
    apply in_app_or in H; (destruct H as [H|[H|[]]]; [exact H | discriminate]).
Qed.

Lemma applyEventMap_quiet map : forall this st,
  quiet st (fst (applyEventMap this map st)).
Proof.
  induction map as [|entry rest IH]; intros this st; [apply quiet_refl|].
  rewrite applyEventMap_cons.
  pose proof (quiet_addHandlerForEvent this entry st) as H1.
  destruct (addHandlerForEvent this entry st) as [st1 [this1|x]]; simpl in H1.
  - eapply quiet_trans; [exact H1 | apply IH].
  - exact H1.
Qed.

Lemma applyEventsToTarget_quiet results target st :
  quiet st (fst (applyEventsToTarget elementMatches ancestors stack results target st)).
Proof.
  unfold applyEventsToTarget, bind, lift, ret.
  pose proof (quiet_clearTarget target st) as H0.
  rewrite applyEventMaps_concat.
  pose proof (applyEventMap_quiet (concat results) {| c_target := target; c_added := false |}
                (clearTarget target st)) as H1.
  destruct (applyEventMap _ (concat results) (clearTarget target st)) as [st1 [c|x]];
    simpl in H1; [|eapply quiet_trans; eassumption].
  assert (quiet st st1) as H01 by (eapply quiet_trans; eassumption).
  destruct (c_added c).
  - pose proof (syncDispatch_quiet target addAction st1) as H2.
    destruct (syncDispatch elementMatches ancestors stack target addAction st1)
      as [st2 [r2|x2]]; simpl in H2; [|eapply quiet_trans; eassumption].
    pose proof (syncDispatch_quiet target applyAction st2) as H3.
    destruct (syncDispatch elementMatches ancestors stack target applyAction st2)
      as [st3 [r3|x3]]; simpl in H3;
      (eapply quiet_trans; [exact H01|]; eapply quiet_trans; eassumption).
  - pose proof (syncDispatch_quiet target applyAction st1) as H3.
    destruct (syncDispatch elementMatches ancestors stack target applyAction st1)
      as [st3 [r3|x3]]; simpl in H3; eapply quiet_trans; eassumption.
Qed.

Lemma removeTargetHandlers_quiet target st :
  quiet st (fst (removeTargetHandlers elementMatches ancestors stack target st)).
Proof.
  unfold removeTargetHandlers.
  destruct (targetHandlers st !! target) as [m|]; [|apply quiet_refl].
  pose proof (syncDispatch_quiet target removeAction st) as H1.
  destruct (syncDispatch elementMatches ancestors stack target removeAction st)
    as [st1 [r|x]]; simpl in H1; [|exact H1].
  cbn [fst]. eapply quiet_trans; [exact H1|].
  eapply quiet_trans; [|apply (quiet_detach target m)]. apply quiet_same; reflexivity.
Qed.

Lemma forEach_quiet {A} (f : A -> M unit) (arr : list A) :
  (forall x st, quiet st (fst (f x st))) ->
  forall st, quiet st (fst (forEach f arr st)).
Proof.
  intros Hf. induction arr as [|x rest IH]; intros st; [apply quiet_refl|].
  simpl. unfold bind. pose proof (Hf x st) as H1.
  destruct (f x st) as [st1 [[]|e]]; simpl in H1.
  - eapply quiet_trans; [exact H1 | apply IH].
  - exact H1.
Qed.

Lemma handler_quiet action st :
  quiet st (fst (handler elementMatches ancestors stack action st)).
Proof.
  destruct action as [target|[events|]|payload|type]; simpl.
  - apply quiet_same; reflexivity.
  - apply forEach_quiet. intros [target results] st0. unfold bind. simpl.
    pose proof (applyEventsToTarget_quiet results target st0) as H.
    destruct (applyEventsToTarget _ _ _ _ _ _) as [st1 [r|x]]; exact H.
  - apply quiet_refl.
  - apply forEach_quiet. intros target st0. unfold bind.
    pose proof (removeTargetHandlers_quiet target st0) as H.
    destruct (removeTargetHandlers _ _ _ _ _) as [st1 [r|x]]; exact H.
  - apply quiet_refl.
Qed.

Lemma step_keeps s st :
  noProxy st /\ hostOK st ->
  noProxy (step elementMatches ancestors stack s st) /\
  hostOK (step elementMatches ancestors stack s st).
Proof.
  intros [Hn Hh].
  assert (quiet st (step elementMatches ancestors stack s st)) as [Q1 Q2].
  { destruct s as [action|target e|]; simpl.
    - apply handler_quiet.
    - unfold fireEvent. apply dispatchEvent_quiet.
      + apply dispatcherAt_quiet.
      + right. exact Hn.
    - unfold runTimer. destruct (timers st) as [|[target action] rest]; [apply quiet_refl|].
      pose proof (getTargetDispatcher_quiet target action defaultInit (set_timers rest st))
        as H1.
      destruct (getTargetDispatcher _ _ _ _ _ _ _) as [st1 [r|x]]; simpl in H1.
      + eapply quiet_trans; [|exact H1]. apply quiet_same; reflexivity.
      + eapply quiet_trans; [|apply (quiet_logEntry (LogUncaught x)); discriminate].
        eapply quiet_trans; [|exact H1]. apply quiet_same; reflexivity. }
  split; [eapply noProxy_fewer; eassumption | auto].
Qed.

Lemma run_keeps steps : forall st,
  noProxy st /\ hostOK st ->
  noProxy (run elementMatches ancestors stack steps st) /\
  hostOK (run elementMatches ancestors stack steps st).
Proof.
  unfold run. induction steps as [|s rest IH]; intros st H; [exact H|].
  simpl. apply IH, step_keeps, H.
Qed.

Lemma reachable_keeps steps :
  noProxy (run elementMatches ancestors stack steps initialState) /\
  hostOK (run elementMatches ancestors stack steps initialState).
Proof.
  apply run_keeps. split.
  - intros n type H. unfold Dom.listenersOf in H. simpl in H.
    rewrite lookup_empty in H. destruct H.
  - intros d [].
Qed.

End ProxyProperties.

Lemma wrappersIn_all ls :
  ~ In LProxy ls -> map LWrapper (wrappersIn ls) = ls.
Proof.
  induction ls as [|l ls IH]; intros H; [reflexivity|].
  destruct l as [w|].
  - cbn. f_equal. apply IH. intros Hin. apply H. right. exact Hin.
  - exfalso. apply H. left. reflexivity.
Qed.

Lemma In_listenersFor st n type l :
  In l (listenersFor st n type) <-> In (type, l) (Dom.listenersOf st n).
Proof.
  unfold listenersFor. rewrite List.in_map_iff. split.
  - intros ([t l'] & Hl & Hin). simpl in Hl. subst l'.
    apply List.filter_In in Hin. destruct Hin as [Hin Ht]. simpl in Ht.
    apply String.eqb_eq in Ht. subst t. exact Hin.
  - intros Hin. exists (type, l). split; [reflexivity|].
    apply List.filter_In. split; [exact Hin | apply String.eqb_refl].
Qed.

(** ** Handlers are called in the order of the registry *)




Section CalledInOrder.

Variable elementMatches : node -> string -> option bool.
Variable dispatch : node -> Action -> EventInit -> M (list Invocation).







Hypothesis dispatch_framed : forall target action options,
  framed (dispatch target action options).



End CalledInOrder.





Lemma In_hostLog d l : In (LogHost d) l -> In d (hostLog l).
Proof.
  intros H. unfold hostLog. apply in_flat_map. exists (LogHost d).
  split; [exact H | left; reflexivity].
Qed.

(** X16.  The proxy that hands actions to the host is registered on the
    root for the time of a dispatch only.  Whatever the host has asked
    for, whatever events were fired and whatever the handlers did,
    between two steps no node has the proxy among its listeners, and
    what listens on a node for an event type is exactly the wrappers of
    its registry entry for that type, in their order: re-applying a
    target or removing it leaves no listener behind. *)
Theorem X16_listeners_are_the_registry elementMatches ancestors stack steps n :
  let st := run elementMatches ancestors stack steps initialState in
  (forall type, ~ In (type, LProxy) (Dom.listenersOf st n)) /\
  (forall type, listenersFor st n type = map LWrapper (regList st n type)).
Proof.
  intros st.
  destruct (reachable_keeps elementMatches ancestors stack steps) as [Hn _].
  destruct (reachable_wf elementMatches ancestors stack steps) as [W1 _].
  fold st in Hn, W1. split; [apply Hn|].
  intros type. rewrite <- W1. unfold wrappersFor. symmetry. apply wrappersIn_all.
  intros H. apply In_listenersFor in H. exact (Hn _ _ H).
Qed.

(** X17.  The host is handed nothing but actions that handlers have
    dispatched, and never a lifecycle action: whatever is forwarded to
    it is the detail of an event made by a dispatcher, and its type
    does not start with [amara:]. *)
Theorem X17_host_gets_actions_only elementMatches ancestors stack steps d :
  In (LogHost d) (log (run elementMatches ancestors stack steps initialState)) ->
  exists a, d = Some a /\ Js.startsWith lifecyclePrefix (a_type a) = false.
Proof.
  intros H.
  destruct (reachable_keeps elementMatches ancestors stack steps) as [_ Hh].
  apply Hh, In_hostLog, H.
Qed.

Lemma X17_host_gets_actions_only_witness :
  In (LogHost (Some (actionOf "test")))
     (log (run pageMatches pageAncestors pageStack
             [Host (Bootstrap 0);
              applyTo 1 [[("click", handlerOf 1 [Dispatch (actionOf "test") None])]];
              Fire 1 clickEvent] initialState)) /\
  exists a, Some (actionOf "test") = Some a /\
            Js.startsWith lifecyclePrefix (a_type a) = false.
Proof.
  assert (In (LogHost (Some (actionOf "test")))
            (log (run pageMatches pageAncestors pageStack
                    [Host (Bootstrap 0);
                     applyTo 1 [[("click", handlerOf 1 [Dispatch (actionOf "test") None])]];
                     Fire 1 clickEvent] initialState))) as H.
  { vm_compute. right. right. right. left. reflexivity. }
  split; [exact H|].
  exact (X17_host_gets_actions_only pageMatches pageAncestors pageStack _ _ H).
Defined.

(** ** What reaches the host *)

Section Calm.

Variable elementMatches : node -> string -> option bool.
Variable ancestors : node -> list node.
Variable dispatch : node -> Action -> EventInit -> M (list Invocation).

Lemma runBody_calm target body : forall fl st,
  calm body = true ->
  exists st' x,
    runBody dispatch target body fl st = (st', (fl, x)) /\
    root st' = root st /\
    listeners st' = listeners st /\ hostLog (log st') = hostLog (log st).
Proof.
  induction body as [|c rest IH]; intros fl st Hc.
  - exists st, None. repeat split.
  - simpl in Hc. apply andb_prop in Hc. destruct Hc as [Hc Hrest].
    destruct c as [action options|n attr value|n attr| | |action|message];
      try discriminate; simpl.
    + destruct (IH fl (setAttribute n attr value st) Hrest)
        as (st' & x & Heq & Hr & Hl & Hh).
      exists st', x. split; [exact Heq|].
      destruct (frame_setAttribute n attr value st) as [R _].
      unfold setAttribute in Hl, Hh.
      destruct (same_callSetAttribute (slotOf (setAttributeOf st) n) n attr value st)
        as [H1 H2].
      rewrite Hr, R, Hl, Hh, H1, H2. repeat split.
    + destruct (IH fl (removeAttribute n attr st) Hrest)
        as (st' & x & Heq & Hr & Hl & Hh).
      exists st', x. split; [exact Heq|].
      destruct (frame_removeAttribute n attr st) as [R _].
      unfold removeAttribute in Hl, Hh.
      destruct (same_callRemoveAttribute (slotOf (removeAttributeOf st) n) n attr st)
        as [H1 H2].
      rewrite Hr, R, Hl, Hh, H1, H2. repeat split.
    + destruct (IH fl (set_timers (timers st ++ [(target, action)]) st) Hrest)
        as (st' & x & Heq & Hr & Hl & Hh).
      exists st', x. split; [exact Heq|]. rewrite Hr, Hl, Hh. repeat split.
    + exists st, (Some (Js.Error message)). repeat split.
Qed.

Lemma eventHandler_calm w current e fl st :
  calm (h_body (w_handler w)) = true ->
  exists st' out,
    eventHandler elementMatches dispatch w current e fl st = (st', out) /\
    (out = Skipped \/ (exists x, out = Threw x) \/ exists x, out = Invoked fl x) /\
    root st' = root st /\
    listeners st' = listeners st /\ hostLog (log st') = hostLog (log st).
Proof.
  intros Hc. unfold eventHandler.
  destruct (delegationCheck elementMatches (w_delegates w) e) as [x|[|]];
    [exists st, (Threw x); repeat split; right; left; eexists; reflexivity
    | |exists st, Skipped; repeat split; left; reflexivity].
  destruct (negb (metaPasses (w_meta w) e));
    [exists st, Skipped; repeat split; left; reflexivity|].
  set (st0 := logEntry (LogInvoke current (e_type e) (w_handler w)) (set_async false st)).
  assert (listeners st0 = listeners st /\ hostLog (log st0) = hostLog (log st)) as [L0 H0].
  { split; [reflexivity|]. subst st0. unfold logEntry. cbn [log set_log set_async].
    rewrite hostLog_app. cbn. apply app_nil_r. }
  destruct (runBody_calm (w_target w) (h_body (w_handler w)) fl st0 Hc)
    as (st1 & x & Heq & Hr & Hl & Hh).
  rewrite Heq. destruct x as [x|].
  - exists st1, (Invoked fl (Some x)). split; [reflexivity|].
    split; [right; right; eexists; reflexivity|]. rewrite Hr, Hl, Hh.
    split; [reflexivity|]. split; assumption.
  - exists (set_async true st1), (Invoked fl None). split; [reflexivity|].
    split; [right; right; eexists; reflexivity|]. cbn [root listeners log set_async].
    rewrite Hr, Hl, Hh. split; [reflexivity|]. split; assumption.
Qed.

Lemma listenersOf_same st st' n :
  listeners st' = listeners st -> Dom.listenersOf st' n = Dom.listenersOf st n.
Proof. unfold Dom.listenersOf. intros ->. reflexivity. Qed.

Lemma invokeListeners_calm current e snapshot : forall fl st,
  stoppedImmediate fl = false ->
  (forall w, In (LWrapper w) snapshot -> calm (h_body (w_handler w)) = true) ->
  (forall l, In l snapshot ->
     existsb (Dom.isEntry (e_type e) l) (Dom.listenersOf st current) = true) ->
  exists st' inv,
    invokeListeners elementMatches dispatch current e snapshot fl st = (st', (fl, inv)) /\
    root st' = root st /\
    listeners st' = listeners st /\
    hostLog (log st') = hostLog (log st) ++ proxied e snapshot.
Proof.
  induction snapshot as [|l rest IH]; intros fl st Hfl Hcalm Hreg.
  - exists st, []. split; [reflexivity|]. split; [reflexivity|]. split; [reflexivity|].
    cbn. rewrite app_nil_r. reflexivity.
  - simpl. rewrite Hfl. rewrite (Hreg l (or_introl eq_refl)). cbn [negb].
    assert (forall st1, listeners st1 = listeners st ->
              forall l', In l' rest ->
                existsb (Dom.isEntry (e_type e) l') (Dom.listenersOf st1 current) = true)
      as Hreg'.
    { intros st1 Hl l' Hin. rewrite (listenersOf_same st st1 current Hl).
      apply Hreg. right. exact Hin. }
    assert (forall w, In (LWrapper w) rest -> calm (h_body (w_handler w)) = true)
      as Hcalm' by (intros w Hin; apply Hcalm; right; exact Hin).
    destruct l as [w|].
    + destruct (eventHandler_calm w current e fl st (Hcalm w (or_introl eq_refl)))
        as (st1 & out & Heq & Hout & Hr & Hl & Hh).
      rewrite Heq. destruct Hout as [->|[[x ->]|[x ->]]].
      * destruct (IH fl st1 Hfl Hcalm' (Hreg' st1 Hl))
          as (st2 & inv & Heq2 & Hr2 & Hl2 & Hh2).
        exists st2, inv. split; [exact Heq2|]. split; [congruence|].
        split; [congruence|]. rewrite Hh2, Hh. reflexivity.
      * assert (root (report (Some x) st1) = root st /\
                listeners (report (Some x) st1) = listeners st /\
                hostLog (log (report (Some x) st1)) = hostLog (log st)) as (Hr1 & Hl1 & Hh1).
        { cbn. split; [exact Hr|]. split; [exact Hl|].
          rewrite hostLog_app, Hh. cbn. apply app_nil_r. }
        destruct (IH fl (report (Some x) st1) Hfl Hcalm' (Hreg' _ Hl1))
          as (st2 & inv & Heq2 & Hr2 & Hl2 & Hh2).
        exists st2, inv. split; [exact Heq2|]. split; [congruence|].
        split; [congruence|]. rewrite Hh2, Hh1. reflexivity.
      * assert (root (report x st1) = root st /\
                listeners (report x st1) = listeners st /\
                hostLog (log (report x st1)) = hostLog (log st)) as (Hr1 & Hl1 & Hh1).
        { destruct x as [x|]; cbn; [|repeat split; assumption].
          split; [exact Hr|]. split; [exact Hl|].
          rewrite hostLog_app, Hh. cbn. apply app_nil_r. }
        destruct (IH fl (report x st1) Hfl Hcalm' (Hreg' _ Hl1))
          as (st2 & inv & Heq2 & Hr2 & Hl2 & Hh2).
        rewrite Heq2. exists st2, ((current, w) :: inv). split; [reflexivity|].
        split; [congruence|]. split; [congruence|]. rewrite Hh2, Hh1. reflexivity.
    + assert (root (proxyToAmara e st) = root st /\
              listeners (proxyToAmara e st) = listeners st) as [Hr1 Hl1].
      { unfold proxyToAmara. destruct (negb _); split; reflexivity. }
      destruct (IH fl (proxyToAmara e st) Hfl Hcalm' (Hreg' _ Hl1))
        as (st2 & inv & Heq2 & Hr2 & Hl2 & Hh2).
      exists st2, inv. split; [exact Heq2|]. split; [congruence|].
      split; [congruence|].
      rewrite Hh2. unfold proxyToAmara. cbn [proxied flat_map].
      destruct (negb (Js.startsWith lifecyclePrefix (e_type e))).
      * unfold logEntry. cbn [log set_log]. rewrite hostLog_app, <- app_assoc. reflexivity.
      * reflexivity.
Qed.

Lemma listenersFor_same st st' n type :
  listeners st' = listeners st -> listenersFor st' n type = listenersFor st n type.
Proof. unfold listenersFor. intros H. rewrite (listenersOf_same st st' n H). reflexivity. Qed.

Lemma listenersFor_registered_any st n type l :
  In l (listenersFor st n type) ->
  existsb (Dom.isEntry type l) (Dom.listenersOf st n) = true.
Proof.
  intros H. apply In_listenersFor in H. apply existsb_exists.
  exists (type, l). split; [exact H|]. unfold Dom.isEntry. simpl.
  rewrite String.eqb_refl. destruct l as [w|]; simpl; [apply Nat.eqb_refl | reflexivity].
Qed.

Lemma propagate_calm e path : forall fl st,
  stopped fl = false -> stoppedImmediate fl = false ->
  (forall n type w, In (type, LWrapper w) (Dom.listenersOf st n) ->
     calm (h_body (w_handler w)) = true) ->
  exists st' inv,
    propagate elementMatches dispatch e path fl st = (st', inv) /\
    root st' = root st /\
    listeners st' = listeners st /\
    hostLog (log st')
    = hostLog (log st)
      ++ flat_map (fun n => proxied e (listenersFor st n (e_type e))) path.
Proof.
  induction path as [|n rest IH]; intros fl st Hs Hsi Hcalm.
  - exists st, []. split; [reflexivity|]. split; [reflexivity|]. split; [reflexivity|].
    cbn. rewrite app_nil_r. reflexivity.
  - simpl. rewrite Hs.
    destruct (invokeListeners_calm n e (listenersFor st n (e_type e)) fl st Hsi)
      as (st1 & inv & Heq & Hr & Hl & Hh).
    { intros w Hin. apply In_listenersFor in Hin. eapply Hcalm. exact Hin. }
    { intros l Hin. apply listenersFor_registered_any. exact Hin. }
    rewrite Heq.
    destruct (IH fl st1 Hs Hsi) as (st2 & inv2 & Heq2 & Hr2 & Hl2 & Hh2).
    { intros m type w Hin. rewrite (listenersOf_same st st1 m Hl) in Hin.
      eapply Hcalm. exact Hin. }
    rewrite Heq2. exists st2, (inv ++ inv2). split; [reflexivity|].
    split; [congruence|]. split; [congruence|]. rewrite Hh2, Hh, <- app_assoc. f_equal. f_equal.
    apply flat_map_ext. intros m. rewrite (listenersFor_same st st1 m _ Hl). reflexivity.
Qed.

End Calm.

Lemma proxied_noProxy e st n :
  (forall type, ~ In (type, LProxy) (Dom.listenersOf st n)) ->
  proxied e (listenersFor st n (e_type e)) = [].
Proof.
  intros Hn. unfold proxied.
  assert (forall l, In l (listenersFor st n (e_type e)) -> l <> LProxy) as H.
  { intros l Hin ->. apply In_listenersFor in Hin. exact (Hn _ Hin). }
  induction (listenersFor st n (e_type e)) as [|l ls IH]; [reflexivity|].
  cbn. destruct l as [w|].
  - apply IH. intros l Hin. apply H. right. exact Hin.
  - exfalso. apply (H LProxy); [left|]; reflexivity.
Qed.

Lemma proxied_app e a b : proxied e (a ++ b) = proxied e a ++ proxied e b.
Proof. unfold proxied. apply flat_map_app. Qed.

Lemma listenersFor_app st st' n type t l :
  Dom.listenersOf st' n = Dom.listenersOf st n ++ [(t, l)] ->
  listenersFor st' n type
  = listenersFor st n type ++ (if String.eqb t type then [l] else []).
Proof.
  intros H. unfold listenersFor. rewrite H, List.filter_app, map_app. cbn.
  destruct (String.eqb t type); reflexivity.
Qed.

Lemma flat_map_at {A} (r : node) (x : list A) (f : node -> list A) path :
  List.NoDup path ->
  f r = x -> (forall n, n <> r -> f n = []) ->
  flat_map f path = if existsb (Nat.eqb r) path then x else [].
Proof.
  intros Hnd Hr Hother. induction path as [|n rest IH]; [reflexivity|].
  apply NoDup_cons_iff in Hnd. destruct Hnd as [Hnotin Hnd'].
  cbn [flat_map existsb]. destruct (Nat.eqb_spec r n) as [<-|Hne].
  - rewrite Hr. cbn [orb].
    assert (flat_map f rest = []) as ->; [|apply app_nil_r].
    clear IH Hnd'. induction rest as [|m rest IH]; [reflexivity|].
    cbn. rewrite Hother, IH; [reflexivity| |].
    + intros H. apply Hnotin. right. exact H.
    + intros ->. apply Hnotin. left. reflexivity.
  - rewrite Hother by congruence. cbn. apply IH. exact Hnd'.
Qed.

Lemma filter_all {A} (f : A -> bool) l :
  (forall x, In x l -> f x = true) -> List.filter f l = l.
Proof.
  induction l as [|x l IH]; intros H; [reflexivity|].
  cbn. rewrite (H x (or_introl eq_refl)). f_equal. apply IH.
  intros y Hy. apply H. right. exact Hy.
Qed.

Lemma not_proxy_entry st n type x :
  (forall t, ~ In (t, LProxy) (Dom.listenersOf st n)) ->
  In x (Dom.listenersOf st n) -> negb (Dom.isEntry type LProxy x) = true.
Proof.
  intros Hn Hin. destruct x as [t [w|]].
  - unfold Dom.isEntry. simpl. rewrite andb_false_r. reflexivity.
  - exfalso. exact (Hn _ Hin).
Qed.

(** X18.  What a dispatch hands to the host.  In a state where no
    dispatch is under way (the flag is cleared by the wrapper that runs,
    the proxy is registered nowhere) and on a page whose handlers neither
    dispatch themselves nor stop the propagation of an event, a dispatch
    returns and hands the action to the host exactly once if the action
    is not a lifecycle action and the root set by [core:bootstrap] is
    the target or, for an event that bubbles, one of its ancestors.  In
    every other case, also before [core:bootstrap], the host is handed
    nothing.  The listeners of every node are afterwards what they
    were. *)
Theorem X18_action_reaches_host_once elementMatches ancestors dispatch target action
    options st :
  async st = false ->
  noProxy st ->
  (forall n type w, In (type, LWrapper w) (Dom.listenersOf st n) ->
     calm (h_body (w_handler w)) = true) ->
  List.NoDup (pathOf ancestors target options) ->
  exists st' inv,
    dispatchActionAsEvent elementMatches ancestors dispatch target action options st
    = (st', Normal inv) /\
    hostLog (log st') = hostLog (log st) ++ forwarded ancestors st target action options /\
    forall n, Dom.listenersOf st' n = Dom.listenersOf st n.
Proof.
  intros Ha Hnp Hcalm Hnd. unfold dispatchActionAsEvent. rewrite Ha.
  set (st1 := match root st with
              | Some r => Dom.addEventListener r (a_type action) LProxy st
              | None => st
              end).
  assert (log st1 = log st) as L1.
  { subst st1. destruct (root st) as [r|]; [|reflexivity].
    unfold Dom.addEventListener. destruct (existsb _ _); reflexivity. }
  assert (forall n, Dom.listenersOf st1 n
                    = Dom.listenersOf st n
                      ++ (if bool_decide (root st = Some n)
                          then [(a_type action, LProxy)] else [])) as Hls1.
  { intros n. subst st1. destruct (root st) as [r|].
    - unfold Dom.addEventListener.
      destruct (existsb (Dom.isEntry (a_type action) LProxy) (Dom.listenersOf st r)) eqn:E.
      + apply registered_proxy in E. exfalso. exact (Hnp _ _ E).
      + rewrite listenersOf_insert. destruct (decide (r = n)) as [->|Hn].
        * rewrite bool_decide_eq_true_2 by reflexivity. reflexivity.
        * rewrite bool_decide_eq_false_2 by congruence. rewrite app_nil_r. reflexivity.
    - rewrite bool_decide_eq_false_2 by discriminate. rewrite app_nil_r. reflexivity. }
  assert (root st1 = root st) as R1.
  { assert (frame st st1) as [R _]; [|exact R].
    subst st1. destruct (root st); [apply frame_addProxy | apply frame_refl]. }
  destruct (same_prePatchDisabledBug target st1) as [S2 L2].
  pose proof (frame_prePatchDisabledBug target st1) as [R2 _].
  destruct (prePatchDisabledBug target st1) as [st2 meta]. cbn [fst] in S2, L2, R2.
  unfold dispatchEvent.
  set (ce := withTarget target (customEvent action options)).
  destruct (propagate_calm elementMatches dispatch ce
              (target :: (if e_bubbles (customEvent action options)
                          then ancestors target else []))
              noFlags st2 eq_refl eq_refl) as (st3 & inv & Heq & R3 & S3 & H3).
  { intros n type w Hin. rewrite (listenersOf_same st1 st2 n S2), Hls1 in Hin.
    apply in_app_or in Hin. destruct Hin as [Hin|Hin]; [eapply Hcalm; exact Hin|].
    destruct (bool_decide (root st = Some n)); [|destruct Hin].
    destruct Hin as [Hin|[]]. discriminate. }
  rewrite Heq.
  destruct (same_postPatchDisabledBug target meta st3) as [S4 L4].
  pose proof (frame_postPatchDisabledBug target meta st3) as [R4 _].
  set (st4 := postPatchDisabledBug target meta st3) in *.
  assert (root st4 = root st) as Hroot by congruence.
  assert (forall n, Dom.listenersOf st4 n = Dom.listenersOf st1 n) as Hls4.
  { intros n. apply listenersOf_same. congruence. }
  assert (hostLog (log st4)
          = hostLog (log st) ++ forwarded ancestors st target action options) as Hhost.
  { rewrite L4, H3, L2, L1. f_equal.
    unfold forwarded, reachesRoot.
    change (target :: (if e_bubbles (customEvent action options)
                       then ancestors target else []))
      with (pathOf ancestors target options).
    change (e_type ce) with (a_type action).
    destruct (root st) as [r|] eqn:Er.
    - rewrite (flat_map_at r
                 (if negb (Js.startsWith lifecyclePrefix (a_type action))
                  then [Some action] else [])
                 (fun n => proxied ce (listenersFor st2 n (a_type action)))
                 _ Hnd).
      + destruct (existsb (Nat.eqb r) _), (negb _); reflexivity.
      + rewrite (listenersFor_same st1 st2 r _ S2).
        rewrite (listenersFor_app st st1 r (a_type action) (a_type action) LProxy).
        * rewrite String.eqb_refl, proxied_app.
          change (a_type action) with (e_type ce) at 1.
          rewrite (proxied_noProxy ce st r (Hnp r)).
          unfold proxied. cbn [flat_map app].
          change (e_type ce) with (a_type action).
          change (e_detail ce) with (Some action).
          destruct (negb (Js.startsWith lifecyclePrefix (a_type action))); reflexivity.
        * rewrite Hls1, bool_decide_eq_true_2 by reflexivity. reflexivity.
      + intros n Hn. rewrite (listenersFor_same st1 st2 n _ S2).
        assert (listenersFor st1 n (a_type action) = listenersFor st n (a_type action)) as ->.
        { unfold listenersFor. rewrite Hls1, bool_decide_eq_false_2 by congruence.
          rewrite app_nil_r. reflexivity. }
        change (a_type action) with (e_type ce).
        apply proxied_noProxy. apply Hnp.
    - rewrite andb_false_r.
      assert (forall path,
                flat_map (fun n => proxied ce (listenersFor st2 n (e_type ce))) path = [])
        as ->; [|reflexivity].
      intros path. induction path as [|n rest IH]; [reflexivity|].
      cbn [flat_map]. rewrite IH, app_nil_r.
      rewrite (listenersFor_same st1 st2 n _ S2).
      assert (listenersFor st1 n (e_type ce) = listenersFor st n (e_type ce)) as ->.
      { unfold listenersFor. rewrite Hls1, bool_decide_eq_false_2 by discriminate.
        rewrite app_nil_r. reflexivity. }
      apply proxied_noProxy. apply Hnp. }
  rewrite Hroot. destruct (root st) as [r|] eqn:Er.
  - eexists _, inv. split; [reflexivity|]. split; [exact Hhost|].
    intros n. unfold Dom.removeEventListener. rewrite listenersOf_insert.
    destruct (decide (r = n)) as [->|Hn].
    + rewrite Hls4, Hls1, bool_decide_eq_true_2 by reflexivity.
      rewrite List.filter_app. cbn. unfold Dom.isEntry at 2. cbn.
      rewrite String.eqb_refl. cbn. rewrite app_nil_r.
      apply filter_all. intros x Hx. apply (not_proxy_entry st n); [apply Hnp | exact Hx].
    + rewrite Hls4, Hls1, bool_decide_eq_false_2 by congruence. apply app_nil_r.
  - eexists _, inv. split; [reflexivity|]. split; [exact Hhost|].
    intros n. rewrite Hls4, Hls1, bool_decide_eq_false_2 by discriminate. apply app_nil_r.
Qed.

Lemma X18_action_reaches_host_once_witness :
  let st := set_async false
              (set_root (Some 0)
                 (fst (addHandlerForEvent keyContext
                         ("saved", handlerOf 1 [SetAttribute 1 "class" "done"])
                         initialState))) in
  (async st = false /\ List.NoDup (pathOf pageAncestors 1 defaultInit)) /\
  exists st' inv,
    dispatchActionAsEvent pageMatches pageAncestors
      (dispatcherAt pageMatches pageAncestors 0) 1 (actionOf "saved") defaultInit st
    = (st', Normal inv) /\
    hostLog (log st') = hostLog (log st) ++ [Some (actionOf "saved")].
Proof.
  intros st.
  assert (List.NoDup (pathOf pageAncestors 1 defaultInit)) as Hnd.
  { repeat constructor; simpl; intuition discriminate. }
  assert (forall n, Dom.listenersOf st n
                    = default [] ((<[1 := [("saved",
                                    LWrapper {| w_id := 0;
                                                w_handler := handlerOf 1 [SetAttribute 1 "class" "done"];
                                                w_meta := []; w_delegates := [];
                                                w_target := 1 |})]]>
                           (∅ : gmap node (list (string * Listener)))) !! n)) as Hls
    by reflexivity.
  split; [split; [reflexivity | exact Hnd]|].
  destruct (X18_action_reaches_host_once pageMatches pageAncestors
              (dispatcherAt pageMatches pageAncestors 0) 1 (actionOf "saved")
              defaultInit st eq_refl) as (st' & inv & H1 & H2 & _).
  - intros n type Hin. rewrite Hls in Hin.
    destruct (decide (n = 1)) as [->|Hn].
    + rewrite lookup_insert_eq in Hin. destruct Hin as [Hin|[]]. discriminate.
    + rewrite lookup_insert_ne in Hin by congruence. destruct Hin.
  - intros n type w Hin. rewrite Hls in Hin.
    destruct (decide (n = 1)) as [->|Hn].
    + rewrite lookup_insert_eq in Hin. destruct Hin as [Hin|[]].
      inversion Hin; subst. reflexivity.
    + rewrite lookup_insert_ne in Hin by congruence. destruct Hin.
  - exact Hnd.
  - exists st', inv. split; [exact H1 | exact H2].
Defined.

(** ** Maps and entries *)

(** X19.  The maps of an apply-call are flattened before they are
    bound: a call with several maps does exactly what a call with the
    one sequence of all their entries does.  How the handlers of a
    target are grouped into maps makes no difference, only their
    order. *)
Theorem X19_maps_flatten elementMatches ancestors stack results target st :
  applyEventsToTarget elementMatches ancestors stack results target st
  = applyEventsToTarget elementMatches ancestors stack [concat results] target st.
Proof.
  unfold applyEventsToTarget, bind, lift.
  rewrite !applyEventMaps_concat. cbn [concat]. rewrite app_nil_r. reflexivity.
Qed.

Lemma map_bindingOf_nil type ws : map (bindingOf type) ws = [] -> ws = [].
Proof. destruct ws; [reflexivity | discriminate]. Qed.

Lemma firedOf_nil fired : firedOf [] fired -> fired = [].
Proof.
  intros (post & H & _). symmetry in H. apply app_eq_nil in H. apply H.
Qed.

(** X20.  An apply-call that binds nothing, for a target the engine
    does not know, fires [amara:apply] (which no handler receives) and
    nothing else: it creates no registry entry, so that [amara:add] is
    still to come with the first call that binds a handler, and a report
    that the target was removed fires no [amara:remove]. *)
Theorem X20_empty_apply_creates_nothing elementMatches ancestors stack steps results target :
  let st := run elementMatches ancestors stack steps initialState in
  targetHandlers st !! target = None ->
  concat results = [] ->
  exists st',
    applyEventsToTarget elementMatches ancestors stack results target st
    = (st', Normal {| firedAdd := None; firedApply := [] |}) /\
    lifecycleOf (log st') = lifecycleOf (log st) ++ [(target, "amara:apply")] /\
    targetHandlers st' !! target = None /\
    removeTargetHandlers elementMatches ancestors stack target st' = (st', Normal None).
Proof.
  intros st Hnone Hempty.
  pose proof (reachable_wf elementMatches ancestors stack steps) as Hwf. fold st in Hwf.
  destruct (applyEventsToTarget_spec elementMatches ancestors stack results target st Hwf)
    as (st' & r & Heq & _ & _ & Hreg & _ & Hentry & _ & Hr).
  rewrite Hempty in Hreg, Hentry, Hr. cbn in Hreg, Hentry, Hr.
  destruct Hr as (fadd & fapply & -> & Hlog & _ & Hfired).
  assert (regList st' target "amara:apply" = []) as Hnil
    by (apply (map_bindingOf_nil "amara:apply"), Hreg).
  rewrite Hnil in Hfired. cbn in Hfired. apply firedOf_nil in Hfired. subst fapply.
  assert (targetHandlers st' !! target = None) as Hnone'
    by (apply Hentry; split; [exact Hnone | reflexivity]).
  exists st'. split; [exact Heq|]. split; [exact Hlog|]. split; [exact Hnone'|].
  apply removeTargetHandlers_none. exact Hnone'.
Qed.

Lemma X20_empty_apply_creates_nothing_witness :
  let st := run pageMatches pageAncestors pageStack [] initialState in
  (targetHandlers st !! 1 = None /\ concat ([[]] : list EventMap) = []) /\
  exists st',
    applyEventsToTarget pageMatches pageAncestors pageStack [[]] 1 st
    = (st', Normal {| firedAdd := None; firedApply := [] |}).
Proof.
  intros st. split; [split; reflexivity|].
  destruct (X20_empty_apply_creates_nothing pageMatches pageAncestors pageStack [] [[]] 1
              eq_refl eq_refl) as (st' & H & _).
  exists st'. exact H.
Defined.

(** The proxy is registered once however many dispatches of one type
    are under way, and the first of them to finish takes it off: of the
    two dispatches of the action [a] below, the inner one reaches the
    host and the outer one, which arrives at the root later, does not.
    This is why the property of what reaches the host is stated for
    handlers that do not dispatch themselves. *)
Example nested_dispatch_of_one_type_reaches_host_once :
  hostLog (log (pageRun relaySteps)) = [Some (actionOf "a")] /\
  List.length (List.filter (fun x => match x with
                                     | LogInvoke _ _ h =>
                                         negb (noDispatch (h_body h))
                                     | _ => false
                                     end) (log (pageRun relaySteps))) = 2.
Proof. split; vm_compute; reflexivity. Qed.


(** ** The node a handler dispatches from *)

Lemma bound_frame st st' : frame st st' -> boundWhereTheyListen st -> boundWhereTheyListen st'.
Proof.
  intros (_ & _ & _ & Hw & _) H n type w Hin.
  apply In_wrappersOf in Hin. rewrite Hw in Hin. apply In_wrappersOf in Hin.
  eapply H. exact Hin.
Qed.

Lemma bound_detach target m st :
  boundWhereTheyListen st -> boundWhereTheyListen (detach target m st).
Proof.
  intros H n type w Hin. apply In_wrappersOf, detach_wf_listeners, In_wrappersOf in Hin.
  eapply H. exact Hin.
Qed.

Lemma bound_clearTarget target st :
  boundWhereTheyListen st -> boundWhereTheyListen (clearTarget target st).
Proof.
  intros H. unfold clearTarget. destruct (targetHandlers st !! target) as [m|]; [|exact H].
  intros n type w Hin. exact (bound_detach target m st H n type w Hin).
Qed.

Lemma bound_addHandlerForEvent this entry st :
  boundWhereTheyListen st -> boundWhereTheyListen (fst (addHandlerForEvent this entry st)).
Proof.
  intros H. unfold addHandlerForEvent. destruct entry as [key h].
  destruct (rxEventAndSelectors key) as [[eventMeta selectors]|]; [|exact H].
  destruct (parseEventMeta eventMeta) as [|event meta]; [exact H|].
  destruct (Js.startsWith lifecyclePrefix event
            && negb (Nat.eqb (List.length (parseDelegates selectors)) 0)); [exact H|].
  destruct (targetHandlers st !! c_target this) as [m|]; cbn [fst];
    intros n type w Hin; cbn [Dom.listenersOf listeners set_targetHandlers] in Hin;
    unfold Dom.addEventListener in Hin;
    match type of Hin with
    | context [existsb ?f ?l] => destruct (existsb f l)
    end;
    try (eapply H; exact Hin);
    change (In (type, LWrapper w)
              (Dom.listenersOf
                 (set_listeners
                    (<[c_target this :=
                         Dom.listenersOf (set_nextId (S (nextId st)) st) (c_target this)
                         ++ [(event, LWrapper {| w_id := nextId st; w_handler := h;
                                                 w_meta := meta;
                                                 w_delegates := parseDelegates selectors;
                                                 w_target := c_target this |})]]>
                       (listeners (set_nextId (S (nextId st)) st)))
                    (set_nextId (S (nextId st)) st)) n)) in Hin;
    rewrite listenersOf_insert in Hin;
    (destruct (decide (c_target this = n)) as [<-|Hn]; [|eapply H; exact Hin]);
    apply in_app_or in Hin;
    (destruct Hin as [Hin|[Hin|[]]]; [eapply H; exact Hin|]);
    inversion Hin; reflexivity.
Qed.

Lemma bound_applyEventMap map : forall this st,
  boundWhereTheyListen st -> boundWhereTheyListen (fst (applyEventMap this map st)).
Proof.
  induction map as [|entry rest IH]; intros this st H; [exact H|].
  rewrite applyEventMap_cons.
  pose proof (bound_addHandlerForEvent this entry st H) as H1.
  destruct (addHandlerForEvent this entry st) as [st1 [this1|x]]; simpl in H1.
  - apply IH. exact H1.
  - exact H1.
Qed.

Section BoundProperties.

Variable elementMatches : node -> string -> option bool.
Variable ancestors : node -> list node.
Variable stack : nat.

Lemma bound_syncDispatch target action st :
  boundWhereTheyListen st ->
  boundWhereTheyListen (fst (syncDispatch elementMatches ancestors stack target action st)).
Proof.
  intros H.
  destruct (syncDispatch_spec elementMatches ancestors stack target action st)
    as (st' & fired & Heq & Hf & _).
  rewrite Heq. cbn [fst]. eapply bound_frame; [exact Hf|].
  intros n type w Hin. eapply H. exact Hin.
Qed.

Lemma bound_applyEventsToTarget results target st :
  boundWhereTheyListen st ->
  boundWhereTheyListen
    (fst (applyEventsToTarget elementMatches ancestors stack results target st)).
Proof.
  intros H. unfold applyEventsToTarget, bind, lift, ret.
  rewrite applyEventMaps_concat.
  pose proof (bound_applyEventMap (concat results) {| c_target := target; c_added := false |}
                (clearTarget target st) (bound_clearTarget target st H)) as H1.
  destruct (applyEventMap _ (concat results) (clearTarget target st)) as [st1 [c|x]];
    simpl in H1; [|exact H1].
  destruct (c_added c).
  - pose proof (bound_syncDispatch target addAction st1 H1) as H2.
    destruct (syncDispatch elementMatches ancestors stack target addAction st1)
      as [st2 [r2|x2]]; simpl in H2; [|exact H2].
    pose proof (bound_syncDispatch target applyAction st2 H2) as H3.
    destruct (syncDispatch elementMatches ancestors stack target applyAction st2)
      as [st3 [r3|x3]]; exact H3.
  - pose proof (bound_syncDispatch target applyAction st1 H1) as H3.
    destruct (syncDispatch elementMatches ancestors stack target applyAction st1)
      as [st3 [r3|x3]]; exact H3.
Qed.

Lemma bound_removeTargetHandlers target st :
  boundWhereTheyListen st ->
  boundWhereTheyListen (fst (removeTargetHandlers elementMatches ancestors stack target st)).
Proof.
  intros H. unfold removeTargetHandlers.
  destruct (targetHandlers st !! target) as [m|]; [|exact H].
  pose proof (bound_syncDispatch target removeAction st H) as H1.
  destruct (syncDispatch elementMatches ancestors stack target removeAction st)
    as [st1 [r|x]]; simpl in H1; [|exact H1].
  cbn [fst].
  apply (bound_detach target m (set_targetHandlers (delete target (targetHandlers st1)) st1)).
  intros n type w Hin. eapply H1. exact Hin.
Qed.

Lemma forEach_keeps {A} (P : State -> Prop) (f : A -> M unit) (arr : list A) :
  (forall x st, P st -> P (fst (f x st))) ->
  forall st, P st -> P (fst (forEach f arr st)).
Proof.
  intros Hf. induction arr as [|x rest IH]; intros st H; [exact H|].
  simpl. unfold bind. pose proof (Hf x st H) as H1.
  destruct (f x st) as [st1 [[]|e]]; simpl in H1; [apply IH; exact H1 | exact H1].
Qed.

Lemma bound_step s st :
  boundWhereTheyListen st ->
  boundWhereTheyListen (step elementMatches ancestors stack s st).
Proof.
  intros H. destruct s as [[target|[events|]|payload|type]|target e|]; simpl.
  - intros n type w Hin. eapply H. exact Hin.
  - apply (forEach_keeps boundWhereTheyListen); [|exact H].
    intros [target results] st0 H0. unfold bind. simpl.
    pose proof (bound_applyEventsToTarget results target st0 H0) as H1.
    destruct (applyEventsToTarget _ _ _ _ _ _) as [st1 [r|x]]; exact H1.
  - exact H.
  - apply (forEach_keeps boundWhereTheyListen); [|exact H].
    intros target st0 H0. unfold bind.
    pose proof (bound_removeTargetHandlers target st0 H0) as H1.
    destruct (removeTargetHandlers _ _ _ _ _) as [st1 [r|x]]; exact H1.
  - exact H.
  - eapply bound_frame; [apply fireEvent_frame | exact H].
  - eapply bound_frame; [apply runTimer_frame | exact H].
Qed.

Lemma bound_run steps : forall st,
  boundWhereTheyListen st ->
  boundWhereTheyListen (run elementMatches ancestors stack steps st).
Proof.
  unfold run. induction steps as [|s rest IH]; intros st H; [exact H|].
  simpl. apply IH, bound_step, H.
Qed.

End BoundProperties.

(** X21.  The dispatcher a handler receives as [e.dispatch] is the one
    of the node it was bound for, and that is the node its wrapper
    listens on: whatever has happened, a wrapper that listens on a node
    dispatches on that node.  An action dispatched by a delegated
    handler is therefore fired on the node of the binding, not on the
    node the event came from. *)
Theorem X21_handlers_dispatch_from_their_node elementMatches ancestors stack steps n type w :
  In (type, LWrapper w)
     (Dom.listenersOf (run elementMatches ancestors stack steps initialState) n) ->
  w_target w = n /\
  forall dispatch current e fl st action options,
    fires elementMatches e w = true ->
    h_body (w_handler w) = [Dispatch action options] ->
    fst (eventHandler elementMatches dispatch w current e fl st)
    = match dispatch n action (default defaultInit options)
              (logEntry (LogInvoke current (e_type e) (w_handler w)) (set_async false st)) with
      | (st', Normal _) => set_async true st'
      | (st', Throw _) => st'
      end.
Proof.
  intros Hin.
  assert (w_target w = n) as Ht.
  { eapply (bound_run elementMatches ancestors stack steps initialState); [|exact Hin].
    intros m t v H. unfold Dom.listenersOf in H. simpl in H.
    rewrite lookup_empty in H. destruct H. }
  split; [exact Ht|].
  intros dispatch current e fl st action options Hf Hbody.
  unfold fires in Hf. apply andb_prop in Hf. destruct Hf as [Hd Hm].
  apply delegationPasses_check in Hd.
  unfold eventHandler. rewrite Hd, Hm, Hbody, Ht. cbn [negb runBody].
  destruct (dispatch n action (default defaultInit options) _) as [st' [r|x]]; reflexivity.
Qed.

Lemma X21_handlers_dispatch_from_their_node_witness :
  let w := {| w_id := 0; w_handler := handlerOf 1 [Dispatch (actionOf "picked") None];
              w_meta := []; w_delegates := [".item"]; w_target := 1 |} in
  In ("click", LWrapper w)
     (Dom.listenersOf
        (run pageMatches pageAncestors pageStack
           [applyTo 1 [[("click .item", handlerOf 1 [Dispatch (actionOf "picked") None])]]]
           initialState) 1) /\
  w_target w = 1.
Proof.
  intros w.
  assert (In ("click", LWrapper w)
            (Dom.listenersOf
               (run pageMatches pageAncestors pageStack
                  [applyTo 1 [[("click .item",
                                handlerOf 1 [Dispatch (actionOf "picked") None])]]]
                  initialState) 1)) as H
    by (vm_compute; left; reflexivity).
  split; [exact H|].
  exact (proj1 (X21_handlers_dispatch_from_their_node pageMatches pageAncestors pageStack
                  _ 1 "click" w H)).
Defined.
